(** * Run-time type descriptors: resolution, naming and de-duplication

    A shallow embedding of [runtime/type.go]: the name codec, the accessors
    of a type descriptor, the three offset resolvers, the structural
    equality check [typesEqual] and the cross-module pass [typelinksinit].

    Addresses ([uintptr], [unsafe.Pointer], every [*T]) are integers modulo
    [2^64]; [nil] is [0].  The read-only image is split in two stores: the
    bytes of the name records and the type descriptors, both keyed by
    address.  Reading an address that holds nothing is an invalid memory
    access.  Everything the source reaches through globals
    ([firstmoduledata], [reflectOffs]) is a field of [world], and so is
    the target ([GOARCH] and its byte order). *)

From Stdlib Require Import ZArith Lia.
From Stdlib.Strings Require Import Byte.
From stdpp Require Import gmap strings list fin_maps.

Open Scope Z_scope.

(** ** Outcomes of a call

    A call returns, stops the process through [throw], raises a run-time
    panic (a slice expression out of bounds), or touches memory that is not
    there.  [Timeout] only exists for the recursion of [typesEqual], which
    is driven by a depth budget. *)

Inductive outcome (A : Type) : Type :=
| Ret (a : A)
| Throw (msg : string)
| Panic (msg : string)
| Fault
| Timeout.

Arguments Ret {A} a.
Arguments Throw {A} msg.
Arguments Panic {A} msg.
Arguments Fault {A}.
Arguments Timeout {A}.

#[global] Instance outcome_ret : MRet outcome := fun A a => Ret a.

#[global] Instance outcome_bind : MBind outcome := fun A B k m =>
  match m with
  | Ret a => k a
  | Throw s => Throw s
  | Panic s => Panic s
  | Fault => Fault
  | Timeout => Timeout
  end.

Definition returns {A} (m : outcome A) : Prop := ∃ a, m = Ret a.

Definition aborts {A} (m : outcome A) : Prop := ∃ msg, m = Throw msg.

#[global] Instance byte_eq_decision : EqDecision byte := byte_eq_dec.

(** ** Machine integers *)

Definition wrap64 (z : Z) : Z := z mod 2 ^ 64.

Definition wrap16 (z : Z) : Z := z mod 2 ^ 16.

(** [uintptr(off)] for a signed 32-bit [off]: sign extension. *)
Definition uintptr_of_int32 (off : Z) : Z := off mod 2 ^ 64.

(** [add(p, n)] of [stubs.go]: pointer plus offset. *)
Definition add (p n : Z) : Z := wrap64 (p + n).

Definition byteZ (b : byte) : Z := Z.of_N (Byte.to_N b).

(** ** Flags and kinds *)

Definition tflagUncommon : Z := Z.shiftl 1 0.
Definition tflagExtraStar : Z := Z.shiftl 1 1.
Definition tflagNamed : Z := Z.shiftl 1 2.

(** Modelled from the spec: the kind tags of [typekind.go], which is not
    part of the sources at hand; the enumeration is the closed one of the
    data model (boolean .. complex128, array, channel, function, interface,
    map, pointer, slice, string, struct, unsafe pointer), with the low five
    bits of the [kind] byte holding the tag. *)
Definition kindBool : Z := 1.
Definition kindComplex128 : Z := 16.
Definition kindArray : Z := 17.
Definition kindChan : Z := 18.
Definition kindFunc : Z := 19.
Definition kindInterface : Z := 20.
Definition kindMap : Z := 21.
Definition kindPtr : Z := 22.
Definition kindSlice : Z := 23.
Definition kindString : Z := 24.
Definition kindStruct : Z := 25.
Definition kindUnsafePointer : Z := 26.
Definition kindMask : Z := Z.shiftl 1 5 - 1.

(** ** The data model *)

Record _type := {
  t_size : Z;
  ptrdata : Z;
  hash : Z;
  tflag : Z;
  align : Z;
  fieldalign : Z;
  kind : Z;
  alg : Z;
  gcdata : Z;
  str : Z;
  ptrToThis : Z
}.

Record uncommontype := {
  u_pkgpath : Z;
  mcount : Z;
  xcount : Z;
  moff : Z
}.

Record imethod := { im_name : Z; ityp : Z }.

(** An interface's [mhdr] is a slice: the address of its backing array and
    the elements.  Element [i] lives at [mhdr_data + 8 * i]. *)
Record interfacetype := {
  it_typ : _type;
  it_pkgpath : Z;
  mhdr_data : Z;
  mhdr : list imethod
}.

Record maptype := {
  mt_typ : _type;
  mt_key : Z;
  mt_elem : Z;
  mt_bucket : Z;
  keysize : Z;
  valuesize : Z;
  bucketsize : Z;
  mt_flags : Z
}.

Record arraytype := { at_typ : _type; at_elem : Z; at_slice : Z; at_len : Z }.

Record chantype := { ct_typ : _type; ct_elem : Z; ct_dir : Z }.

Record slicetype := { st_typ : _type; st_elem : Z }.

Record functype := { ft_typ : _type; inCount : Z; outCount : Z }.

Record ptrtype := { pt_typ : _type; pt_elem : Z }.

Record structfield := { sf_name : Z; sf_typ : Z; offsetAnon : Z }.

Record structtype := {
  sy_typ : _type;
  sy_pkgPath : Z;
  fields : list structfield
}.

(** What stands at the address of a descriptor: the plain header or one of
    the kind-specific layouts that start with it. *)
Inductive layout :=
| Lbase (t : _type)
| Larray (a : arraytype)
| Lchan (c : chantype)
| Lfunc (f : functype)
| Linterface (i : interfacetype)
| Lmap (m : maptype)
| Lptr (p : ptrtype)
| Lslice (s : slicetype)
| Lstruct (s : structtype).

(** A descriptor in memory: its layout, the [uncommontype] that follows it
    (meaningful when [tflagUncommon] is set) and, for a function, the
    array of parameter and result types stored after both. *)
Record descriptor := {
  lay : layout;
  unc : uncommontype;
  inline : list Z
}.

Record textsect := { vaddr : Z; sect_length : Z; baseaddr : Z }.

(** The fields of [moduledata] ([symtab.go]) that this file reads; the
    [next] link is the order of the list in [world]. *)
Record moduledata := {
  text : Z;
  etext : Z;
  types : Z;
  etypes : Z;
  textsectmap : list textsect;
  typelinks : list Z;
  typemap : option (gmap Z Z)
}.

Record world := {
  mem : gmap Z byte;
  heap : gmap Z descriptor;
  modules : list moduledata;
  reflectOffs_m : gmap Z Z;
  GOARCH : string;
  BigEndian : bool
}.

(** Reading a pointer as a pointer to [_type]: the header every layout
    starts with. *)
Definition header (l : layout) : _type :=
  match l with
  | Lbase t => t
  | Larray a => at_typ a
  | Lchan c => ct_typ c
  | Lfunc f => ft_typ f
  | Linterface i => it_typ i
  | Lmap m => mt_typ m
  | Lptr p => pt_typ p
  | Lslice s => st_typ s
  | Lstruct s => sy_typ s
  end.

(** Dereferencing a descriptor pointer. *)
Definition deref (w : world) (t : Z) : outcome descriptor :=
  match heap w !! t with
  | Some d => Ret d
  | None => Fault
  end.

Definition load (w : world) (a : Z) : outcome byte :=
  match mem w !! a with
  | Some b => Ret b
  | None => Fault
  end.

(** The bytes of a string header [(str, len)]. *)
Fixpoint loadN (w : world) (a : Z) (n : nat) : outcome (list byte) :=
  match n with
  | O => Ret []
  | S n' => b ← load w a; bs ← loadN w (add a 1) n'; Ret (b :: bs)
  end.

(** ** Name records, first part *)

Definition name_data (n : Z) (off : Z) : Z := add n off.

Definition name_isExported (w : world) (n : Z) : outcome bool :=
  b ← load w n; Ret (negb (Z.land (byteZ b) (Z.shiftl 1 0) =? 0)).

Definition name_nameLen (w : world) (n : Z) : outcome Z :=
  b1 ← load w (name_data n 1);
  b2 ← load w (name_data n 2);
  Ret (Z.lor (wrap16 (Z.shiftl (byteZ b1) 8)) (byteZ b2)).

Definition name_tagLen (w : world) (n : Z) : outcome Z :=
  b0 ← load w (name_data n 0);
  if Z.land (byteZ b0) (Z.shiftl 1 1) =? 0 then Ret 0
  else
    nl ← name_nameLen w n;
    let off := 3 + nl in
    h ← load w (name_data n off);
    l ← load w (name_data n (off + 1));
    Ret (Z.lor (wrap16 (Z.shiftl (byteZ h) 8)) (byteZ l)).

(** A string header: the [stringStruct] that [name] and [tag] fill in
    through [hdr]. *)
Record stringStruct := { s_str : Z; s_len : Z }.

(** [name] and [tag] as the source has them: they build a string header
    over the bytes of the record and read none of these bytes; the empty
    string is the zero header. *)
Definition name_name_hdr (w : world) (n : Z) : outcome stringStruct :=
  if n =? 0 then Ret {| s_str := 0; s_len := 0 |}
  else
    nl ← name_nameLen w n;
    if nl =? 0 then Ret {| s_str := 0; s_len := 0 |}
    else Ret {| s_str := name_data n 3; s_len := nl |}.

Definition name_tag_hdr (w : world) (n : Z) : outcome stringStruct :=
  tl ← name_tagLen w n;
  if tl =? 0 then Ret {| s_str := 0; s_len := 0 |}
  else
    nl ← name_nameLen w n;
    Ret {| s_str := name_data n (3 + nl + 2); s_len := tl |}.

(** The bytes of a string, read where the string is used. *)
Definition stringBytes (w : world) (s : stringStruct) : outcome (list byte) :=
  if s_len s =? 0 then Ret [] else loadN w (s_str s) (Z.to_nat (s_len s)).

(** The identifier and the tag as the rest of the model compares and
    returns them: the bytes of the strings of [name] and [tag], that is,
    the header and the read of its bytes at once. *)
Definition name_name (w : world) (n : Z) : outcome (list byte) :=
  if n =? 0 then Ret []
  else
    nl ← name_nameLen w n;
    if nl =? 0 then Ret []
    else loadN w (name_data n 3) (Z.to_nat nl).

Definition name_tag (w : world) (n : Z) : outcome (list byte) :=
  tl ← name_tagLen w n;
  if tl =? 0 then Ret []
  else
    nl ← name_nameLen w n;
    loadN w (name_data n (3 + nl + 2)) (Z.to_nat tl).

(** ** The offset resolvers *)

(** The scan [for next := &firstmoduledata; next != nil; next = next.next]
    for the module whose type range holds [base]. *)
Fixpoint findmodule (base : Z) (mds : list moduledata) : option moduledata :=
  match mds with
  | [] => None
  | md :: rest =>
      if (types md <=? base) && (base <? etypes md) then Some md
      else findmodule base rest
  end.

Definition resolveNameOff (w : world) (ptrInModule off : Z) : outcome Z :=
  if off =? 0 then Ret 0
  else
    let base := ptrInModule in
    match findmodule base (modules w) with
    | Some md =>
        let res := wrap64 (types md + uintptr_of_int32 off) in
        if etypes md <? res then Throw "runtime: name offset out of range"
        else Ret res
    | None =>
        match reflectOffs_m w !! off with
        | None => Throw "runtime: name offset base pointer out of range"
        | Some res => Ret res
        end
    end.

Definition type_nameOff (w : world) (t off : Z) : outcome Z :=
  resolveNameOff w t off.

Definition resolveTypeOff (w : world) (ptrInModule off : Z) : outcome Z :=
  if off =? 0 then Ret 0
  else
    let base := ptrInModule in
    match findmodule base (modules w) with
    | None =>
        let res := default 0 (reflectOffs_m w !! off) in
        if res =? 0 then Throw "runtime: type offset base pointer out of range"
        else Ret res
    | Some md =>
        let t := match typemap md with
                 | Some tm => default 0 (tm !! off)
                 | None => 0
                 end in
        if negb (t =? 0) then Ret t
        else
          let res := wrap64 (types md + uintptr_of_int32 off) in
          if etypes md <? res then Throw "runtime: type offset out of range"
          else Ret res
    end.

Definition type_typeOff (w : world) (t off : Z) : outcome Z :=
  resolveTypeOff w t off.

(** ** Name records, second part *)

(** The four bytes copied into a [nameOff], in the byte order of the
    target, read as a signed 32-bit integer. *)
Definition int32_of_bytes (bigEndian : bool) (b0 b1 b2 b3 : byte) : Z :=
  let u := if bigEndian
           then byteZ b3 + 2 ^ 8 * byteZ b2 + 2 ^ 16 * byteZ b1 + 2 ^ 24 * byteZ b0
           else byteZ b0 + 2 ^ 8 * byteZ b1 + 2 ^ 16 * byteZ b2 + 2 ^ 24 * byteZ b3 in
  if u <? 2 ^ 31 then u else u - 2 ^ 32.

Definition name_pkgPath (w : world) (n : Z) : outcome (list byte) :=
  if n =? 0 then Ret []
  else
    b0 ← load w (name_data n 0);
    if Z.land (byteZ b0) (Z.shiftl 1 2) =? 0 then Ret []
    else
      nl ← name_nameLen w n;
      tl ← name_tagLen w n;
      let off := if 0 <? tl then 3 + nl + (2 + tl) else 3 + nl in
      c0 ← load w (name_data n off);
      c1 ← load w (add (name_data n off) 1);
      c2 ← load w (add (name_data n off) 2);
      c3 ← load w (add (name_data n off) 3);
      let nameOff := int32_of_bytes (BigEndian w) c0 c1 c2 c3 in
      pkgPathName ← resolveNameOff w n nameOff;
      name_name w pkgPathName.

(** ** Accessors of a descriptor *)

(** [s[1:]] on a string. *)
Definition slice_from1 (s : list byte) : outcome (list byte) :=
  match s with
  | [] => Panic "slice bounds out of range"
  | _ :: s' => Ret s'
  end.

Definition type_string (w : world) (t : Z) : outcome (list byte) :=
  d ← deref w t;
  let ty := header (lay d) in
  n ← type_nameOff w t (str ty);
  s ← name_name w n;
  if negb (Z.land (tflag ty) tflagExtraStar =? 0) then slice_from1 s
  else Ret s.

(** [uncommon]: [nil] (here [None]) without the flag.  With it, the nine
    cases of the source overlay the layout of the descriptor's kind and
    take the [uncommontype] that follows it; the descriptor of the model
    carries that record as [unc], whichever the kind. *)
Definition type_uncommon (d : descriptor) : option uncommontype :=
  if Z.land (tflag (header (lay d))) tflagUncommon =? 0 then None
  else Some (unc d).

(** The backward scan of [name]: started at [k = i + 1], it returns the
    final [i + 1]. *)
Fixpoint scanDot (s : list byte) (k : nat) : nat :=
  match k with
  | O => O
  | S i =>
      match s !! i with
      | Some b => if bool_decide (b = "."%byte) then S i else scanDot s i
      | None => scanDot s i
      end
  end.

Definition type_name (w : world) (t : Z) : outcome (list byte) :=
  d ← deref w t;
  if Z.land (tflag (header (lay d))) tflagNamed =? 0 then Ret []
  else
    s ← type_string w t;
    Ret (drop (scanDot s (length s)) s).

(** The casts of [t] to a pointer to [structtype] and the like: they read
    the layout that is at [t]; a descriptor of another layout has no such
    fields to read. *)
Definition as_struct (l : layout) : outcome structtype :=
  match l with Lstruct s => Ret s | _ => Fault end.

Definition as_interface (l : layout) : outcome interfacetype :=
  match l with Linterface i => Ret i | _ => Fault end.

Definition as_array (l : layout) : outcome arraytype :=
  match l with Larray a => Ret a | _ => Fault end.

Definition as_chan (l : layout) : outcome chantype :=
  match l with Lchan c => Ret c | _ => Fault end.

Definition as_func (l : layout) : outcome functype :=
  match l with Lfunc f => Ret f | _ => Fault end.

Definition as_map (l : layout) : outcome maptype :=
  match l with Lmap m => Ret m | _ => Fault end.

Definition as_ptr (l : layout) : outcome ptrtype :=
  match l with Lptr p => Ret p | _ => Fault end.

Definition as_slice (l : layout) : outcome slicetype :=
  match l with Lslice s => Ret s | _ => Fault end.

Definition type_pkgpath (w : world) (t : Z) : outcome (list byte) :=
  d ← deref w t;
  match type_uncommon d with
  | Some u => n ← type_nameOff w t (u_pkgpath u); name_name w n
  | None =>
      let k := Z.land (kind (header (lay d))) kindMask in
      if k =? kindStruct then
        st ← as_struct (lay d); name_name w (sy_pkgPath st)
      else if k =? kindInterface then
        it ← as_interface (lay d); name_name w (it_pkgpath it)
      else Ret []
  end.

(** The loop of [textOff] over the text sections: the first section taken
    by the test of the source, or [0] when none is. *)
Fixpoint textsectLookup (off : Z) (sects : list textsect) : Z :=
  match sects with
  | [] => 0
  | s :: rest =>
      let sectaddr := vaddr s in
      let sectlen := sect_length s in
      if (sectaddr <=? off) && (off <=? wrap64 (sectaddr + sectlen))
      then wrap64 (baseaddr s + off - vaddr s)
      else textsectLookup off rest
  end.

Definition type_textOff (w : world) (t off : Z) : outcome Z :=
  let base := t in
  match findmodule base (modules w) with
  | None =>
      let res := default 0 (reflectOffs_m w !! off) in
      if res =? 0 then Throw "runtime: text offset base pointer out of range"
      else Ret res
  | Some md =>
      let res :=
        if 1 <? Z.of_nat (length (textsectmap md))
        then textsectLookup (uintptr_of_int32 off) (textsectmap md)
        else wrap64 (text md + uintptr_of_int32 off) in
      if (etext md <? res) && negb (bool_decide (GOARCH w = "wasm"))
      then Throw "runtime: text offset out of range"
      else Ret res
  end.

(** ** Parameter and result views of a function descriptor *)

(** [a[lo:hi]] on a pointer to an array of [2^20] type pointers whose first
    cells are [arr]; cells past the stored ones read as [nil]. *)
Definition slice_array (arr : list Z) (lo hi : Z) : outcome (list Z) :=
  if (0 <=? lo) && (lo <=? hi) && (hi <=? 2 ^ 20)
  then Ret ((λ i, nth i arr 0) <$> seq (Z.to_nat lo) (Z.to_nat (hi - lo)))
  else Panic "slice bounds out of range".

(** The array starts after the [functype] and, with [tflagUncommon], after
    the [uncommontype]: that is [inline d] in the model. *)
Definition functype_in (d : descriptor) (t : functype) : outcome (list Z) :=
  slice_array (inline d) 0 (inCount t).

Definition functype_out (d : descriptor) (t : functype) : outcome (list Z) :=
  let outCount := Z.land (outCount t) (Z.shiftl 1 15 - 1) in
  slice_array (inline d) (inCount t) (wrap16 (inCount t + outCount)).

Definition functype_dotdotdot (t : functype) : bool :=
  negb (Z.land (outCount t) (Z.shiftl 1 15) =? 0).

Definition structfield_offset (f : structfield) : Z :=
  Z.shiftr (offsetAnon f) 1.

(** ** Flags of a map descriptor *)

Definition maptype_indirectkey (mt : maptype) : bool :=
  negb (Z.land (mt_flags mt) 1 =? 0).

Definition maptype_indirectvalue (mt : maptype) : bool :=
  negb (Z.land (mt_flags mt) 2 =? 0).

Definition maptype_reflexivekey (mt : maptype) : bool :=
  negb (Z.land (mt_flags mt) 4 =? 0).

Definition maptype_needkeyupdate (mt : maptype) : bool :=
  negb (Z.land (mt_flags mt) 8 =? 0).

Definition maptype_hashMightPanic (mt : maptype) : bool :=
  negb (Z.land (mt_flags mt) 16 =? 0).

(** ** Structural equality *)

(** The memo [seen] is one Go map shared by the whole recursion: every call
    takes the current memo and hands back the updated one. *)
Abbreviation memo := (gset (Z * Z)).

Definition checker : Type := Z → Z → memo → outcome (bool * memo).

(** The loops of [typesEqual] over parameter types, struct fields and
    interface methods, with the recursive call as [rec]. *)
Section loops.
Variable w : world.
Variable rec : checker.

Fixpoint eqTypes (tin vin : list Z) (seen : memo) : outcome (bool * memo) :=
  match tin, vin with
  | [], _ => Ret (true, seen)
  | _ :: _, [] => Panic "index out of range"
  | t :: tin', v :: vin' =>
      '(b, seen) ← rec t v seen;
      if negb b then Ret (false, seen) else eqTypes tin' vin' seen
  end.

Fixpoint eqFields (tfs vfs : list structfield) (seen : memo)
  : outcome (bool * memo) :=
  match tfs, vfs with
  | [], _ => Ret (true, seen)
  | _ :: _, [] => Panic "index out of range"
  | tf :: tfs', vf :: vfs' =>
      tn ← name_name w (sf_name tf);
      vn ← name_name w (sf_name vf);
      if negb (bool_decide (tn = vn)) then Ret (false, seen)
      else
        '(b, seen) ← rec (sf_typ tf) (sf_typ vf) seen;
        if negb b then Ret (false, seen)
        else
          tt ← name_tag w (sf_name tf);
          vt ← name_tag w (sf_name vf);
          if negb (bool_decide (tt = vt)) then Ret (false, seen)
          else if negb (offsetAnon tf =? offsetAnon vf) then Ret (false, seen)
          else eqFields tfs' vfs' seen
  end.

(** [tm] and [vm] are the addresses of the current elements of the two
    [mhdr] arrays; an [imethod] takes eight bytes. *)
Fixpoint eqMethods (tm vm : Z) (tms vms : list imethod) (seen : memo)
  : outcome (bool * memo) :=
  match tms, vms with
  | [], _ => Ret (true, seen)
  | _ :: _, [] => Panic "index out of range"
  | mt :: tms', mv :: vms' =>
      tname ← resolveNameOff w tm (im_name mt);
      vname ← resolveNameOff w vm (im_name mv);
      tn ← name_name w tname;
      vn ← name_name w vname;
      if negb (bool_decide (tn = vn)) then Ret (false, seen)
      else
        tpk ← name_pkgPath w tname;
        vpk ← name_pkgPath w vname;
        if negb (bool_decide (tpk = vpk)) then Ret (false, seen)
        else
          tityp ← resolveTypeOff w tm (ityp mt);
          vityp ← resolveTypeOff w vm (ityp mv);
          '(b, seen) ← rec tityp vityp seen;
          if negb b then Ret (false, seen)
          else eqMethods (add tm 8) (add vm 8) tms' vms' seen
  end.
End loops.

(** The comparison of the package paths of the uncommon data, when either
    side has some. *)
Definition eqUncommon (w : world) (t v : Z) (dt dv : descriptor)
  : outcome bool :=
  match type_uncommon dt, type_uncommon dv with
  | None, None => Ret true
  | Some ut, Some uv =>
      nt ← type_nameOff w t (u_pkgpath ut);
      pkgpatht ← name_name w nt;
      nv ← type_nameOff w v (u_pkgpath uv);
      pkgpathv ← name_name w nv;
      Ret (bool_decide (pkgpatht = pkgpathv))
  | _, _ => Ret false
  end.

(** The [switch kind] of [typesEqual]. *)
Definition eqKind (w : world) (rec : checker) (k : Z) (dt dv : descriptor)
  (seen : memo) : outcome (bool * memo) :=
  if (k =? kindString) || (k =? kindUnsafePointer) then Ret (true, seen)
  else if k =? kindArray then
    at' ← as_array (lay dt);
    av ← as_array (lay dv);
    '(b, seen) ← rec (at_elem at') (at_elem av) seen;
    Ret (b && (at_len at' =? at_len av), seen)
  else if k =? kindChan then
    ct ← as_chan (lay dt);
    cv ← as_chan (lay dv);
    if negb (ct_dir ct =? ct_dir cv) then Ret (false, seen)
    else rec (ct_elem ct) (ct_elem cv) seen
  else if k =? kindFunc then
    ft ← as_func (lay dt);
    fv ← as_func (lay dv);
    if negb (outCount ft =? outCount fv) || negb (inCount ft =? inCount fv)
    then Ret (false, seen)
    else
      tin ← functype_in dt ft;
      vin ← functype_in dv fv;
      '(b, seen) ← eqTypes rec tin vin seen;
      if negb b then Ret (false, seen)
      else
        tout ← functype_out dt ft;
        vout ← functype_out dv fv;
        eqTypes rec tout vout seen
  else if k =? kindInterface then
    it ← as_interface (lay dt);
    iv ← as_interface (lay dv);
    pt ← name_name w (it_pkgpath it);
    pv ← name_name w (it_pkgpath iv);
    if negb (bool_decide (pt = pv)) then Ret (false, seen)
    else if negb (length (mhdr it) =? length (mhdr iv))%nat then Ret (false, seen)
    else eqMethods w rec (mhdr_data it) (mhdr_data iv) (mhdr it) (mhdr iv) seen
  else if k =? kindMap then
    mt ← as_map (lay dt);
    mv ← as_map (lay dv);
    '(b, seen) ← rec (mt_key mt) (mt_key mv) seen;
    if negb b then Ret (false, seen)
    else rec (mt_elem mt) (mt_elem mv) seen
  else if k =? kindPtr then
    pt ← as_ptr (lay dt);
    pv ← as_ptr (lay dv);
    rec (pt_elem pt) (pt_elem pv) seen
  else if k =? kindSlice then
    st ← as_slice (lay dt);
    sv ← as_slice (lay dv);
    rec (st_elem st) (st_elem sv) seen
  else if k =? kindStruct then
    st ← as_struct (lay dt);
    sv ← as_struct (lay dv);
    if negb (length (fields st) =? length (fields sv))%nat then Ret (false, seen)
    else
      pt ← name_name w (sy_pkgPath st);
      pv ← name_name w (sy_pkgPath sv);
      if negb (bool_decide (pt = pv)) then Ret (false, seen)
      else eqFields w rec (fields st) (fields sv) seen
  else Throw "runtime: impossible type kind".

(** The body of [typesEqual], with the recursive calls as [rec]. *)
Definition typesEqualBody (w : world) (rec : checker) (t v : Z) (seen : memo)
  : outcome (bool * memo) :=
  let tp := (t, v) in
  if bool_decide (tp ∈ seen) then Ret (true, seen)
  else
    let seen := {[tp]} ∪ seen in
    if t =? v then Ret (true, seen)
    else
      dt ← deref w t;
      dv ← deref w v;
      let k := Z.land (kind (header (lay dt))) kindMask in
      if negb (k =? Z.land (kind (header (lay dv))) kindMask)
      then Ret (false, seen)
      else
        ts ← type_string w t;
        vs ← type_string w v;
        if negb (bool_decide (ts = vs)) then Ret (false, seen)
        else
          same ← eqUncommon w t v dt dv;
          if negb same then Ret (false, seen)
          else if (kindBool <=? k) && (k <=? kindComplex128)
          then Ret (true, seen)
          else eqKind w rec k dt dv seen.

(** [typesEqual], with [fuel] bounding the depth of the recursion. *)
Fixpoint typesEqual (fuel : nat) (w : world) : checker :=
  match fuel with
  | O => λ _ _ _, Timeout
  | S fuel' => typesEqualBody w (typesEqual fuel' w)
  end.

(** ** The de-duplication pass *)

(** Modelled from the spec: [activeModules] of [symtab.go], which is not
    part of the sources at hand; the registry is consumed as the ordered
    list of its modules, in registration order. *)
Definition activeModules (w : world) : list moduledata := modules w.

Abbreviation buckets := (gmap Z (list Z)).

Definition bucket (typehash : buckets) (h : Z) : list Z :=
  default [] (typehash !! h).

(** The descriptor a typelink of [prev] stands for while collecting. *)
Definition linked (prev : moduledata) (tl : Z) : Z :=
  match typemap prev with
  | None => wrap64 (types prev + uintptr_of_int32 tl)
  | Some tm => default 0 (tm !! tl)
  end.

(** The loop labelled [collect]. *)
Fixpoint collect (w : world) (prev : moduledata) (tls : list Z)
  (typehash : buckets) : outcome buckets :=
  match tls with
  | [] => Ret typehash
  | tl :: rest =>
      let t := linked prev tl in
      d ← deref w t;
      let h := hash (header (lay d)) in
      let tlist := bucket typehash h in
      if bool_decide (t ∈ tlist) then collect w prev rest typehash
      else collect w prev rest (<[h := tlist ++ [t]]> typehash)
  end.

(** The search among the candidates, each with a fresh memo: the first
    candidate equal to [t], or [t] itself. *)
Fixpoint firstEqual (fuel : nat) (w : world) (t : Z) (candidates : list Z)
  : outcome Z :=
  match candidates with
  | [] => Ret t
  | candidate :: rest =>
      '(b, _) ← typesEqual fuel w t candidate ∅;
      if (b : bool) then Ret candidate else firstEqual fuel w t rest
  end.

Definition withTypemap (tm : gmap Z Z) (md : moduledata) : moduledata :=
  {| text := text md; etext := etext md; types := types md;
     etypes := etypes md; textsectmap := textsectmap md;
     typelinks := typelinks md; typemap := Some tm |}.

(** Module [i] of the registry is a shared object: a store to its
    [typemap] is seen by every later reader of the registry. *)
Definition storeModule (w : world) (i : nat) (md : moduledata) : world :=
  {| mem := mem w; heap := heap w; modules := <[i := md]> (modules w);
     reflectOffs_m := reflectOffs_m w; GOARCH := GOARCH w;
     BigEndian := BigEndian w |}.

(** The loop over the typelinks of [md], module [i], whose map so far is
    [tm]. *)
Fixpoint fillTypemap (fuel : nat) (typehash : buckets) (i : nat)
  (md : moduledata) (tls : list Z) (tm : gmap Z Z) (w : world)
  : outcome world :=
  match tls with
  | [] => Ret w
  | tl :: rest =>
      let t := wrap64 (types md + uintptr_of_int32 tl) in
      d ← deref w t;
      t' ← firstEqual fuel w t (bucket typehash (hash (header (lay d))));
      let tm := <[tl := t']> tm in
      fillTypemap fuel typehash i md rest tm (storeModule w i (withTypemap tm md))
  end.

(** The loop over [modules[1:]]: [n] modules are left, the next one is
    module [i], and [prev] is module [i - 1]. *)
Fixpoint dedupLoop (fuel : nat) (n : nat) (i : nat) (typehash : buckets)
  (w : world) : outcome world :=
  match n with
  | O => Ret w
  | S n' =>
      match activeModules w !! (i - 1)%nat, activeModules w !! i with
      | Some prev, Some md =>
          typehash ← collect w prev (typelinks prev) typehash;
          w ← match typemap md with
              | None =>
                  fillTypemap fuel typehash i md (typelinks md) ∅
                    (storeModule w i (withTypemap ∅ md))
              | Some _ => Ret w
              end;
          dedupLoop fuel n' (S i) typehash w
      | _, _ => Ret w
      end
  end.

(** [typelinksinit]; [fuel] is the depth budget of each equality check. *)
Definition typelinksinit (fuel : nat) (w : world) : outcome world :=
  match modules w with
  | _ :: _ :: _ =>
      dedupLoop fuel (length (activeModules w) - 1) 1 ∅ w
  | _ => Ret w
  end.

(** ** The layout of a name record *)

Definition byte_of_Z (z : Z) : byte :=
  default "000"%byte (Byte.of_N (Z.to_N (z mod 2 ^ 8))).

(** A 16-bit length, big-endian. *)
Definition be16 (n : Z) : list byte := [byte_of_Z (n / 2 ^ 8); byte_of_Z n].

(** A decoded name record: the identifier, the tag (empty when there is
    none) and the four bytes of the package-path offset, when present. *)
Record nameRecord := {
  exported : bool;
  ident : list byte;
  tag : list byte;
  pkgRef : option (byte * byte * byte * byte)
}.

Definition hasTag (r : nameRecord) : bool :=
  match tag r with [] => false | _ => true end.

Definition nameFlags (r : nameRecord) : byte :=
  byte_of_Z (Z.lor (if exported r then Z.shiftl 1 0 else 0)
              (Z.lor (if hasTag r then Z.shiftl 1 1 else 0)
                     (match pkgRef r with Some _ => Z.shiftl 1 2 | None => 0 end))).

(** The bytes of a name record, in the words of the data model (the
    encoder itself is not part of the sources at hand): the flags byte
    (exported, has-tag, has-package-path), the 16-bit big-endian length of
    the identifier, the identifier, then for a record with a tag the 16-bit
    length of the tag and the tag, then for a record with a package path
    the four bytes of a name offset. *)
Definition encodeName (r : nameRecord) : list byte :=
  nameFlags r :: be16 (Z.of_nat (length (ident r))) ++ ident r
    ++ (if hasTag r then be16 (Z.of_nat (length (tag r))) ++ tag r else [])
    ++ (match pkgRef r with
        | Some (c0, c1, c2, c3) => [c0; c1; c2; c3]
        | None => []
        end).

(** The bytes [bs] are in memory from address [a] on. *)
Definition holds (w : world) (a : Z) (bs : list byte) : Prop :=
  ∀ (i : nat) (b : byte), bs !! i = Some b → mem w !! (a + Z.of_nat i) = Some b.

Fixpoint storeBytes (a : Z) (bs : list byte) (m : gmap Z byte) : gmap Z byte :=
  match bs with
  | [] => m
  | b :: bs' => <[a := b]> (storeBytes (a + 1) bs' m)
  end.

(** * The vocabulary of the statements *)

(** ** Name records in memory *)

(** The bytes a tag takes in a record: its length field and itself. *)
Definition tagSpan (r : nameRecord) : Z :=
  if hasTag r then 2 + Z.of_nat (length (tag r)) else 0.

(** A record is stored at [n]: its bytes are in memory there, below the
    end of the address space, and its two lengths fit in sixteen bits. *)
Definition stored (w : world) (n : Z) (r : nameRecord) : Prop :=
  0 < n
  ∧ n + Z.of_nat (length (encodeName r)) ≤ 2 ^ 64
  ∧ Z.of_nat (length (ident r)) < 2 ^ 16
  ∧ Z.of_nat (length (tag r)) < 2 ^ 16
  ∧ holds w n (encodeName r).

Fixpoint holdsb (m : gmap Z byte) (a : Z) (bs : list byte) : bool :=
  match bs with
  | [] => true
  | b :: bs' => bool_decide (m !! a = Some b) && holdsb m (a + 1) bs'
  end.

Definition dot : byte := "."%byte.

(** ** Ending and budgets of the equality check *)

(** A call ends: it returns or aborts within its budget. *)
Definition ends {A} (m : outcome A) : Prop := m ≠ Timeout.

(** The pairs of descriptors of a world, and how many of them the memo
    has not seen yet. *)
Definition pairs (w : world) : memo := cprod (dom (heap w)) (dom (heap w)).

Definition budget (w : world) (seen : memo) : nat := size (pairs w ∖ seen).

(** The result of a call started with the memo [seen]: it ends, and a
    returned memo holds [seen]. *)
Definition grows (seen : memo) (m : outcome (bool * memo)) : Prop :=
  match m with
  | Ret (_, seen') => seen ⊆ seen'
  | Timeout => False
  | _ => True
  end.

(** A checker is [bounded] by [n] when every call started with fewer
    than [n] unseen pairs ends with a larger memo. *)
Definition bounded (w : world) (n : nat) (rec : checker) : Prop :=
  ∀ t v seen, (budget w seen < n)%nat → grows seen (rec t v seen).

(** The number of pairs of descriptors of a world, plus one: a depth that
    every check started with the empty memo stays within. *)
Definition enough (w : world) : nat := S (budget w ∅).

Arguments enough : simpl never.

(** A deeper budget does not change a call that ended. *)
Definition agrees (rec rec' : checker) : Prop :=
  ∀ t v seen, ends (rec t v seen) → rec' t v seen = rec t v seen.

(** ** States of the de-duplication pass *)

(** Two modules, or two worlds, that differ in override maps only.  The
    pass stores override maps while it compares descriptors, and the
    comparison of interface methods resolves type offsets through them:
    the worlds the pass goes through all have the layout of the first. *)
Definition sameModule (a b : moduledata) : Prop :=
  withTypemap ∅ a = withTypemap ∅ b.

Definition sameLayout (w w2 : world) : Prop :=
  mem w = mem w2 ∧ heap w = heap w2 ∧ reflectOffs_m w = reflectOffs_m w2
  ∧ GOARCH w = GOARCH w2 ∧ BigEndian w = BigEndian w2
  ∧ Forall2 sameModule (modules w) (modules w2).

(** The descriptor that typelink [tl] of module [md] points at. *)
Definition own (md : moduledata) (tl : Z) : Z :=
  wrap64 (types md + uintptr_of_int32 tl).

(** The context address [base] is owned by module [i]: the scan of the
    registry stops there. *)
Definition owns (mds : list moduledata) (i : nat) (base : Z) : Prop :=
  (∃ md, mds !! i = Some md ∧ types md ≤ base < etypes md)
  ∧ ∀ l ml, (l < i)%nat → mds !! l = Some ml →
            ¬ (types ml ≤ base < etypes ml).

(** [c] is the descriptor of a typelink of a module before module [k]. *)
Definition linkedBefore (w : world) (k : nat) (c : Z) : Prop :=
  ∃ l ml o, (l < k)%nat ∧ modules w !! l = Some ml ∧ o ∈ typelinks ml
            ∧ c = own ml o.

(** ** Registries, override maps and text sections *)

(** The world with another registry of run-time objects. *)
Definition withRegistry (m : gmap Z Z) (w : world) : world :=
  {| mem := mem w; heap := heap w; modules := modules w;
     reflectOffs_m := m; GOARCH := GOARCH w; BigEndian := BigEndian w |}.

(** What the override map of [md] holds for [off]; [0] (nil) when there
    is no map or no entry. *)
Definition override (md : moduledata) (off : Z) : Z :=
  match typemap md with
  | Some tm => default 0 (tm !! off)
  | None => 0
  end.

(** The test of the loop of [textOff] on one section. *)
Definition takes (s : textsect) (off : Z) : Prop :=
  vaddr s ≤ off ≤ wrap64 (vaddr s + sect_length s).

(** ** Packed fields, as the data model words them *)

(** The flags word of a map descriptor: one bit per flag, from bit 0 on. *)
Definition packMapFlags (indirectkey indirectvalue reflexivekey needkeyupdate
  hashMightPanic : bool) : Z :=
  Z.b2z indirectkey + 2 * Z.b2z indirectvalue + 4 * Z.b2z reflexivekey
  + 8 * Z.b2z needkeyupdate + 16 * Z.b2z hashMightPanic.

(** The packed offset of a struct field: the offset above the bit that
    marks an embedded field. *)
Definition packOffsetAnon (offset : Z) (anonymous : bool) : Z :=
  2 * offset + Z.b2z anonymous.

(** The cells [lo], [lo + 1], ... of the array of type pointers after a
    function descriptor. *)
Definition cells (arr : list Z) (lo n : nat) : list Z :=
  (λ i, nth i arr 0) <$> seq lo n.

(** ** What the pass leaves in an override map *)

(** The entry [c] that the pass stores for typelink [o] of module [l]:
    the descriptor of the typelink itself, or a descriptor linked by an
    earlier module that stores the same hash and that [typesEqual],
    started with the empty memo in a world of the same layout, reported
    equal to it. *)
Definition entry (fuel : nat) (w : world) (l : nat) (ml : moduledata)
  (o c : Z) : Prop :=
  ∃ d, heap w !! own ml o = Some d
       ∧ (c = own ml o
          ∨ ∃ dc w2 s,
              linkedBefore w l c ∧ heap w !! c = Some dc
              ∧ hash (header (lay dc)) = hash (header (lay d))
              ∧ sameLayout w w2
              ∧ typesEqual fuel w2 (own ml o) c ∅ = Ret (true, s)).

(** The state of the pass over any registry when module [k] is next. *)
Definition filled (fuel : nat) (w : world) (k : nat) (th : buckets)
  (wk : world) : Prop :=
  sameLayout w wk
  ∧ (∀ l, (k ≤ l ∨ l = 0)%nat → modules wk !! l = modules w !! l)
  ∧ (∀ l ml, (1 ≤ l < k)%nat → modules w !! l = Some ml →
       ∃ tm, modules wk !! l = Some (withTypemap tm ml)
             ∧ (∀ o, o ∈ typelinks ml →
                     ∃ c, tm !! o = Some c ∧ entry fuel w l ml o c)
             ∧ (∀ o, o ∉ typelinks ml → tm !! o = None))
  ∧ (∀ h c, c ∈ bucket th h →
       linkedBefore w (k - 1) c
       ∧ ∃ d, heap w !! c = Some d ∧ hash (header (lay d)) = h)
  ∧ ((1 < k)%nat → ∀ m0 tl, modules w !! 0%nat = Some m0 →
       tl ∈ typelinks m0 → is_Some (heap w !! own m0 tl)).

(** ** The equality check with its two arguments exchanged *)

(** The memo with every pair turned around. *)
Definition swap (seen : memo) : memo :=
  set_map (λ p : Z * Z, (p.2, p.1)) seen.

(** Two calls are mirrored: both return, with the same verdict and memos
    that are each other's [swap], or neither returns. *)
Definition mirror (m m' : outcome (bool * memo)) : Prop :=
  match m, m' with
  | Ret (b, s), Ret (b', s') => b' = b ∧ s' = swap s
  | Ret _, _ | _, Ret _ => False
  | _, _ => True
  end.

(** ** What the equality check reads of one descriptor *)

(** The data of a descriptor that [typesEqual] compares with those of
    another: the kind tag, the textual form, the package path of the
    uncommon data, the numbers and the names of the kind, in the order of
    the source. *)
Record skeleton := {
  sk_kind : Z;
  sk_string : list byte;
  sk_unc : option (list byte);
  sk_nums : list Z;
  sk_names : list (list byte)
}.

(** With them, the descriptors that the recursive calls are made on. *)
Record view := { skel : skeleton; children : list Z }.

(** The numbers, the names and the component types of a kind. *)
Definition part : Type := (list Z * list (list byte) * list Z)%type.

Fixpoint fieldsView (w : world) (fs : list structfield) : outcome part :=
  match fs with
  | [] => Ret ([], [], [])
  | f :: fs' =>
      n ← name_name w (sf_name f);
      tg ← name_tag w (sf_name f);
      '(nums, names, cs) ← fieldsView w fs';
      Ret (offsetAnon f :: nums, n :: tg :: names, sf_typ f :: cs)
  end.

Fixpoint methodsView (w : world) (tm : Z) (ms : list imethod) : outcome part :=
  match ms with
  | [] => Ret ([], [], [])
  | m :: ms' =>
      nm ← resolveNameOff w tm (im_name m);
      n ← name_name w nm;
      pk ← name_pkgPath w nm;
      ty ← resolveTypeOff w tm (ityp m);
      '(nums, names, cs) ← methodsView w (add tm 8) ms';
      Ret (nums, n :: pk :: names, ty :: cs)
  end.

Definition kindView (w : world) (k : Z) (d : descriptor) : outcome part :=
  if (kindBool <=? k) && (k <=? kindComplex128) then Ret ([], [], [])
  else if (k =? kindString) || (k =? kindUnsafePointer) then Ret ([], [], [])
  else if k =? kindArray then
    a ← as_array (lay d); Ret ([at_len a], [], [at_elem a])
  else if k =? kindChan then
    c ← as_chan (lay d); Ret ([ct_dir c], [], [ct_elem c])
  else if k =? kindFunc then
    f ← as_func (lay d);
    ins ← functype_in d f;
    outs ← functype_out d f;
    Ret ([outCount f; inCount f], [], ins ++ outs)
  else if k =? kindInterface then
    it ← as_interface (lay d);
    p ← name_name w (it_pkgpath it);
    '(nums, names, cs) ← methodsView w (mhdr_data it) (mhdr it);
    Ret (nums, p :: names, cs)
  else if k =? kindMap then
    m ← as_map (lay d); Ret ([], [], [mt_key m; mt_elem m])
  else if k =? kindPtr then
    p ← as_ptr (lay d); Ret ([], [], [pt_elem p])
  else if k =? kindSlice then
    s ← as_slice (lay d); Ret ([], [], [st_elem s])
  else if k =? kindStruct then
    s ← as_struct (lay d);
    p ← name_name w (sy_pkgPath s);
    '(nums, names, cs) ← fieldsView w (fields s);
    Ret (nums, p :: names, cs)
  else Throw "runtime: impossible type kind".

Definition uncView (w : world) (t : Z) (d : descriptor)
  : outcome (option (list byte)) :=
  match type_uncommon d with
  | None => Ret None
  | Some u =>
      n ← type_nameOff w t (u_pkgpath u);
      p ← name_name w n;
      Ret (Some p)
  end.

Definition viewOf (w : world) (t : Z) : outcome view :=
  d ← deref w t;
  let k := Z.land (kind (header (lay d))) kindMask in
  s ← type_string w t;
  u ← uncView w t d;
  '(nums, names, cs) ← kindView w k d;
  Ret {| skel := {| sk_kind := k; sk_string := s; sk_unc := u;
                    sk_nums := nums; sk_names := names |};
         children := cs |}.

(** ** Structural equality as a relation *)

Definition rc (R : Z → Z → Prop) (x y : Z) : Prop := x = y ∨ R x y.

(** Two descriptors agree up to [R]: they are the same pointer, or the
    check reads the same data of both and their component types are
    pairwise the same pointer or related by [R]. *)
Definition agree (w : world) (R : Z → Z → Prop) (t v : Z) : Prop :=
  t = v
  ∨ ∃ vt vv, viewOf w t = Ret vt ∧ viewOf w v = Ret vv
             ∧ skel vt = skel vv
             ∧ Forall2 (rc R) (children vt) (children vv).

Definition bisimulation (w : world) (R : Z → Z → Prop) : Prop :=
  ∀ t v, R t v → agree w R t v.

(** Structural equality: the largest such relation. *)
Definition similar (w : world) (t v : Z) : Prop :=
  ∃ R, bisimulation w R ∧ R t v.

Definition inS (S : memo) (x y : Z) : Prop := (x, y) ∈ S.

(** The pairs of [X] agree up to the pairs of [S]. *)
Definition closed (w : world) (S X : memo) : Prop :=
  ∀ t v, (t, v) ∈ X → agree w (inS S) t v.

(** A call says yes or runs out of budget: it neither says no nor
    aborts. *)
Definition accepts (m : outcome (bool * memo)) : Prop :=
  match m with
  | Ret (true, _) | Timeout => True
  | _ => False
  end.

(** The composition of two relations, each with the identity added. *)
Definition comp (R1 R2 : Z → Z → Prop) (x z : Z) : Prop :=
  ∃ y, rc R1 x y ∧ rc R2 y z.

(** A checker whose yes can be trusted: the memo it hands back holds the
    memo it was given and the pair of the call, and its new pairs agree
    up to any set that holds them all. *)
Definition sound (w : world) (rec : checker) : Prop :=
  ∀ t v s s', rec t v s = Ret (true, s') →
    s ⊆ s' ∧ (t, v) ∈ s'
    ∧ ∀ S, s' ⊆ S → closed w S s → closed w S s'.

(** [typesEqual] reports two descriptors equal, started with the empty
    memo and some depth budget. *)
Definition equalIn (w : world) (t v : Z) : Prop :=
  ∃ fuel seen, typesEqual fuel w t v ∅ = Ret (true, seen).

(** ** Worlds of the pass *)

(** No module has an override map: the registry before the pass. *)
Definition untouched (w : world) : Prop :=
  Forall (λ md, typemap md = None) (modules w).

(** A world of the pass over [w]: the layout of [w], and override maps
    whose entries stand, each for a typelink within the types of its
    module, for a descriptor structurally equal in [w] to that of the
    typelink. *)
Definition good (w W : world) : Prop :=
  sameLayout w W
  ∧ ∀ md tm o c, md ∈ modules W → typemap md = Some tm →
                 tm !! o = Some c → c ≠ 0 →
                 own md o ≤ etypes md ∧ similar w (own md o) c.

(** Two calls return together, with results related by [P], or neither
    returns. *)
Definition together {A B : Type} (P : A → B → Prop) (m : outcome A)
  (m' : outcome B) : Prop :=
  match m, m' with
  | Ret a, Ret b => P a b
  | Ret _, _ | _, Ret _ => False
  | _, _ => True
  end.

(** The parts of a view in two worlds of the pass: the same numbers and
    names, and component types that are structurally equal. *)
Definition partsAlike (w : world) (p p' : part) : Prop :=
  p.1.1 = p'.1.1 ∧ p.1.2 = p'.1.2 ∧ Forall2 (similar w) p.2 p'.2.

Definition viewsAlike (w : world) (vt vt' : view) : Prop :=
  skel vt = skel vt' ∧ Forall2 (similar w) (children vt) (children vt').

(** A relation of a world of the pass, read in the first world: up to
    structural equality there on both sides. *)
Definition upTo (w : world) (R : Z → Z → Prop) (x y : Z) : Prop :=
  ∃ x' y', similar w x x' ∧ rc R x' y' ∧ similar w y' y.

(** ** The state of the pass over any registry *)

(** The descriptor at [t] stores the hash [h]. *)
Definition hashAt (w : world) (t h : Z) : Prop :=
  ∃ d, heap w !! t = Some d ∧ hash (header (lay d)) = h.

Definition sameHash (w : world) (t c : Z) : Prop :=
  ∃ h, hashAt w t h ∧ hashAt w c h.

(** The descriptors that are structurally equal to [t0] and store the
    hash [h]. *)
Definition inClass (w : world) (t0 h x : Z) : Prop :=
  similar w x t0 ∧ hashAt w x h.

(** The search among the candidates [cands] for a descriptor
    structurally equal to [t]: [found] when [c] is the first of them,
    [pick] when [c] is that one or, for want of any, [t] itself. *)
Definition found (w : world) (cands : list Z) (t c : Z) : Prop :=
  ∃ pre post, cands = pre ++ c :: post ∧ similar w t c
              ∧ ∀ x, x ∈ pre → ¬ similar w t x.

Definition pick (w : world) (cands : list Z) (t c : Z) : Prop :=
  (c = t ∧ ∀ x, x ∈ cands → ¬ similar w t x) ∨ found w cands t c.

(** The entry the pass writes for the typelink [o] of the module [mk],
    the buckets being [th]: what the search among the candidates of the
    hash of its descriptor ends on. *)
Definition entryOK (w : world) (th : buckets) (mk : moduledata) (o c : Z)
  : Prop :=
  ∃ d, heap w !! own mk o = Some d
       ∧ pick w (bucket th (hash (header (lay d)))) (own mk o) c.

(** Module [mm] links one descriptor only of the class of [t0] and
    [h]. *)
Definition sole (w : world) (t0 h : Z) (mm : moduledata) : Prop :=
  ∀ o, o ∈ typelinks mm → inClass w t0 h (own mm o) → own mm o = t0.

(** The state when module [k] is next, for the class of [t0] and [h],
    of which [t0] is linked by module [m] at [om]: the world is a world
    of the pass; the modules from [k] on and the first are untouched;
    every typelink of a module before [k] has its entry, structurally
    equal to its descriptor and of the same hash; the buckets hold
    descriptors under their hashes.  When module [m] is just done, [om]
    stands for what the search for the class ended on, and so does every
    typelink of the class when the module links one descriptor only of
    the class.  Later there is one descriptor [r] of the class, the first
    of the bucket, that every typelink of the class of a module after
    [m] stands for, and of module [m] too when it links one descriptor
    only of the class. *)
Definition deduped (w : world) (t0 h : Z) (m : nat) (mm : moduledata)
  (om : Z) (k : nat) (th : buckets) (Wk : world) : Prop :=
  good w Wk
  ∧ (∀ l, (k ≤ l ∨ l = 0)%nat → modules Wk !! l = modules w !! l)
  ∧ (∀ l md o, (1 ≤ l < k)%nat → modules Wk !! l = Some md →
       o ∈ typelinks md →
       ∃ tm c, typemap md = Some tm ∧ tm !! o = Some c
               ∧ similar w (own md o) c ∧ sameHash w (own md o) c)
  ∧ (∀ h' c, c ∈ bucket th h' → hashAt w c h')
  ∧ (k = S m →
     ∃ c, similar w t0 c ∧ hashAt w c h ∧ pick w (bucket th h) t0 c
          ∧ (∀ md, modules Wk !! m = Some md → linked md om = c)
          ∧ (sole w t0 h mm → ∀ md o, modules Wk !! m = Some md →
               o ∈ typelinks md → inClass w t0 h (own md o) →
               linked md o = c))
  ∧ ((S m < k)%nat →
     ∃ r, similar w t0 r ∧ hashAt w r h ∧ found w (bucket th h) t0 r
          ∧ (∀ l md o, (m < l < k)%nat → modules Wk !! l = Some md →
               o ∈ typelinks md → inClass w t0 h (own md o) →
               linked md o = r)
          ∧ (sole w t0 h mm → ∀ md o, modules Wk !! m = Some md →
               o ∈ typelinks md → inClass w t0 h (own md o) →
               linked md o = r)).

(** * Example worlds *)

(** The world with no module and no run-time object. *)
Definition emptyWorld : world :=
  {| mem := ∅; heap := ∅; modules := []; reflectOffs_m := ∅;
     GOARCH := "amd64"; BigEndian := false |}.

(** ** Two modules with the same self-referential struct

    Each module declares [type S struct { next *S }] of package [main]:
    the struct, whose textual form drops the leading star of its name
    record, and the pointer to it. *)
Module Cyclic.

Definition bytes (s : string) : list byte := String.list_byte_of_string s.

Definition record (s : string) : list byte :=
  encodeName {| exported := false; ident := bytes s; tag := [];
                pkgRef := None |}.

(** The names of one module, from [base + 0x100] on. *)
Definition names (base : Z) (m : gmap Z byte) : gmap Z byte :=
  storeBytes (base + 256) (record "*main.S")
    (storeBytes (base + 288) (record "next")
       (storeBytes (base + 320) (record "main") m)).

Definition mkType (k h flags s : Z) : _type :=
  {| t_size := 8; ptrdata := 8; hash := h; tflag := flags; align := 8;
     fieldalign := 8; kind := k; alg := 0; gcdata := 0; str := s;
     ptrToThis := 0 |}.

Definition noUncommon : uncommontype :=
  {| u_pkgpath := 0; mcount := 0; xcount := 0; moff := 0 |}.

Definition mkDescriptor (l : layout) : descriptor :=
  {| lay := l; unc := noUncommon; inline := [] |}.

(** The struct at [base + 0x10] and the pointer at [base + 0x20]. *)
Definition structS (base : Z) : descriptor :=
  mkDescriptor (Lstruct
    {| sy_typ := mkType kindStruct 7 (Z.lor tflagExtraStar tflagNamed) 256;
       sy_pkgPath := base + 320;
       fields := [ {| sf_name := base + 288; sf_typ := base + 32;
                      offsetAnon := 0 |} ] |}).

Definition ptrS (base : Z) : descriptor :=
  mkDescriptor (Lptr {| pt_typ := mkType kindPtr 9 0 256;
                        pt_elem := base + 16 |}).

Definition module (base : Z) : moduledata :=
  {| text := 0; etext := 0; types := base; etypes := base + 4096;
     textsectmap := []; typelinks := [32]; typemap := None |}.

Definition world2 : world :=
  {| mem := names 4096 (names 12288 ∅);
     heap := <[4112 := structS 4096]> (<[4128 := ptrS 4096]>
              (<[12304 := structS 12288]> (<[12320 := ptrS 12288]> ∅)));
     modules := [module 4096; module 12288];
     reflectOffs_m := ∅;
     GOARCH := "amd64";
     BigEndian := false |}.

End Cyclic.

(** A struct descriptor with uncommon data whose two package paths differ:
    the uncommon data says [example/a], the struct layout [example/b]. *)
Module TwoPaths.

Definition names (m : gmap Z byte) : gmap Z byte :=
  storeBytes 4352 (Cyclic.record "a.T")
    (storeBytes 4384 (Cyclic.record "example/a")
       (storeBytes 4416 (Cyclic.record "example/b") m)).

Definition structT : descriptor :=
  {| lay := Lstruct
       {| sy_typ := Cyclic.mkType kindStruct 11
                      (Z.lor tflagUncommon tflagNamed) 256;
          sy_pkgPath := 4416;
          fields := [] |};
     unc := {| u_pkgpath := 288; mcount := 0; xcount := 0; moff := 0 |};
     inline := [] |}.

Definition world1 : world :=
  {| mem := names ∅;
     heap := {[ 4112 := structT ]};
     modules := [Cyclic.module 4096];
     reflectOffs_m := ∅;
     GOARCH := "amd64";
     BigEndian := false |}.

End TwoPaths.

(** A module whose text is split in two adjacent sections of sixteen bytes,
    relocated to 1000 and to 5000. *)
Module SplitText.

Definition first : textsect :=
  {| vaddr := 0; sect_length := 16; baseaddr := 1000 |}.

Definition second : textsect :=
  {| vaddr := 16; sect_length := 16; baseaddr := 5000 |}.

Definition module : moduledata :=
  {| text := 1000; etext := 9000; types := 4096; etypes := 8192;
     textsectmap := [first; second]; typelinks := []; typemap := None |}.

Definition world1 : world :=
  {| mem := ∅; heap := ∅; modules := [module]; reflectOffs_m := ∅;
     GOARCH := "ppc64"; BigEndian := true |}.

End SplitText.

(** The round trip of the specification: the exported identifier [Count]
    with the tag [json:"count"] and a reference to the name record of
    [example/pkg], 512 bytes into the module. *)
Module RoundTrip.

Definition quote : byte := "034"%byte.

Definition count : nameRecord :=
  {| exported := true;
     ident := Cyclic.bytes "Count";
     tag := Cyclic.bytes "json:" ++ [quote] ++ Cyclic.bytes "count" ++ [quote];
     pkgRef := Some ("000"%byte, "002"%byte, "000"%byte, "000"%byte) |}.

Definition pkg : nameRecord :=
  {| exported := false; ident := Cyclic.bytes "example/pkg"; tag := [];
     pkgRef := None |}.

Definition world1 : world :=
  {| mem := storeBytes 4352 (encodeName count)
              (storeBytes 4608 (encodeName pkg) ∅);
     heap := ∅;
     modules := [Cyclic.module 4096];
     reflectOffs_m := ∅;
     GOARCH := "amd64";
     BigEndian := false |}.

End RoundTrip.

(** ** Two modules whose equal descriptors store different hashes *)
Module Hashes.

Definition names (base : Z) (m : gmap Z byte) : gmap Z byte :=
  storeBytes (base + 256) (Cyclic.record "bool") m.

(** The descriptor of [bool] at [base + 0x10], with [h] as its hash. *)
Definition boolType (h : Z) : descriptor :=
  Cyclic.mkDescriptor (Lbase (Cyclic.mkType kindBool h tflagNamed 256)).

Definition module (base : Z) : moduledata :=
  {| text := 0; etext := 0; types := base; etypes := base + 4096;
     textsectmap := []; typelinks := [16]; typemap := None |}.

Definition world2 : world :=
  {| mem := names 4096 (names 12288 ∅);
     heap := <[4112 := boolType 1]> (<[12304 := boolType 2]> ∅);
     modules := [module 4096; module 12288];
     reflectOffs_m := ∅;
     GOARCH := "amd64";
     BigEndian := false |}.

End Hashes.

(** ** Three modules: [bool] in the first, the cyclic struct in the others *)
Module Three.

Definition world3 : world :=
  {| mem := Hashes.names 4096 (Cyclic.names 12288 (Cyclic.names 20480 ∅));
     heap := <[4112 := Hashes.boolType 1]>
               (<[12304 := Cyclic.structS 12288]>
                  (<[12320 := Cyclic.ptrS 12288]>
                     (<[20496 := Cyclic.structS 20480]>
                        (<[20512 := Cyclic.ptrS 20480]> ∅))));
     modules := [Hashes.module 4096; Cyclic.module 12288; Cyclic.module 20480];
     reflectOffs_m := ∅;
     GOARCH := "amd64";
     BigEndian := false |}.

End Three.

(** ** A module with an override map, and a registry of run-time objects

    The second module sends offset 8192, which is past the end of its
    types, to the pointer descriptor of the first.  The registry holds a
    descriptor at 40000 under the id -1 and a nil entry under -2. *)
Module Overridden.

Definition module2 : moduledata :=
  withTypemap {[ 8192 := 4128 ]} (Cyclic.module 12288).

Definition world2 : world :=
  {| mem := mem Cyclic.world2;
     heap := heap Cyclic.world2;
     modules := [Cyclic.module 4096; module2];
     reflectOffs_m := {[ -1 := 40000; -2 := 0 ]};
     GOARCH := "amd64";
     BigEndian := false |}.

End Overridden.

(** ** Text in one region, and text sections with a gap *)
Module Text.

Definition oneRegion : moduledata :=
  {| text := 1000; etext := 9000; types := 4096; etypes := 8192;
     textsectmap := []; typelinks := []; typemap := None |}.

(** Two sections of sixteen bytes at 0 and at 64. *)
Definition gapped : moduledata :=
  {| text := 1000; etext := 9000; types := 4096; etypes := 8192;
     textsectmap := [ {| vaddr := 0; sect_length := 16; baseaddr := 1000 |};
                      {| vaddr := 64; sect_length := 16; baseaddr := 5000 |} ];
     typelinks := []; typemap := None |}.

Definition world (md : moduledata) (arch : string) : world :=
  {| mem := ∅; heap := ∅; modules := [md]; reflectOffs_m := ∅;
     GOARCH := arch; BigEndian := false |}.

End Text.

(** ** Two descriptors whose kind tag is none of the enumeration *)
Module Untagged.

Definition odd : descriptor :=
  Cyclic.mkDescriptor (Lbase (Cyclic.mkType 0 1 tflagNamed 256)).

Definition world2 : world :=
  {| mem := Hashes.names 4096 (Hashes.names 12288 ∅);
     heap := <[4112 := odd]> (<[12304 := odd]> ∅);
     modules := [Hashes.module 4096; Hashes.module 12288];
     reflectOffs_m := ∅;
     GOARCH := "amd64";
     BigEndian := false |}.

End Untagged.

(** ** Three modules with the same interface, function and boolean

    Each module declares [bool] at [base + 0x10], [func() bool] at
    [base + 0x50] and, at [base + 0x30], an interface with one method
    of that function type, whose method table is at [base + 0x200]. *)
Module Methods.

Definition names (base : Z) (m : gmap Z byte) : gmap Z byte :=
  storeBytes (base + 256) (Cyclic.record "bool")
    (storeBytes (base + 288) (Cyclic.record "Valid")
       (storeBytes (base + 320) (Cyclic.record "main")
          (storeBytes (base + 352) (Cyclic.record "main.Validator")
             (storeBytes (base + 384) (Cyclic.record "func() bool") m)))).

Definition boolType : descriptor :=
  Cyclic.mkDescriptor (Lbase (Cyclic.mkType kindBool 1 tflagNamed 256)).

Definition funcType (base : Z) : descriptor :=
  {| lay := Lfunc {| ft_typ := Cyclic.mkType kindFunc 3 0 384;
                     inCount := 0; outCount := 1 |};
     unc := Cyclic.noUncommon;
     inline := [base + 16] |}.

Definition validator (base : Z) : descriptor :=
  Cyclic.mkDescriptor (Linterface
    {| it_typ := Cyclic.mkType kindInterface 5 tflagNamed 352;
       it_pkgpath := base + 320;
       mhdr_data := base + 512;
       mhdr := [ {| im_name := 288; ityp := 80 |} ] |}).

Definition module (base : Z) : moduledata :=
  {| text := 0; etext := 0; types := base; etypes := base + 4096;
     textsectmap := []; typelinks := [16; 80; 48]; typemap := None |}.

Definition descriptors (base : Z) (m : gmap Z descriptor)
  : gmap Z descriptor :=
  <[base + 16 := boolType]>
    (<[base + 80 := funcType base]> (<[base + 48 := validator base]> m)).

Definition world3 : world :=
  {| mem := names 4096 (names 12288 (names 20480 ∅));
     heap := descriptors 4096 (descriptors 12288 (descriptors 20480 ∅));
     modules := [module 4096; module 12288; module 20480];
     reflectOffs_m := ∅;
     GOARCH := "amd64";
     BigEndian := false |}.

End Methods.

(** ** A module that links the same type twice

    The first module links two descriptors of [bool], at [0x1010] and at
    [0x1030]; the second links one. *)
Module Twins.

Definition first : moduledata :=
  {| text := 0; etext := 0; types := 4096; etypes := 8192;
     textsectmap := []; typelinks := [16; 48]; typemap := None |}.

Definition world2 : world :=
  {| mem := Hashes.names 4096 (Hashes.names 12288 ∅);
     heap := <[4112 := Hashes.boolType 1]>
               (<[4144 := Hashes.boolType 1]>
                  (<[12304 := Hashes.boolType 1]> ∅));
     modules := [first; Hashes.module 12288];
     reflectOffs_m := ∅;
     GOARCH := "amd64";
     BigEndian := false |}.

End Twins.

(** ** A name record cut short

    The flags byte and the length bytes of a record that announces an
    identifier of sixteen bytes; the identifier itself is not mapped. *)
Module Truncated.

Definition world1 : world :=
  {| mem := storeBytes 4352 ["000"%byte; "000"%byte; "016"%byte] ∅;
     heap := ∅;
     modules := [Cyclic.module 4096];
     reflectOffs_m := ∅;
     GOARCH := "amd64";
     BigEndian := false |}.

End Truncated.

(** * Properties *)

(** ** Offset zero and unowned context addresses *)

Lemma findmodule_Some base mds md :
  findmodule base mds = Some md →
  md ∈ mds ∧ types md ≤ base < etypes md.
Proof.
  induction mds as [|m mds IH]; simpl; [done|].
  destruct (types m <=? base) eqn:Hlo, (base <? etypes m) eqn:Hhi; simpl.
  - intros [= ->]. split; [left|lia].
  - intros H. destruct (IH H). split; [by right|done].
  - intros H. destruct (IH H). split; [by right|done].
  - intros H. destruct (IH H). split; [by right|done].
Qed.

Lemma findmodule_None base mds :
  findmodule base mds = None ↔
  ∀ md, md ∈ mds → ¬ (types md ≤ base < etypes md).
Proof.
  induction mds as [|m mds IH]; simpl.
  - split; [|done]. intros _ md Hmd. by apply not_elem_of_nil in Hmd.
  - destruct (types m <=? base) eqn:Hlo, (base <? etypes m) eqn:Hhi; simpl.
    + split; [done|]. intros H. exfalso. apply (H m); [left|lia].
    + rewrite IH. split.
      * intros H md [->|Hmd]%elem_of_cons; [lia|by apply H].
      * intros H md Hmd. apply H. by right.
    + rewrite IH. split.
      * intros H md [->|Hmd]%elem_of_cons; [lia|by apply H].
      * intros H md Hmd. apply H. by right.
    + rewrite IH. split.
      * intros H md [->|Hmd]%elem_of_cons; [lia|by apply H].
      * intros H md Hmd. apply H. by right.
Qed.

(** C9. Whatever the context address, the module registry and the registry
    of run-time objects, resolving offset zero returns at once: the empty
    name (the nil name, whose identifier is the empty string) from
    [resolveNameOff], the nil descriptor from [resolveTypeOff]; neither
    call aborts. *)
Theorem offset_zero_returns (w : world) (ptrInModule : Z) :
  resolveNameOff w ptrInModule 0 = Ret 0
  ∧ name_name w 0 = Ret []
  ∧ resolveTypeOff w ptrInModule 0 = Ret 0
  ∧ ¬ aborts (resolveNameOff w ptrInModule 0)
  ∧ ¬ aborts (resolveTypeOff w ptrInModule 0).
Proof.
  repeat split; try reflexivity; intros [msg Hmsg]; discriminate Hmsg.
Qed.

(** C5, as stated, fails at offset zero: the context address 4096 is owned
    by no module of [emptyWorld] and offset 0 has no registry entry, yet
    both resolvers return. *)
Lemma unowned_offset_zero_returns :
  findmodule 4096 (modules emptyWorld) = None
  ∧ reflectOffs_m emptyWorld !! 0 = None
  ∧ ¬ aborts (resolveNameOff emptyWorld 4096 0)
  ∧ ¬ aborts (resolveTypeOff emptyWorld 4096 0).
Proof.
  repeat split; try reflexivity; intros [msg Hmsg]; discriminate Hmsg.
Qed.

(** C5, amended. For every non-zero offset and every context address that
    lies in no module's type range, if the offset has no entry in the
    registry of run-time objects then [resolveNameOff] and [resolveTypeOff]
    abort through [throw], each with its diagnostic; they return no
    address. *)
Theorem unowned_unregistered_throws (w : world) (ptrInModule off : Z) :
  off ≠ 0 →
  (∀ md, md ∈ modules w → ¬ (types md ≤ ptrInModule < etypes md)) →
  reflectOffs_m w !! off = None →
  resolveNameOff w ptrInModule off
    = Throw "runtime: name offset base pointer out of range"
  ∧ resolveTypeOff w ptrInModule off
    = Throw "runtime: type offset base pointer out of range"
  ∧ ¬ returns (resolveNameOff w ptrInModule off)
  ∧ ¬ returns (resolveTypeOff w ptrInModule off).
Proof.
  intros Hoff Hown%findmodule_None Hreg.
  assert (Hn : resolveNameOff w ptrInModule off
               = Throw "runtime: name offset base pointer out of range").
  { unfold resolveNameOff. apply Z.eqb_neq in Hoff. by rewrite Hoff, Hown, Hreg. }
  assert (Ht : resolveTypeOff w ptrInModule off
               = Throw "runtime: type offset base pointer out of range").
  { unfold resolveTypeOff. apply Z.eqb_neq in Hoff. by rewrite Hoff, Hown, Hreg. }
  rewrite Hn, Ht. repeat split; try reflexivity; intros [a Ha]; discriminate Ha.
Qed.

Lemma unowned_unregistered_throws_witness :
  resolveNameOff Cyclic.world2 64 5
    = Throw "runtime: name offset base pointer out of range"
  ∧ resolveTypeOff Cyclic.world2 64 5
    = Throw "runtime: type offset base pointer out of range"
  ∧ ¬ returns (resolveNameOff Cyclic.world2 64 5)
  ∧ ¬ returns (resolveTypeOff Cyclic.world2 64 5).
Proof.
  apply (unowned_unregistered_throws Cyclic.world2 64 5).
  - lia.
  - intros md Hmd. simpl in Hmd.
    apply elem_of_cons in Hmd as [->|Hmd]; [simpl; lia|].
    apply elem_of_cons in Hmd as [->|Hmd]; [simpl; lia|].
    by apply not_elem_of_nil in Hmd.
  - reflexivity.
Defined.

(** ** The declared name and the textual form *)

Lemma scanDot_spec (s : list byte) (k : nat) :
  (scanDot s k = 0%nat ∧ ∀ i, (i < k)%nat → s !! i ≠ Some dot)
  ∨ (∃ i, scanDot s k = S i ∧ (i < k)%nat ∧ s !! i = Some dot
          ∧ ∀ i', (i < i' < k)%nat → s !! i' ≠ Some dot).
Proof.
  induction k as [|k IH]; simpl.
  - left. split; [done|]. intros i Hi. lia.
  - destruct (s !! k) as [b|] eqn:Hk.
    + case_bool_decide as Hb.
      * right. exists k. subst b. repeat split; [lia|done|]. intros i' Hi'. lia.
      * destruct IH as [[H0 Hno]|(i & Hi & Hlt & Hdot & Hno)].
        -- left. split; [done|]. intros i Hi.
           destruct (decide (i = k)) as [->|Hne]; [|apply Hno; lia].
           rewrite Hk. intros [= ->]. by apply Hb.
        -- right. exists i. repeat split; [done|lia|done|]. intros i' Hi'.
           destruct (decide (i' = k)) as [->|Hne]; [|apply Hno; lia].
           rewrite Hk. intros [= ->]. by apply Hb.
    + destruct IH as [[H0 Hno]|(i & Hi & Hlt & Hdot & Hno)].
      * left. split; [done|]. intros i Hi.
        destruct (decide (i = k)) as [->|Hne]; [by rewrite Hk|apply Hno; lia].
      * right. exists i. repeat split; [done|lia|done|]. intros i' Hi'.
        destruct (decide (i' = k)) as [->|Hne]; [by rewrite Hk|apply Hno; lia].
Qed.

(** What the scan leaves: the whole string when it has no dot, else what
    follows its last dot. *)
Lemma scanDot_suffix (s : list byte) :
  ((dot ∉ s) ∧ drop (scanDot s (length s)) s = s)
  ∨ (∃ pre, s = pre ++ dot :: drop (scanDot s (length s)) s
            ∧ dot ∉ drop (scanDot s (length s)) s).
Proof.
  destruct (scanDot_spec s (length s)) as [[H0 Hno]|(i & Hi & Hlt & Hdot & Hno)].
  - left. rewrite H0. split; [|done].
    intros (i & Hi)%list_elem_of_lookup.
    apply (Hno i); [by eapply lookup_lt_Some|done].
  - right. rewrite Hi. exists (take i s). split.
    + rewrite <- (take_drop_middle s i dot Hdot) at 1. done.
    + intros (j & Hj)%list_elem_of_lookup. rewrite lookup_drop in Hj.
      apply (Hno (S i + j)%nat); [|done].
      apply lookup_lt_Some in Hj. lia.
Qed.

(** C7. For every descriptor, [name] returns the empty string when the
    is-named flag is clear; otherwise, with [s] the textual form, it
    returns the whole of [s] when [s] has no dot and else the suffix of
    [s] after its last dot. *)
Theorem declared_name_after_last_dot (w : world) (t : Z) (d : descriptor) :
  heap w !! t = Some d →
  (Z.land (tflag (header (lay d))) tflagNamed = 0 → type_name w t = Ret [])
  ∧ (Z.land (tflag (header (lay d))) tflagNamed ≠ 0 →
     ∀ s, type_string w t = Ret s →
       ∃ r, type_name w t = Ret r
            ∧ (((dot ∉ s) ∧ r = s) ∨ (∃ pre, s = pre ++ dot :: r ∧ dot ∉ r))).
Proof.
  intros Hd. unfold type_name, deref. rewrite Hd. simpl. split.
  - intros ->. done.
  - intros Hn%Z.eqb_neq s Hs. rewrite Hn, Hs. simpl.
    exists (drop (scanDot s (length s)) s). split; [done|].
    destruct (scanDot_suffix s) as [[Hno Heq]|(pre & Heq & Hno)].
    + left. by split.
    + right. exists pre. by split.
Qed.

(** C10. For every descriptor with the extra-leading-star flag set, the
    textual form is the resolved name without its first byte when that
    name is not empty, and the slice is out of bounds, a run-time panic,
    when the name resolves to the empty string. *)
Theorem textual_form_strips_star (w : world) (t : Z) (d : descriptor)
  (n : Z) (s : list byte) :
  heap w !! t = Some d →
  Z.land (tflag (header (lay d))) tflagExtraStar ≠ 0 →
  type_nameOff w t (str (header (lay d))) = Ret n →
  name_name w n = Ret s →
  (∀ b r, s = b :: r → type_string w t = Ret r)
  ∧ (s = [] → type_string w t = Panic "slice bounds out of range")
  ∧ (returns (type_string w t) ↔ s ≠ []).
Proof.
  intros Hd Hf%Z.eqb_neq Hn Hs. unfold type_string, deref.
  rewrite Hd. simpl. rewrite Hn. simpl. rewrite Hs. simpl. rewrite Hf. simpl.
  repeat split.
  - by intros b r ->.
  - by intros ->.
  - intros [a Ha] ->. discriminate Ha.
  - intros Hne. destruct s as [|b r]; [done|]. by exists r.
Qed.

Lemma declared_name_after_last_dot_witness :
  heap Cyclic.world2 !! 4112 = Some (Cyclic.structS 4096)
  ∧ (Z.land (tflag (header (lay (Cyclic.structS 4096)))) tflagNamed ≠ 0 →
     ∀ s, type_string Cyclic.world2 4112 = Ret s →
       ∃ r, type_name Cyclic.world2 4112 = Ret r
            ∧ (((dot ∉ s) ∧ r = s) ∨ (∃ pre, s = pre ++ dot :: r ∧ dot ∉ r))).
Proof.
  split; [vm_compute; reflexivity|].
  apply (declared_name_after_last_dot Cyclic.world2 4112 (Cyclic.structS 4096)).
  vm_compute; reflexivity.
Defined.

Lemma textual_form_strips_star_witness :
  heap Cyclic.world2 !! 4112 = Some (Cyclic.structS 4096)
  ∧ type_string Cyclic.world2 4112 = Ret (Cyclic.bytes "main.S").
Proof.
  split; [vm_compute; reflexivity|].
  apply (textual_form_strips_star Cyclic.world2 4112 (Cyclic.structS 4096)
           4352 (Cyclic.bytes "*main.S")) with (b := "*"%byte).
  - vm_compute; reflexivity.
  - vm_compute. discriminate.
  - vm_compute; reflexivity.
  - vm_compute; reflexivity.
  - vm_compute; reflexivity.
Defined.

(** The textual forms of the specification's examples. *)
Example declared_name_pkg_Foo :
  drop (scanDot (Cyclic.bytes "pkg.Foo") 7) (Cyclic.bytes "pkg.Foo")
  = Cyclic.bytes "Foo".
Proof. reflexivity. Qed.

Example declared_name_no_dot :
  drop (scanDot (Cyclic.bytes "int") 3) (Cyclic.bytes "int") = Cyclic.bytes "int".
Proof. reflexivity. Qed.

(** ** The package path *)

(** C3, as stated, fails on a struct descriptor that carries uncommon
    data: [pkgpath] returns the path resolved from the uncommon data, not
    the name embedded in the struct layout. *)
Lemma pkgpath_struct_uncommon_differs :
  heap TwoPaths.world1 !! 4112 = Some TwoPaths.structT
  ∧ Z.land (kind (header (lay TwoPaths.structT))) kindMask = kindStruct
  ∧ (∃ st, lay TwoPaths.structT = Lstruct st
           ∧ name_name TwoPaths.world1 (sy_pkgPath st)
             = Ret (Cyclic.bytes "example/b"))
  ∧ type_pkgpath TwoPaths.world1 4112 = Ret (Cyclic.bytes "example/a").
Proof.
  split; [vm_compute; reflexivity|].
  split; [vm_compute; reflexivity|].
  split; [|vm_compute; reflexivity].
  eexists. split; [reflexivity|]. vm_compute; reflexivity.
Qed.

(** C3, amended. For every descriptor, of any kind, that carries uncommon
    data, [pkgpath] resolves the package-path offset of the uncommon data;
    only otherwise, for a struct or an interface, it returns the name
    embedded in the layout of that kind; and it returns the empty string in
    all remaining cases. *)
Theorem pkgpath_uncommon_first (w : world) (t : Z) (d : descriptor) :
  heap w !! t = Some d →
  let k := Z.land (kind (header (lay d))) kindMask in
  let uncommon := Z.land (tflag (header (lay d))) tflagUncommon in
  (uncommon ≠ 0 →
     type_pkgpath w t
     = (n ← type_nameOff w t (u_pkgpath (unc d)); name_name w n))
  ∧ (uncommon = 0 → k = kindStruct →
     ∀ st, lay d = Lstruct st → type_pkgpath w t = name_name w (sy_pkgPath st))
  ∧ (uncommon = 0 → k = kindInterface →
     ∀ it, lay d = Linterface it → type_pkgpath w t = name_name w (it_pkgpath it))
  ∧ (uncommon = 0 → k ≠ kindStruct → k ≠ kindInterface →
     type_pkgpath w t = Ret []).
Proof.
  intros Hd k uncommon. unfold type_pkgpath, deref, type_uncommon.
  rewrite Hd. simpl. fold uncommon. fold k. repeat split.
  - intros Hu%Z.eqb_neq. by rewrite Hu.
  - intros -> -> st ->. done.
  - intros -> -> it ->. done.
  - intros -> Hs%Z.eqb_neq Hi%Z.eqb_neq. by rewrite Hs, Hi.
Qed.

Lemma pkgpath_uncommon_first_witness :
  heap TwoPaths.world1 !! 4112 = Some TwoPaths.structT
  ∧ type_pkgpath TwoPaths.world1 4112
    = (n ← type_nameOff TwoPaths.world1 4112 288; name_name TwoPaths.world1 n).
Proof.
  split; [vm_compute; reflexivity|].
  apply (pkgpath_uncommon_first TwoPaths.world1 4112 TwoPaths.structT).
  - vm_compute; reflexivity.
  - vm_compute. discriminate.
Defined.

(** ** Code addresses *)

(** The section the loop of [textOff] takes is the first one with
    [vaddr ≤ off ≤ vaddr + length], both ends included. *)
Lemma textsectLookup_first (off : Z) (before : list textsect) (s : textsect)
  (rest : list textsect) :
  Forall (λ s', ¬ (vaddr s' ≤ off ≤ wrap64 (vaddr s' + sect_length s'))) before →
  vaddr s ≤ off ≤ wrap64 (vaddr s + sect_length s) →
  textsectLookup off (before ++ s :: rest) = wrap64 (baseaddr s + off - vaddr s).
Proof.
  intros Hbefore Hs. induction Hbefore as [|s' before Hs' _ IH]; simpl.
  - destruct (vaddr s <=? off) eqn:Hlo; [|lia].
    destruct (off <=? wrap64 (vaddr s + sect_length s)) eqn:Hhi; [done|lia].
  - destruct (vaddr s' <=? off) eqn:Hlo; [|done].
    destruct (off <=? wrap64 (vaddr s' + sect_length s')) eqn:Hhi; [lia|done].
Qed.

(** C4. At offset 16, the first byte of the second section and one past
    the end of the first, [textOff] translates through the first section
    and returns 1016; the section whose half-open range holds the offset
    is the second, whose translation is 5000. *)
Theorem textOff_takes_section_end :
  (vaddr SplitText.second ≤ 16
     < vaddr SplitText.second + sect_length SplitText.second)
  ∧ ¬ (vaddr SplitText.first ≤ 16
         < vaddr SplitText.first + sect_length SplitText.first)
  ∧ baseaddr SplitText.second + (16 - vaddr SplitText.second) = 5000
  ∧ type_textOff SplitText.world1 4112 16 = Ret 1016.
Proof.
  split; [vm_compute; split; [discriminate|reflexivity]|].
  split; [vm_compute; intros [_ H]; discriminate H|].
  split; vm_compute; reflexivity.
Qed.

(** ** Function descriptors *)

Lemma slice_array_length (arr : list Z) (lo hi : Z) (l : list Z) :
  slice_array arr lo hi = Ret l → Z.of_nat (length l) = hi - lo.
Proof.
  unfold slice_array.
  destruct ((0 <=? lo) && (lo <=? hi) && (hi <=? 2 ^ 20)) eqn:Hb; [|done].
  intros [= <-]. rewrite length_fmap, length_seq.
  apply andb_prop in Hb as [[_ Hlo]%andb_prop _]. lia.
Qed.

(** While the two counts add up below [2^16], the view of the results has
    the masked count as its length. *)
Lemma functype_out_length (d : descriptor) (t : functype) :
  0 ≤ inCount t →
  inCount t + Z.land (outCount t) (Z.shiftl 1 15 - 1) < 2 ^ 16 →
  ∃ l, functype_out d t = Ret l
       ∧ Z.of_nat (length l) = Z.land (outCount t) (Z.shiftl 1 15 - 1).
Proof.
  intros Hin Hsum. unfold functype_out.
  set (oc := Z.land (outCount t) (Z.shiftl 1 15 - 1)) in *.
  assert (0 ≤ oc) by (apply Z.land_nonneg; right; done).
  unfold wrap16. rewrite Z.mod_small by lia.
  destruct (slice_array (inline d) (inCount t) (inCount t + oc)) as [l| | | |] eqn:Hs.
  - exists l. split; [done|]. apply slice_array_length in Hs. lia.
  - unfold slice_array in Hs. by destruct (_ && _).
  - unfold slice_array in Hs.
    destruct ((0 <=? inCount t) && (inCount t <=? inCount t + oc)
              && (inCount t + oc <=? 2 ^ 20)) eqn:Hb; [done|].
    rewrite !andb_false_iff in Hb. lia.
  - unfold slice_array in Hs. by destruct (_ && _).
  - unfold slice_array in Hs. by destruct (_ && _).
Qed.

Lemma functype_dotdotdot_bit (t : functype) :
  functype_dotdotdot t = Z.testbit (outCount t) 15.
Proof.
  unfold functype_dotdotdot.
  replace (Z.shiftl 1 15) with (2 ^ 15) by reflexivity.
  destruct (Z.testbit (outCount t) 15) eqn:Hb.
  - apply negb_true_iff, Z.eqb_neq. intros H0.
    assert (Hl : Z.testbit (Z.land (outCount t) (2 ^ 15)) 15 = true).
    { rewrite Z.land_spec, Hb, Z.pow2_bits_true; [done|lia]. }
    rewrite H0, Z.bits_0 in Hl. done.
  - apply negb_false_iff, Z.eqb_eq, Z.bits_inj'. intros n Hn.
    rewrite Z.land_spec, Z.bits_0.
    destruct (decide (n = 15)) as [->|Hne]; [by rewrite Hb|].
    rewrite (Z.pow2_bits_false 15 n) by lia. apply andb_false_r.
Qed.

(** Two parameters and one result, variadic: the example of the
    specification. *)
Example variadic_two_in_one_out (d : descriptor) (ty : _type) :
  let t := {| ft_typ := ty; inCount := 2; outCount := Z.lor 1 (Z.shiftl 1 15) |} in
  functype_dotdotdot t = true
  ∧ ∃ l, functype_out d t = Ret l ∧ length l = 1%nat.
Proof.
  split; [reflexivity|]. eexists. split; reflexivity.
Qed.

(** C6. On the function descriptor with 65535 parameters and one result
    the sum of the two counts wraps around in sixteen bits: the slice
    [65535:0] is out of bounds and [out] panics, where the masked output
    count is 1. *)
Theorem functype_out_wraps (d : descriptor) (ty : _type) :
  let t := {| ft_typ := ty; inCount := 65535; outCount := 1 |} in
  Z.land (outCount t) (Z.shiftl 1 15 - 1) = 1
  ∧ functype_out d t = Panic "slice bounds out of range"
  ∧ ¬ (∃ l, functype_out d t = Ret l ∧ Z.of_nat (length l) = 1).
Proof.
  split; [reflexivity|]. split; [reflexivity|].
  intros (l & Hl & _). discriminate Hl.
Qed.

(** ** Decoding a name record *)

Lemma byteZ_range (b : byte) : 0 ≤ byteZ b < 2 ^ 8.
Proof.
  unfold byteZ. pose proof (Byte.to_N_bounded b) as Hb. lia.
Qed.

Lemma byteZ_byte_of_Z (z : Z) : byteZ (byte_of_Z z) = z mod 2 ^ 8.
Proof.
  unfold byteZ, byte_of_Z.
  pose proof (Z.mod_pos_bound z (2 ^ 8) eq_refl) as Hz.
  destruct (Byte.of_N (Z.to_N (z mod 2 ^ 8))) as [b|] eqn:Hb; simpl.
  - apply Byte.to_of_N in Hb. rewrite Hb. lia.
  - apply Byte.of_N_None_iff in Hb. lia.
Qed.

Lemma shifted_lor (a b : Z) :
  0 ≤ a → 0 ≤ b < 2 ^ 8 → Z.lor (Z.shiftl a 8) b = 2 ^ 8 * a + b.
Proof.
  intros Ha Hb. pose proof (Z.add_lor_land (Z.shiftl a 8) b) as Hsum.
  assert (Hland : Z.land (Z.shiftl a 8) b = 0).
  { apply Z.bits_inj'. intros n Hn. rewrite Z.land_spec, Z.bits_0.
    destruct (decide (n < 8)) as [Hlt|Hge].
    - by rewrite Z.shiftl_spec_low by lia.
    - rewrite <- (Z.mod_small b (2 ^ 8)) by lia.
      rewrite Z.mod_pow2_bits_high by lia. apply andb_false_r. }
  rewrite Hland in Hsum. rewrite Z.shiftl_mul_pow2 in * by lia.
  change (2 ^ 8) with 256 in *. lia.
Qed.

Lemma be16_decodes (n : Z) :
  0 ≤ n < 2 ^ 16 →
  Z.lor (wrap16 (Z.shiftl (byteZ (byte_of_Z (n / 2 ^ 8))) 8)) (byteZ (byte_of_Z n))
  = n.
Proof.
  intros Hn. rewrite !byteZ_byte_of_Z.
  assert (Hq : 0 ≤ n / 2 ^ 8 < 2 ^ 8).
  { split; [apply Z.div_pos; lia|apply Z.div_lt_upper_bound; lia]. }
  rewrite (Z.mod_small (n / 2 ^ 8)) by lia.
  pose proof (Z.mod_pos_bound n (2 ^ 8) eq_refl) as Hr.
  unfold wrap16. rewrite (Z.mod_small (Z.shiftl _ 8)).
  - rewrite shifted_lor by lia. symmetry. apply Z.div_mod. lia.
  - rewrite Z.shiftl_mul_pow2 by lia. lia.
Qed.

Lemma holds_cons (w : world) (a : Z) (b : byte) (bs : list byte) :
  holds w a (b :: bs) ↔ mem w !! a = Some b ∧ holds w (a + 1) bs.
Proof.
  unfold holds. split.
  - intros H. split.
    + specialize (H 0%nat b eq_refl). by rewrite Z.add_0_r in H.
    + intros i c Hc. specialize (H (S i) c Hc).
      by replace (a + 1 + Z.of_nat i) with (a + Z.of_nat (S i)) by lia.
  - intros [H0 H] [|i] c Hc; simpl in Hc.
    + injection Hc as <-. by rewrite Z.add_0_r.
    + specialize (H i c Hc).
      by replace (a + Z.of_nat (S i)) with (a + 1 + Z.of_nat i) by lia.
Qed.

Lemma holds_app (w : world) (a : Z) (xs ys : list byte) :
  holds w a (xs ++ ys)
  ↔ holds w a xs ∧ holds w (a + Z.of_nat (length xs)) ys.
Proof.
  revert a. induction xs as [|x xs IH]; intros a; simpl.
  - rewrite Z.add_0_r. split; [|by intros [_ H]].
    intros H. split; [|done]. intros i b Hb. done.
  - rewrite !holds_cons, IH.
    replace (a + 1 + Z.of_nat (length xs)) with (a + Z.pos (Pos.of_succ_nat (length xs)))
      by lia.
    tauto.
Qed.

Lemma add_small (a k : Z) : 0 ≤ a + k < 2 ^ 64 → add a k = a + k.
Proof. intros H. unfold add, wrap64. by apply Z.mod_small. Qed.

Lemma load_holds (w : world) (a : Z) (b : byte) (bs : list byte) :
  holds w a (b :: bs) → load w a = Ret b.
Proof. intros [H _]%holds_cons. unfold load. by rewrite H. Qed.

Lemma loadN_holds (w : world) (bs : list byte) (a : Z) :
  holds w a bs → 0 ≤ a → a + Z.of_nat (length bs) ≤ 2 ^ 64 →
  loadN w a (length bs) = Ret bs.
Proof.
  revert a. induction bs as [|b bs IH]; intros a Hh Ha Hend; simpl; [done|].
  simpl in Hend. rewrite (load_holds _ _ _ _ Hh). simpl.
  apply holds_cons in Hh as [_ Hh].
  destruct bs as [|b' bs']; [done|].
  rewrite add_small by (simpl in Hend; lia).
  rewrite IH; [done|done|lia|simpl in *; lia].
Qed.

Lemma nameFlags_bits (r : nameRecord) :
  (Z.land (byteZ (nameFlags r)) (Z.shiftl 1 0) =? 0) = negb (exported r)
  ∧ (Z.land (byteZ (nameFlags r)) (Z.shiftl 1 1) =? 0) = negb (hasTag r)
  ∧ (Z.land (byteZ (nameFlags r)) (Z.shiftl 1 2) =? 0)
    = match pkgRef r with Some _ => false | None => true end.
Proof.
  unfold nameFlags.
  destruct (exported r), (hasTag r), (pkgRef r); repeat split; reflexivity.
Qed.

Lemma load_name_data (w : world) (n k : Z) (b : byte) :
  0 ≤ n + k < 2 ^ 64 → mem w !! (n + k) = Some b →
  load w (name_data n k) = Ret b.
Proof.
  intros Hr Hb. unfold name_data, load. rewrite add_small by done. by rewrite Hb.
Qed.

Section stored_record.
Variable w : world.
Variable n : Z.
Variable r : nameRecord.
Hypothesis Hstored : stored w n r.

Let nl : Z := Z.of_nat (length (ident r)).
Let tl : Z := Z.of_nat (length (tag r)).

Lemma stored_header :
  mem w !! n = Some (nameFlags r)
  ∧ mem w !! (n + 1) = Some (byte_of_Z (nl / 2 ^ 8))
  ∧ mem w !! (n + 2) = Some (byte_of_Z nl)
  ∧ holds w (n + 3) (ident r)
  ∧ n + 3 + nl ≤ 2 ^ 64.
Proof.
  destruct Hstored as (Hn & Hend & Hnl & Htl & Hh).
  unfold encodeName, be16 in Hh, Hend. simpl in Hh, Hend.
  apply holds_cons in Hh as [H0 Hh].
  apply holds_cons in Hh as [H1 Hh].
  apply holds_cons in Hh as [H2 Hh].
  apply holds_app in Hh as [Hid _].
  rewrite length_app in Hend.
  replace (n + 1 + 1) with (n + 2) in H2 by lia.
  replace (n + 1 + 1 + 1) with (n + 3) in Hid by lia.
  repeat split; try done. unfold nl. lia.
Qed.

Lemma stored_tag :
  hasTag r = true →
  mem w !! (n + 3 + nl) = Some (byte_of_Z (tl / 2 ^ 8))
  ∧ mem w !! (n + 3 + nl + 1) = Some (byte_of_Z tl)
  ∧ holds w (n + 3 + nl + 2) (tag r)
  ∧ n + 3 + nl + 2 + tl ≤ 2 ^ 64.
Proof.
  intros Htag. destruct Hstored as (Hn & Hend & Hnl & Htl & Hh).
  unfold encodeName, be16 in Hh, Hend. rewrite Htag in Hh, Hend.
  simpl in Hh, Hend.
  apply holds_cons in Hh as [_ Hh].
  apply holds_cons in Hh as [_ Hh].
  apply holds_cons in Hh as [_ Hh].
  apply holds_app in Hh as [_ Hh].
  apply holds_cons in Hh as [H0 Hh].
  apply holds_cons in Hh as [H1 Hh].
  apply holds_app in Hh as [Htg _].
  rewrite !length_app in Hend. simpl in Hend. rewrite length_app in Hend.
  replace (n + 1 + 1 + 1 + Z.of_nat (length (ident r))) with (n + 3 + nl)
    in * by (unfold nl; lia).
  replace (n + 3 + nl + 1 + 1) with (n + 3 + nl + 2) in Htg by lia.
  repeat split; try done. unfold nl, tl in *. lia.
Qed.

Lemma stored_pkgRef (c0 c1 c2 c3 : byte) :
  pkgRef r = Some (c0, c1, c2, c3) →
  mem w !! (n + 3 + nl + tagSpan r) = Some c0
  ∧ mem w !! (n + 3 + nl + tagSpan r + 1) = Some c1
  ∧ mem w !! (n + 3 + nl + tagSpan r + 2) = Some c2
  ∧ mem w !! (n + 3 + nl + tagSpan r + 3) = Some c3
  ∧ n + 3 + nl + tagSpan r + 4 ≤ 2 ^ 64.
Proof.
  intros Hpkg. destruct Hstored as (Hn & Hend & Hnl & Htl & Hh).
  unfold encodeName, be16 in Hh, Hend. rewrite Hpkg in Hh, Hend.
  simpl in Hh, Hend.
  apply holds_cons in Hh as [_ Hh].
  apply holds_cons in Hh as [_ Hh].
  apply holds_cons in Hh as [_ Hh].
  apply holds_app in Hh as [_ Hh].
  apply holds_app in Hh as [_ Hh].
  apply holds_cons in Hh as [H0 Hh].
  apply holds_cons in Hh as [H1 Hh].
  apply holds_cons in Hh as [H2 Hh].
  apply holds_cons in Hh as [H3 _].
  rewrite !length_app in Hend. simpl in Hend.
  assert (Hlen : Z.of_nat (length (if hasTag r
                   then byte_of_Z (Z.of_nat (length (tag r)) / 2 ^ 8)
                        :: byte_of_Z (Z.of_nat (length (tag r))) :: tag r
                   else [])) = tagSpan r).
  { unfold tagSpan. destruct (hasTag r); simpl; lia. }
  simpl in Hlen. rewrite Hlen in *.
  replace (n + 1 + 1 + 1 + Z.of_nat (length (ident r)) + tagSpan r)
    with (n + 3 + nl + tagSpan r) in * by (unfold nl; lia).
  replace (n + 3 + nl + tagSpan r + 1 + 1) with (n + 3 + nl + tagSpan r + 2)
    in * by lia.
  replace (n + 3 + nl + tagSpan r + 2 + 1) with (n + 3 + nl + tagSpan r + 3)
    in * by lia.
  repeat split; try done. unfold nl in *. lia.
Qed.

Lemma stored_ranges : 0 < n ∧ 0 ≤ nl < 2 ^ 16 ∧ 0 ≤ tl < 2 ^ 16.
Proof.
  destruct Hstored as (Hn & Hend & Hnl & Htl & Hh). unfold nl, tl. lia.
Qed.

Lemma hasTag_positive : hasTag r = (0 <? Z.of_nat (length (tag r))).
Proof. unfold hasTag. by destruct (tag r). Qed.

Lemma stored_flags : load w (name_data n 0) = Ret (nameFlags r).
Proof.
  destruct stored_header as (H0 & _ & _ & _ & Hend).
  destruct stored_ranges as (Hn & Hnl & _).
  apply load_name_data; [lia|]. by rewrite Z.add_0_r.
Qed.

Lemma stored_isExported : name_isExported w n = Ret (exported r).
Proof.
  destruct stored_header as (H0 & _). unfold name_isExported, load.
  rewrite H0. simpl. destruct (nameFlags_bits r) as (-> & _).
  by rewrite negb_involutive.
Qed.

Lemma stored_nameLen : name_nameLen w n = Ret nl.
Proof.
  destruct stored_header as (H0 & H1 & H2 & Hid & Hend).
  destruct stored_ranges as (Hn & Hnl & _).
  unfold name_nameLen.
  rewrite (load_name_data w n 1 _ ltac:(lia) H1). simpl.
  rewrite (load_name_data w n 2 _ ltac:(lia) H2). simpl.
  by rewrite be16_decodes.
Qed.

Lemma stored_name : name_name w n = Ret (ident r).
Proof.
  destruct stored_header as (H0 & H1 & H2 & Hid & Hend).
  destruct stored_ranges as (Hn & Hnl & _).
  unfold name_name. destruct (n =? 0) eqn:Hn0; [lia|].
  rewrite stored_nameLen. simpl.
  destruct (nl =? 0) eqn:Hnl0.
  - apply Z.eqb_eq in Hnl0. unfold nl in Hnl0.
    destruct (ident r); [done|simpl in Hnl0; lia].
  - unfold name_data. rewrite add_small by lia. unfold nl.
    rewrite Nat2Z.id. apply loadN_holds; [done|lia|fold nl; lia].
Qed.

Lemma stored_tagLen : name_tagLen w n = Ret tl.
Proof.
  destruct stored_header as (H0 & _ & _ & _ & Hend).
  destruct stored_ranges as (Hn & Hnl & Htl).
  unfold name_tagLen. rewrite stored_flags. simpl.
  destruct (nameFlags_bits r) as (_ & -> & _).
  destruct (hasTag r) eqn:Htag; simpl.
  - destruct (stored_tag Htag) as (Ht0 & Ht1 & Htg & Htend).
    rewrite stored_nameLen. simpl.
    rewrite (load_name_data w n (3 + nl) (byte_of_Z (tl / 2 ^ 8)));
      [|lia|by replace (n + (3 + nl)) with (n + 3 + nl) by lia].
    simpl.
    rewrite (load_name_data w n (3 + nl + 1) (byte_of_Z tl));
      [|lia|by replace (n + (3 + nl + 1)) with (n + 3 + nl + 1) by lia].
    simpl. by rewrite be16_decodes.
  - unfold hasTag in Htag. unfold tl. by destruct (tag r).
Qed.

Lemma stored_tag_bytes : name_tag w n = Ret (tag r).
Proof.
  destruct stored_header as (H0 & _ & _ & _ & Hend).
  destruct stored_ranges as (Hn & Hnl & Htl).
  unfold name_tag. rewrite stored_tagLen. simpl.
  destruct (tl =? 0) eqn:Htl0.
  - apply Z.eqb_eq in Htl0. unfold tl in Htl0.
    destruct (tag r); [done|simpl in Htl0; lia].
  - assert (Htag : hasTag r = true).
    { unfold hasTag. unfold tl in Htl0. by destruct (tag r). }
    destruct (stored_tag Htag) as (Ht0 & Ht1 & Htg & Htend).
    rewrite stored_nameLen. simpl. unfold name_data.
    rewrite add_small by lia.
    replace (n + (3 + nl + 2)) with (n + 3 + nl + 2) by lia.
    unfold tl. rewrite Nat2Z.id. apply loadN_holds; [done|lia|fold tl; lia].
Qed.

Lemma stored_pkgPath :
  name_pkgPath w n
  = match pkgRef r with
    | None => Ret []
    | Some (c0, c1, c2, c3) =>
        p ← resolveNameOff w n (int32_of_bytes (BigEndian w) c0 c1 c2 c3);
        name_name w p
    end.
Proof.
  destruct stored_header as (H0 & _ & _ & _ & Hend).
  destruct stored_ranges as (Hn & Hnl & Htl).
  unfold name_pkgPath. destruct (n =? 0) eqn:Hn0; [lia|].
  rewrite stored_flags. simpl.
  destruct (nameFlags_bits r) as (_ & _ & ->).
  destruct (pkgRef r) as [[[[c0 c1] c2] c3]|] eqn:Hpkg; [|done].
  destruct (stored_pkgRef c0 c1 c2 c3 Hpkg) as (Hc0 & Hc1 & Hc2 & Hc3 & Hpend).
  rewrite stored_nameLen, stored_tagLen. simpl.
  assert (Hoff : (if 0 <? tl then 3 + nl + (2 + tl) else 3 + nl)
                 = 3 + nl + tagSpan r).
  { unfold tagSpan. rewrite hasTag_positive. fold tl. destruct (0 <? tl); lia. }
  rewrite Hoff.
  assert (0 ≤ tagSpan r) by (unfold tagSpan; destruct (hasTag r); lia).
  unfold name_data. rewrite (add_small n) by lia.
  replace (n + (3 + nl + tagSpan r)) with (n + 3 + nl + tagSpan r) by lia.
  rewrite !add_small by lia. unfold load.
  rewrite Hc0. simpl. rewrite Hc1. simpl. rewrite Hc2. simpl.
  rewrite Hc3. simpl. done.
Qed.
End stored_record.

(** C8. For every name record stored in memory: the identifier length is
    read from the two bytes after the flags byte, big-endian, and the
    identifier from offset 3 on; the tag length and the tag are read after
    the identifier, and the has-tag bit of the flags says whether they are
    there; and for a record with the has-package-path bit, the four bytes
    after the identifier and after the tag, if any, are a name offset that
    [resolveNameOff] resolves, relative to the record, to another name
    record, whose identifier is returned as the package path. *)
Theorem name_record_decodes (w : world) (n : Z) (r : nameRecord) :
  stored w n r →
  load w (name_data n 0) = Ret (nameFlags r)
  ∧ Z.testbit (byteZ (nameFlags r)) 1 = hasTag r
  ∧ Z.testbit (byteZ (nameFlags r)) 2 = bool_decide (is_Some (pkgRef r))
  ∧ name_nameLen w n = Ret (Z.of_nat (length (ident r)))
  ∧ name_name w n = Ret (ident r)
  ∧ name_tagLen w n = Ret (Z.of_nat (length (tag r)))
  ∧ name_tag w n = Ret (tag r)
  ∧ match pkgRef r with
    | None => name_pkgPath w n = Ret []
    | Some (c0, c1, c2, c3) =>
        let off := int32_of_bytes (BigEndian w) c0 c1 c2 c3 in
        name_pkgPath w n = (p ← resolveNameOff w n off; name_name w p)
        ∧ ∀ p r', resolveNameOff w n off = Ret p → stored w p r' →
                  name_pkgPath w n = Ret (ident r')
    end.
Proof.
  intros Hst.
  split; [by apply stored_flags|].
  split; [unfold nameFlags; by destruct (exported r), (hasTag r), (pkgRef r)|].
  split; [unfold nameFlags; by destruct (exported r), (hasTag r), (pkgRef r)|].
  split; [by apply stored_nameLen|].
  split; [by apply stored_name|].
  split; [by apply stored_tagLen|].
  split; [by apply stored_tag_bytes|].
  pose proof (stored_pkgPath w n r Hst) as Hpk.
  destruct (pkgRef r) as [[[[c0 c1] c2] c3]|]; [|done].
  split; [done|]. intros p r' Hp Hst'. rewrite Hpk, Hp. simpl.
  by apply stored_name.
Qed.

Lemma holdsb_holds (w : world) (bs : list byte) (a : Z) :
  holdsb (mem w) a bs = true → holds w a bs.
Proof.
  revert a. induction bs as [|b bs IH]; intros a; simpl.
  - intros _ i c Hc. done.
  - intros [Hb Hbs]%andb_prop. apply holds_cons. split.
    + by apply bool_decide_eq_true in Hb.
    + by apply IH.
Qed.

Lemma roundtrip_count_stored :
  stored RoundTrip.world1 4352 RoundTrip.count.
Proof.
  split; [lia|]. split; [vm_compute; discriminate|].
  split; [vm_compute; reflexivity|]. split; [vm_compute; reflexivity|].
  apply holdsb_holds. vm_compute; reflexivity.
Qed.

Lemma roundtrip_pkg_stored :
  stored RoundTrip.world1 4608 RoundTrip.pkg.
Proof.
  split; [lia|]. split; [vm_compute; discriminate|].
  split; [vm_compute; reflexivity|]. split; [vm_compute; reflexivity|].
  apply holdsb_holds. vm_compute; reflexivity.
Qed.

Lemma name_record_decodes_witness :
  name_name RoundTrip.world1 4352 = Ret (Cyclic.bytes "Count")
  ∧ name_tag RoundTrip.world1 4352 = Ret (tag RoundTrip.count)
  ∧ name_pkgPath RoundTrip.world1 4352 = Ret (Cyclic.bytes "example/pkg").
Proof.
  pose proof (name_record_decodes RoundTrip.world1 4352 RoundTrip.count
                roundtrip_count_stored)
    as (_ & _ & _ & _ & Hname & _ & Htag & _ & Hpkg).
  split; [exact Hname|]. split; [exact Htag|].
  apply (Hpkg 4608 RoundTrip.pkg); [vm_compute; reflexivity|].
  exact roundtrip_pkg_stored.
Defined.

(** ** Termination of the equality check *)

Lemma ends_bind {A B} (m : outcome A) (k : A → outcome B) :
  ends m → (∀ a, ends (k a)) → ends (m ≫= k).
Proof. intros Hm Hk. destruct m; simpl; done || apply Hk. Qed.

Create HintDb ends discriminated.

Ltac ends_step :=
  match goal with
  | |- ends (_ ≫= _) => apply ends_bind; [|intros ?]
  | |- ends (if ?c then _ else _) => destruct c
  | |- ends (match ?x with _ => _ end) => destruct x
  | |- ends (Ret _) => discriminate
  | |- ends (Throw _) => discriminate
  | |- ends (Panic _) => discriminate
  | |- ends Fault => discriminate
  | |- ends _ => solve [auto with ends]
  end.

Ltac solve_ends := repeat ends_step.

Lemma ends_deref w t : ends (deref w t).
Proof. unfold deref. solve_ends. Qed.

Lemma ends_load w a : ends (load w a).
Proof. unfold load. solve_ends. Qed.

#[global] Hint Resolve ends_deref ends_load : ends.

Lemma ends_loadN w n a : ends (loadN w a n).
Proof. revert a. induction n as [|n IH]; intros a; simpl; solve_ends. Qed.

#[global] Hint Resolve ends_loadN : ends.

Lemma ends_nameLen w n : ends (name_nameLen w n).
Proof. unfold name_nameLen. solve_ends. Qed.

#[global] Hint Resolve ends_nameLen : ends.

Lemma ends_tagLen w n : ends (name_tagLen w n).
Proof. unfold name_tagLen. solve_ends. Qed.

Lemma ends_name w n : ends (name_name w n).
Proof. unfold name_name. solve_ends. Qed.

#[global] Hint Resolve ends_tagLen ends_name : ends.

Lemma ends_tag w n : ends (name_tag w n).
Proof. unfold name_tag. solve_ends. Qed.

Lemma ends_resolveNameOff w p off : ends (resolveNameOff w p off).
Proof. unfold resolveNameOff. solve_ends. Qed.

Lemma ends_resolveTypeOff w p off : ends (resolveTypeOff w p off).
Proof. unfold resolveTypeOff. solve_ends. Qed.

#[global] Hint Resolve ends_tag ends_resolveNameOff ends_resolveTypeOff : ends.

Lemma ends_pkgPath w n : ends (name_pkgPath w n).
Proof. unfold name_pkgPath. solve_ends. Qed.

Lemma ends_string w t : ends (type_string w t).
Proof. unfold type_string, type_nameOff, slice_from1. solve_ends. Qed.

Lemma ends_eqUncommon w t v dt dv : ends (eqUncommon w t v dt dv).
Proof. unfold eqUncommon, type_nameOff. solve_ends. Qed.

Lemma ends_slice_array arr lo hi : ends (slice_array arr lo hi).
Proof. unfold slice_array. solve_ends. Qed.

#[global] Hint Resolve ends_pkgPath ends_string ends_eqUncommon
  ends_slice_array : ends.

Lemma ends_cast l :
  ends (as_struct l) ∧ ends (as_interface l) ∧ ends (as_array l)
  ∧ ends (as_chan l) ∧ ends (as_func l) ∧ ends (as_map l)
  ∧ ends (as_ptr l) ∧ ends (as_slice l).
Proof. unfold ends. split_and!; destruct l; discriminate. Qed.

Lemma budget_mono (w : world) (seen seen' : memo) :
  seen ⊆ seen' → (budget w seen' ≤ budget w seen)%nat.
Proof.
  intros Hsub. apply subseteq_size.
  intros p [Hp Hnot]%elem_of_difference. apply elem_of_difference.
  split; [done|]. intros Hs. by apply Hnot, Hsub.
Qed.

Lemma budget_insert (w : world) (seen : memo) (t v : Z) :
  is_Some (heap w !! t) → is_Some (heap w !! v) → (t, v) ∉ seen →
  (budget w ({[(t, v)]} ∪ seen) < budget w seen)%nat.
Proof.
  intros Ht%elem_of_dom Hv%elem_of_dom Hnew. apply subset_size.
  assert (Hin : (t, v) ∈ pairs w) by (apply elem_of_gset_cprod; done).
  split.
  - intros p [Hp Hnot]%elem_of_difference. apply elem_of_difference.
    split; [done|]. intros Hs. apply Hnot. by apply elem_of_union_r.
  - intros Hsub.
    assert (Hmem : (t, v) ∈ pairs w ∖ seen) by (by apply elem_of_difference).
    apply Hsub, elem_of_difference in Hmem as [_ Hnot].
    apply Hnot, elem_of_union_l. by apply elem_of_singleton.
Qed.

Lemma grows_ret (seen seen' : memo) (b : bool) :
  seen ⊆ seen' → grows seen (Ret (b, seen')).
Proof. done. Qed.

Lemma grows_weaken (seen0 seen : memo) (m : outcome (bool * memo)) :
  seen0 ⊆ seen → grows seen m → grows seen0 m.
Proof. intros Hsub. destruct m as [[b s]| | | |]; simpl; set_solver. Qed.

Lemma grows_pure {A : Type} (seen : memo) (m : outcome A)
  (k : A → outcome (bool * memo)) :
  ends m → (∀ a, grows seen (k a)) → grows seen (m ≫= k).
Proof. intros Hm Hk. destruct m; simpl; done || apply Hk. Qed.

Lemma grows_bind (seen : memo) (m : outcome (bool * memo))
  (k : bool * memo → outcome (bool * memo)) :
  grows seen m →
  (∀ b seen', seen ⊆ seen' → grows seen' (k (b, seen'))) →
  grows seen (m ≫= k).
Proof.
  intros Hm Hk. destruct m as [[b s]| | | |]; simpl in *; try done.
  eapply grows_weaken; [exact Hm|]. by apply Hk.
Qed.

Ltac grows_done := solve [simpl; done | simpl; set_solver].

Ltac grows_pure_step :=
  match goal with
  | |- grows _ (Ret (_, _)) => grows_done
  | |- grows _ (if ?c then _ else _) => destruct c
  | |- grows _ (_ ≫= _) =>
      apply grows_pure; [solve [auto with ends | apply ends_cast]|intros ?]
  end.

Section bounded_loops.
Variable w : world.
Variable n : nat.
Variable rec : checker.
Hypothesis Hrec : bounded w n rec.

Lemma bounded_call (t v : Z) (seen0 seen : memo) :
  seen0 ⊆ seen → (budget w seen0 < n)%nat → grows seen (rec t v seen).
Proof.
  intros Hsub Hlt. apply Hrec.
  pose proof (budget_mono w seen0 seen Hsub). lia.
Qed.

Lemma bounded_eqTypes (tin vin : list Z) (seen : memo) :
  (budget w seen < n)%nat → grows seen (eqTypes rec tin vin seen).
Proof.
  revert vin seen. induction tin as [|t tin IH]; intros vin seen Hlt; simpl.
  - grows_done.
  - destruct vin as [|v vin]; [done|].
    apply grows_bind; [by apply Hrec|]. intros b seen' Hsub.
    destruct b; simpl; [|grows_done].
    apply IH. pose proof (budget_mono w seen seen' Hsub). lia.
Qed.

Lemma bounded_eqFields (tfs vfs : list structfield) (seen : memo) :
  (budget w seen < n)%nat → grows seen (eqFields w rec tfs vfs seen).
Proof.
  revert vfs seen. induction tfs as [|tf tfs IH]; intros vfs seen Hlt; simpl.
  - grows_done.
  - destruct vfs as [|vf vfs]; [done|].
    repeat grows_pure_step.
    apply grows_bind; [by apply Hrec|]. intros b seen' Hsub.
    destruct b; simpl; [|grows_done].
    repeat grows_pure_step.
    apply IH. pose proof (budget_mono w seen seen' Hsub). lia.
Qed.

Lemma bounded_eqMethods (tms vms : list imethod) (tm vm : Z) (seen : memo) :
  (budget w seen < n)%nat → grows seen (eqMethods w rec tm vm tms vms seen).
Proof.
  revert vms tm vm seen.
  induction tms as [|mt tms IH]; intros vms tm vm seen Hlt; simpl.
  - grows_done.
  - destruct vms as [|mv vms]; [done|].
    repeat grows_pure_step.
    apply grows_bind; [by apply Hrec|]. intros b seen' Hsub.
    destruct b; simpl; [|grows_done].
    apply IH. pose proof (budget_mono w seen seen' Hsub). lia.
Qed.

Lemma bounded_eqKind (k : Z) (dt dv : descriptor) (seen : memo) :
  (budget w seen < n)%nat → grows seen (eqKind w rec k dt dv seen).
Proof.
  intros Hlt. unfold eqKind, functype_in, functype_out.
  destruct ((k =? kindString) || (k =? kindUnsafePointer));
    [grows_done|].
  destruct (k =? kindArray).
  { repeat grows_pure_step. apply grows_bind; [by apply Hrec|].
    intros b seen' Hsub. grows_done. }
  destruct (k =? kindChan).
  { repeat grows_pure_step. by apply Hrec. }
  destruct (k =? kindFunc).
  { repeat grows_pure_step.
    apply grows_bind; [by apply bounded_eqTypes|]. intros b seen' Hsub.
    destruct b; simpl; [|grows_done].
    repeat grows_pure_step. apply bounded_eqTypes.
    pose proof (budget_mono w seen seen' Hsub). lia. }
  destruct (k =? kindInterface).
  { repeat grows_pure_step. by apply bounded_eqMethods. }
  destruct (k =? kindMap).
  { repeat grows_pure_step. apply grows_bind; [by apply Hrec|].
    intros b seen' Hsub. destruct b; simpl; [|grows_done].
    apply Hrec. pose proof (budget_mono w seen seen' Hsub). lia. }
  destruct (k =? kindPtr).
  { repeat grows_pure_step. by apply Hrec. }
  destruct (k =? kindSlice).
  { repeat grows_pure_step. by apply Hrec. }
  destruct (k =? kindStruct); [|done].
  repeat grows_pure_step. by apply bounded_eqFields.
Qed.
End bounded_loops.

Lemma deref_Ret (w : world) (t : Z) (d : descriptor) :
  deref w t = Ret d → heap w !! t = Some d.
Proof. unfold deref. destruct (heap w !! t); [by intros [= ->]|done]. Qed.

(** The depth budget bounds the number of unseen pairs: the pair of a call
    that goes on to recurse was unseen, is a pair of descriptors of the
    world, and is in the memo before the recursion starts. *)
Lemma typesEqual_bounded (w : world) (n : nat) : bounded w n (typesEqual n w).
Proof.
  induction n as [|n IH]; intros t v seen Hlt; [lia|].
  simpl. unfold typesEqualBody.
  case_bool_decide as Hseen; [grows_done|].
  destruct (t =? v); [grows_done|].
  pose proof (ends_deref w t) as Et.
  destruct (deref w t) as [dt| | | |] eqn:Ht; simpl; try done.
  pose proof (ends_deref w v) as Ev.
  destruct (deref w v) as [dv| | | |] eqn:Hv; simpl; try done.
  apply deref_Ret in Ht, Hv.
  assert (Hless : (budget w ({[(t, v)]} ∪ seen) < n)%nat).
  { pose proof (budget_insert w seen t v) as Hins.
    rewrite Ht, Hv in Hins. specialize (Hins ltac:(done) ltac:(done) Hseen).
    lia. }
  apply (grows_weaken seen ({[(t, v)]} ∪ seen)); [set_solver|].
  repeat grows_pure_step.
  by apply (bounded_eqKind w n).
Qed.

Lemma agree_bind {A B : Type} (m m' : outcome A) (k k' : A → outcome B) :
  (ends m → m' = m) →
  (∀ a, ends (k a) → k' a = k a) →
  ends (m ≫= k) → m' ≫= k' = m ≫= k.
Proof.
  intros Hm Hk Hends.
  destruct m as [a| | | |]; simpl in *;
    try (rewrite Hm by discriminate; done).
  - rewrite Hm by discriminate. simpl. by apply Hk.
  - by destruct Hends.
Qed.

Ltac agree_step :=
  match goal with
  | |- ends (if ?c then _ else _) → _ => destruct c
  | |- ends (_ ≫= _) → _ =>
      apply agree_bind; [by intros _|intros ?]
  | |- ends (Ret _) → _ => by intros _
  | |- ends (Throw _) → _ => by intros _
  | |- ends (Panic _) → _ => by intros _
  end.

Section agreeing_loops.
Variable w : world.
Variables rec rec' : checker.
Hypothesis Hrec : agrees rec rec'.

Lemma agrees_eqTypes (tin vin : list Z) (seen : memo) :
  ends (eqTypes rec tin vin seen) →
  eqTypes rec' tin vin seen = eqTypes rec tin vin seen.
Proof.
  revert vin seen. induction tin as [|t tin IH]; intros vin seen; simpl.
  - done.
  - destruct vin as [|v vin]; [done|].
    apply agree_bind; [by apply Hrec|]. intros [b seen']. simpl.
    destruct b; simpl; [apply IH|done].
Qed.

Lemma agrees_eqFields (tfs vfs : list structfield) (seen : memo) :
  ends (eqFields w rec tfs vfs seen) →
  eqFields w rec' tfs vfs seen = eqFields w rec tfs vfs seen.
Proof.
  revert vfs seen. induction tfs as [|tf tfs IH]; intros vfs seen; simpl.
  - done.
  - destruct vfs as [|vf vfs]; [done|].
    repeat agree_step.
    apply agree_bind; [by apply Hrec|]. intros [b seen']. simpl.
    destruct b; simpl; [|done]. repeat agree_step. apply IH.
Qed.

Lemma agrees_eqMethods (tms vms : list imethod) (tm vm : Z) (seen : memo) :
  ends (eqMethods w rec tm vm tms vms seen) →
  eqMethods w rec' tm vm tms vms seen = eqMethods w rec tm vm tms vms seen.
Proof.
  revert vms tm vm seen.
  induction tms as [|mt tms IH]; intros vms tm vm seen; simpl.
  - done.
  - destruct vms as [|mv vms]; [done|].
    repeat agree_step.
    apply agree_bind; [by apply Hrec|]. intros [b seen']. simpl.
    destruct b; simpl; [apply IH|done].
Qed.

Lemma agrees_eqKind (k : Z) (dt dv : descriptor) (seen : memo) :
  ends (eqKind w rec k dt dv seen) →
  eqKind w rec' k dt dv seen = eqKind w rec k dt dv seen.
Proof.
  unfold eqKind.
  destruct ((k =? kindString) || (k =? kindUnsafePointer)); [done|].
  destruct (k =? kindArray).
  { repeat agree_step. apply agree_bind; [by apply Hrec|]. by intros [b s]. }
  destruct (k =? kindChan).
  { repeat agree_step. by apply Hrec. }
  destruct (k =? kindFunc).
  { repeat agree_step.
    apply agree_bind; [by apply agrees_eqTypes|]. intros [b seen']. simpl.
    destruct b; simpl; [|done]. repeat agree_step. by apply agrees_eqTypes. }
  destruct (k =? kindInterface).
  { repeat agree_step. by apply agrees_eqMethods. }
  destruct (k =? kindMap).
  { repeat agree_step. apply agree_bind; [by apply Hrec|]. intros [b seen'].
    simpl. destruct b; simpl; [by apply Hrec|done]. }
  destruct (k =? kindPtr).
  { repeat agree_step. by apply Hrec. }
  destruct (k =? kindSlice).
  { repeat agree_step. by apply Hrec. }
  destruct (k =? kindStruct); [|done].
  repeat agree_step. by apply agrees_eqFields.
Qed.
End agreeing_loops.

Lemma typesEqual_step (w : world) (n : nat) :
  agrees (typesEqual n w) (typesEqual (S n) w).
Proof.
  induction n as [|n IH]; intros t v seen; [by intros []|].
  change (ends (typesEqualBody w (typesEqual n w) t v seen) →
          typesEqualBody w (typesEqual (S n) w) t v seen
          = typesEqualBody w (typesEqual n w) t v seen).
  unfold typesEqualBody. repeat agree_step. by apply agrees_eqKind.
Qed.

Lemma typesEqual_stable (w : world) (n n' : nat) (t v : Z) (seen : memo) :
  (n ≤ n')%nat → ends (typesEqual n w t v seen) →
  typesEqual n' w t v seen = typesEqual n w t v seen.
Proof.
  intros Hle Hends. induction Hle as [|n' Hle IH]; [done|].
  rewrite <- IH. apply typesEqual_step. by rewrite IH.
Qed.

(** Within the depth [enough w] a check started with the empty memo ends,
    and any deeper budget gives the same outcome. *)
Lemma typesEqual_enough (w : world) (t v : Z) (fuel : nat) :
  (enough w ≤ fuel)%nat →
  ends (typesEqual fuel w t v ∅)
  ∧ typesEqual fuel w t v ∅ = typesEqual (enough w) w t v ∅.
Proof.
  intros Hfuel.
  assert (Hends : ends (typesEqual (enough w) w t v ∅)).
  { pose proof (typesEqual_bounded w (enough w) t v ∅) as Hb.
    unfold ends. destruct (typesEqual (enough w) w t v ∅); try done.
    intros _. apply Hb. unfold enough. lia. }
  pose proof (typesEqual_stable w (enough w) fuel t v ∅ Hfuel Hends) as Hst.
  split; [by rewrite Hst|done].
Qed.

(** C2. For every pair of descriptors of every world, [typesEqual] started
    with the empty memo ends within the depth [enough w], one more than the
    number of pairs of descriptors, and a deeper budget gives the same
    result: a call that recurses has put a new pair in the memo first.
    The two structs [S] of [Cyclic.world2], built apart, each with a field
    that points back to the struct through its pointer type, are reported
    equal. *)
Theorem typesEqual_terminates :
  (∀ (w : world) (t v : Z) (fuel : nat),
     (enough w ≤ fuel)%nat →
     ends (typesEqual fuel w t v ∅)
     ∧ typesEqual fuel w t v ∅ = typesEqual (enough w) w t v ∅)
  ∧ (heap Cyclic.world2 !! 4112 = Some (Cyclic.structS 4096)
     ∧ heap Cyclic.world2 !! 4128 = Some (Cyclic.ptrS 4096)
     ∧ heap Cyclic.world2 !! 12304 = Some (Cyclic.structS 12288)
     ∧ heap Cyclic.world2 !! 12320 = Some (Cyclic.ptrS 12288)
     ∧ ∃ seen, typesEqual (enough Cyclic.world2) Cyclic.world2 4112 12304 ∅
               = Ret (true, seen)).
Proof.
  split.
  - intros w t v fuel Hfuel. by apply typesEqual_enough.
  - split; [vm_compute; reflexivity|]. split; [vm_compute; reflexivity|].
    split; [vm_compute; reflexivity|]. split; [vm_compute; reflexivity|].
    eexists. vm_compute. reflexivity.
Qed.

Lemma typesEqual_terminates_witness :
  (enough Cyclic.world2 ≤ 20)%nat
  ∧ ends (typesEqual 20 Cyclic.world2 4112 12304 ∅)
  ∧ typesEqual 20 Cyclic.world2 4112 12304 ∅
    = typesEqual (enough Cyclic.world2) Cyclic.world2 4112 12304 ∅.
Proof.
  assert (Hfuel : (enough Cyclic.world2 ≤ 20)%nat) by (vm_compute; lia).
  split; [exact Hfuel|].
  exact (proj1 typesEqual_terminates Cyclic.world2 4112 12304 20%nat Hfuel).
Defined.

(** Pointer-identical descriptors are equal, whatever is at the address. *)
Lemma typesEqual_same (w : world) (t : Z) (fuel : nat) :
  ∃ seen, typesEqual (S fuel) w t t ∅ = Ret (true, seen).
Proof.
  simpl. unfold typesEqualBody.
  case_bool_decide as Hin; [set_solver|]. rewrite Z.eqb_refl. by eexists.
Qed.

(** ** The de-duplication pass: what the override maps hold *)

Lemma sameModule_refl (a : moduledata) : sameModule a a.
Proof. done. Qed.

Lemma sameModule_withTypemap (tm : gmap Z Z) (a : moduledata) :
  sameModule a (withTypemap tm a).
Proof. done. Qed.

Lemma sameModule_fields (a b : moduledata) :
  sameModule a b →
  types a = types b ∧ etypes a = etypes b ∧ typelinks a = typelinks b.
Proof.
  intros H. split_and!.
  - by apply (f_equal types) in H.
  - by apply (f_equal etypes) in H.
  - by apply (f_equal typelinks) in H.
Qed.

Lemma sameLayout_refl (w : world) : sameLayout w w.
Proof.
  repeat split. apply Forall2_same_length_lookup. split; [done|].
  intros i x y Hx Hy. rewrite Hx in Hy. by injection Hy as ->.
Qed.

Lemma sameLayout_trans (w1 w2 w3 : world) :
  sameLayout w1 w2 → sameLayout w2 w3 → sameLayout w1 w3.
Proof.
  intros (Hm & Hh & Hr & Hg & Hb & Hf) (Hm' & Hh' & Hr' & Hg' & Hb' & Hf').
  repeat split; try congruence.
  apply Forall2_same_length_lookup in Hf as [Hlen Hf].
  apply Forall2_same_length_lookup in Hf' as [Hlen' Hf'].
  apply Forall2_same_length_lookup. split; [congruence|].
  intros i x z Hx Hz.
  destruct (lookup_lt_is_Some_2 (modules w2) i) as [y Hy].
  { rewrite <- Hlen. by eapply lookup_lt_Some. }
  unfold sameModule in *. rewrite (Hf i x y Hx Hy). by apply (Hf' i y z).
Qed.

Lemma sameLayout_store (w : world) (i : nat) (md md' : moduledata) :
  modules w !! i = Some md → sameModule md md' →
  sameLayout w (storeModule w i md').
Proof.
  intros Hi Hsame. repeat split. simpl.
  apply Forall2_same_length_lookup. split; [by rewrite length_insert|].
  intros l x y Hx Hy. destruct (decide (l = i)) as [->|Hne].
  - rewrite list_lookup_insert_eq in Hy by (by eapply lookup_lt_Some).
    injection Hy as <-. rewrite Hi in Hx. by injection Hx as <-.
  - rewrite list_lookup_insert_ne in Hy by done.
    rewrite Hx in Hy. by injection Hy as ->.
Qed.

Lemma findmodule_owns (mds : list moduledata) (i : nat) (base : Z) :
  owns mds i base → findmodule base mds = mds !! i.
Proof.
  revert i. induction mds as [|md mds IH]; intros i [(m & Hm & Hin) Hbefore].
  - done.
  - simpl. destruct i as [|i].
    + simpl in Hm. injection Hm as ->.
      destruct (types m <=? base) eqn:Hlo; [|lia].
      destruct (base <? etypes m) eqn:Hhi; [done|lia].
    + assert (Hout : ¬ (types md ≤ base < etypes md)).
      { apply (Hbefore 0%nat); [lia|done]. }
      destruct (types md <=? base) eqn:Hlo, (base <? etypes md) eqn:Hhi;
        simpl; try lia; apply IH; (split; [by exists m|]);
        intros l ml Hl Hml; apply (Hbefore (S l)); (lia || done).
Qed.

Lemma owns_sameLayout (mds mds' : list moduledata) (i : nat) (base : Z) :
  Forall2 sameModule mds mds' → owns mds i base → owns mds' i base.
Proof.
  intros [Hlen Hf]%Forall2_same_length_lookup [(m & Hm & Hin) Hbefore].
  split.
  - destruct (lookup_lt_is_Some_2 mds' i) as [m' Hm'].
    { rewrite <- Hlen. by eapply lookup_lt_Some. }
    exists m'. split; [done|].
    destruct (sameModule_fields m m' (Hf i m m' Hm Hm')) as (<- & <- & _).
    done.
  - intros l ml' Hl Hml'.
    destruct (lookup_lt_is_Some_2 mds l) as [ml Hml].
    { rewrite Hlen. by eapply lookup_lt_Some. }
    destruct (sameModule_fields ml ml' (Hf l ml ml' Hml Hml')) as (<- & <- & _).
    by apply (Hbefore l).
Qed.

Lemma bucket_insert (th : buckets) (h h' : Z) (l : list Z) :
  bucket (<[h := l]> th) h' = if decide (h = h') then l else bucket th h'.
Proof.
  unfold bucket. destruct (decide (h = h')) as [->|Hne].
  - by rewrite lookup_insert_eq.
  - by rewrite lookup_insert_ne.
Qed.

(** What [collect] leaves in the buckets: what was there, and the
    descriptor of every typelink of [prev], each under its own hash. *)
Lemma collect_spec (w : world) (prev : moduledata) (tls : list Z)
  (th th' : buckets) :
  collect w prev tls th = Ret th' →
  (∀ h c, c ∈ bucket th h → c ∈ bucket th' h)
  ∧ (∀ h c, c ∈ bucket th' h →
            c ∈ bucket th h ∨ ∃ tl, tl ∈ tls ∧ c = linked prev tl)
  ∧ (∀ tl, tl ∈ tls →
           ∃ d, heap w !! linked prev tl = Some d
                ∧ linked prev tl ∈ bucket th' (hash (header (lay d)))).
Proof.
  revert th. induction tls as [|tl tls IH]; intros th; simpl.
  - intros [= <-]. split_and!; [done|by left|].
    intros tl Htl. by apply not_elem_of_nil in Htl.
  - destruct (deref w (linked prev tl)) as [d| | | |] eqn:Hd; simpl; try done.
    apply deref_Ret in Hd. set (h0 := hash (header (lay d))).
    case_bool_decide as Hin.
    + intros Hc. destruct (IH th Hc) as (Hkeep & Hnew & Hall).
      split_and!; [done| |].
      * intros h c Hc'. destruct (Hnew h c Hc') as [?|(tl' & Htl' & ->)];
          [by left|]. right. exists tl'. split; [by right|done].
      * intros tl' [->|Htl']%elem_of_cons; [|by apply Hall].
        exists d. split; [done|]. by apply Hkeep.
    + intros Hc. destruct (IH _ Hc) as (Hkeep & Hnew & Hall).
      assert (Hstep : ∀ h c, c ∈ bucket th h →
                c ∈ bucket (<[h0 := bucket th h0 ++ [linked prev tl]]> th) h).
      { intros h c Hc'. rewrite bucket_insert.
        destruct (decide (h0 = h)) as [<-|Hne]; [|done].
        apply elem_of_app. by left. }
      split_and!.
      * intros h c Hc'. by apply Hkeep, Hstep.
      * intros h c Hc'. destruct (Hnew h c Hc') as [Hold|(tl' & Htl' & ->)].
        -- rewrite bucket_insert in Hold.
           destruct (decide (h0 = h)) as [<-|Hne]; [|by left].
           apply elem_of_app in Hold as [Hold|Hold%list_elem_of_singleton];
             [by left|].
           right. exists tl. split; [by left|done].
        -- right. exists tl'. split; [by right|done].
      * intros tl' [->|Htl']%elem_of_cons; [|by apply Hall].
        exists d. split; [done|]. apply Hkeep. rewrite bucket_insert.
        rewrite decide_True by done. apply elem_of_app. right.
        by apply list_elem_of_singleton.
Qed.

(** What [firstEqual] returns: a candidate the check says equal to [t],
    or [t] itself when the check says no to every candidate. *)
Lemma firstEqual_spec (fuel : nat) (w : world) (t : Z) (cands : list Z) (c : Z) :
  firstEqual fuel w t cands = Ret c →
  (c = t ∧ ∀ x, x ∈ cands → ∃ s, typesEqual fuel w t x ∅ = Ret (false, s))
  ∨ (c ∈ cands ∧ ∃ s, typesEqual fuel w t c ∅ = Ret (true, s)).
Proof.
  induction cands as [|x cands IH]; simpl.
  - intros [= <-]. left. split; [done|]. intros x Hx.
    by apply not_elem_of_nil in Hx.
  - destruct (typesEqual fuel w t x ∅) as [[b s]| | | |] eqn:Hx; simpl;
      try done.
    destruct b.
    + intros [= <-]. right. split; [by left|by exists s].
    + intros Hc. destruct (IH Hc) as [[-> Hall]|[Hin Htrue]].
      * left. split; [done|]. intros y [->|Hy]%elem_of_cons;
          [by exists s|by apply Hall].
      * right. split; [by right|done].
Qed.

Lemma storeModule_twice (w : world) (i : nat) (a b : moduledata) :
  storeModule (storeModule w i a) i b = storeModule w i b.
Proof. unfold storeModule. simpl. by rewrite list_insert_insert_eq. Qed.

Lemma storeModule_same (w : world) (i : nat) (a : moduledata) :
  modules w !! i = Some a → storeModule w i a = w.
Proof.
  intros Hi. unfold storeModule. rewrite list_insert_id by done. by destruct w.
Qed.

(** What [fillTypemap] leaves in the override map of module [i]: the
    entries of the other offsets as they were, and for every typelink the
    result of the search among the candidates of its hash, run in a world
    of the same layout. *)
Lemma fillTypemap_spec (fuel : nat) (th : buckets) (i : nat) (md : moduledata)
  (tls : list Z) (tm : gmap Z Z) (w w1 : world) :
  modules w !! i = Some (withTypemap tm md) →
  fillTypemap fuel th i md tls tm w = Ret w1 →
  ∃ tm', w1 = storeModule w i (withTypemap tm' md)
    ∧ (∀ o, o ∉ tls → tm' !! o = tm !! o)
    ∧ (∀ o, o ∈ tls →
         ∃ c d w2, tm' !! o = Some c
           ∧ heap w !! own md o = Some d
           ∧ sameLayout w w2
           ∧ firstEqual fuel w2 (own md o)
               (bucket th (hash (header (lay d)))) = Ret c).
Proof.
  revert tm w. induction tls as [|tl tls IH]; intros tm w Hi; simpl.
  - intros [= <-]. exists tm. split_and!.
    + symmetry. by apply storeModule_same.
    + done.
    + intros o Ho. by apply not_elem_of_nil in Ho.
  - fold (own md tl).
    destruct (deref w (own md tl)) as [d| | | |] eqn:Hd; simpl; try done.
    apply deref_Ret in Hd.
    destruct (firstEqual fuel w (own md tl) (bucket th (hash (header (lay d)))))
      as [t'| | | |] eqn:Hfirst; simpl; try done.
    intros Hfill.
    set (tm1 := <[tl := t']> tm) in *.
    set (wk := storeModule w i (withTypemap tm1 md)) in *.
    assert (Hlen : (i < length (modules w))%nat) by (by eapply lookup_lt_Some).
    assert (Hwk : modules wk !! i = Some (withTypemap tm1 md)).
    { unfold wk. simpl. by apply list_lookup_insert_eq. }
    assert (Hsame : sameLayout w wk).
    { by apply (sameLayout_store w i (withTypemap tm md)). }
    destruct (IH tm1 wk Hwk Hfill) as (tm' & -> & Hother & Hlinks).
    exists tm'. split_and!.
    + unfold wk. by rewrite storeModule_twice.
    + intros o Ho. rewrite Hother by (intros Hin; apply Ho; by right).
      unfold tm1. apply lookup_insert_ne. intros ->. apply Ho. by left.
    + intros o Ho. destruct (decide (o ∈ tls)) as [Hin|Hnin].
      * destruct (Hlinks o Hin) as (c & d' & w2 & Hc & Hd' & Hw2 & Hf).
        exists c, d', w2. split_and!; [done|done| |done].
        by apply (sameLayout_trans w wk w2).
      * apply elem_of_cons in Ho as [->|Ho]; [|done].
        exists t', d, w. split_and!; [|done|apply sameLayout_refl|done].
        rewrite (Hother tl Hnin). unfold tm1. by apply lookup_insert_eq.
Qed.

Lemma linkedBefore_mono (w : world) (k k' : nat) (c : Z) :
  (k ≤ k')%nat → linkedBefore w k c → linkedBefore w k' c.
Proof.
  intros Hle (l & ml & o & Hl & Hml & Ho & ->).
  exists l, ml, o. split_and!; (lia || done).
Qed.

(** [resolveTypeOff] on an offset that the override map of the owning
    module sends to a descriptor. *)
Lemma resolveTypeOff_override (w : world) (base off : Z) (i : nat)
  (md : moduledata) (tm : gmap Z Z) (c : Z) :
  off ≠ 0 → owns (modules w) i base →
  modules w !! i = Some md → typemap md = Some tm → tm !! off = Some c →
  c ≠ 0 → resolveTypeOff w base off = Ret c.
Proof.
  intros Hoff%Z.eqb_neq Howns Hmd Htm Hc Hnil%Z.eqb_neq.
  unfold resolveTypeOff.
  rewrite Hoff, (findmodule_owns _ _ _ Howns), Hmd, Htm, Hc. simpl.
  by rewrite Hnil.
Qed.

(** [resolveTypeOff] in a module without override map. *)
Lemma resolveTypeOff_plain (w : world) (base off : Z) (i : nat)
  (md : moduledata) :
  off ≠ 0 → owns (modules w) i base →
  modules w !! i = Some md → typemap md = None →
  own md off ≤ etypes md → resolveTypeOff w base off = Ret (own md off).
Proof.
  intros Hoff%Z.eqb_neq Howns Hmd Htm Hin.
  unfold resolveTypeOff.
  rewrite Hoff, (findmodule_owns _ _ _ Howns), Hmd, Htm. simpl.
  fold (own md off). destruct (etypes md <? own md off) eqn:Hlt; [lia|done].
Qed.

(** C1, as stated, fails on [Hashes.world2]: the descriptors at typelink 16
    of the two modules are structurally equal, in either order, before and
    after the pass, but they store different hashes; the pass looks for
    candidates under the hash only, and afterwards each module's offset
    still resolves to the module's own descriptor. *)
Lemma dedup_misses_other_hash :
  length (modules Hashes.world2) = 2%nat
  ∧ own (Hashes.module 4096) 16 = 4112
  ∧ own (Hashes.module 12288) 16 = 12304
  ∧ (∃ seen, typesEqual 1 Hashes.world2 12304 4112 ∅ = Ret (true, seen))
  ∧ (∃ seen, typesEqual 1 Hashes.world2 4112 12304 ∅ = Ret (true, seen))
  ∧ ∃ w', typelinksinit 1 Hashes.world2 = Ret w'
          ∧ (∃ seen, typesEqual 1 w' 12304 4112 ∅ = Ret (true, seen))
          ∧ resolveTypeOff w' 4112 16 = Ret 4112
          ∧ resolveTypeOff w' 12304 16 = Ret 12304.
Proof.
  split; [reflexivity|]. split; [reflexivity|]. split; [reflexivity|].
  split; [eexists; vm_compute; reflexivity|].
  split; [eexists; vm_compute; reflexivity|].
  eexists. split; [vm_compute; reflexivity|].
  split; [eexists; vm_compute; reflexivity|].
  split; vm_compute; reflexivity.
Qed.

(** ** The pass ends *)

Lemma enough_heap (w w2 : world) : heap w = heap w2 → enough w2 = enough w.
Proof. intros Hh. unfold enough, budget, pairs. by rewrite Hh. Qed.

Lemma ends_collect (w : world) (prev : moduledata) (tls : list Z) (th : buckets) :
  ends (collect w prev tls th).
Proof.
  revert th. induction tls as [|tl tls IH]; intros th; simpl; [done|].
  apply ends_bind; [apply ends_deref|]. intros d. by case_bool_decide.
Qed.

Lemma firstEqual_enough (w : world) (t : Z) (cands : list Z) (fuel : nat) :
  (enough w ≤ fuel)%nat →
  ends (firstEqual fuel w t cands)
  ∧ firstEqual fuel w t cands = firstEqual (enough w) w t cands.
Proof.
  intros Hfuel. induction cands as [|c cands [IHe IH]]; [done|].
  cbn [firstEqual].
  destruct (typesEqual_enough w t c fuel Hfuel) as [He Heq].
  rewrite Heq in He |- *.
  destruct (typesEqual (enough w) w t c ∅) as [[b s]| | | |]; simpl; try done;
    try (by destruct He).
  destruct b; [done|by split].
Qed.

Lemma fillTypemap_enough (th : buckets) (i : nat) (md : moduledata)
  (tls : list Z) (tm : gmap Z Z) (w : world) (fuel : nat) :
  (enough w ≤ fuel)%nat →
  ends (fillTypemap fuel th i md tls tm w)
  ∧ fillTypemap fuel th i md tls tm w
    = fillTypemap (enough w) th i md tls tm w.
Proof.
  revert tm w. induction tls as [|tl tls IH]; intros tm w Hfuel; [done|].
  cbn [fillTypemap].
  pose proof (ends_deref w (wrap64 (types md + uintptr_of_int32 tl))) as Hd.
  destruct (deref w _) as [d| | | |]; simpl; try done; try (by destruct Hd).
  destruct (firstEqual_enough w (wrap64 (types md + uintptr_of_int32 tl))
              (bucket th (hash (header (lay d)))) fuel Hfuel) as [He Heq].
  rewrite Heq in He |- *.
  destruct (firstEqual (enough w) w _ _) as [t'| | | |]; simpl; try done;
    try (by destruct He).
  destruct (IH (<[tl:=t']> tm) (storeModule w i (withTypemap (<[tl:=t']> tm) md)))
    as [IHe IHeq]; [exact Hfuel|].
  split; [exact IHe|exact IHeq].
Qed.

Lemma fillTypemap_heap (fuel : nat) (th : buckets) (i : nat) (md : moduledata)
  (tls : list Z) (tm : gmap Z Z) (w w1 : world) :
  fillTypemap fuel th i md tls tm w = Ret w1 → heap w1 = heap w.
Proof.
  revert tm w. induction tls as [|tl tls IH]; intros tm w; simpl.
  - by intros [= <-].
  - destruct (deref w _) as [d| | | |]; simpl; try done.
    destruct (firstEqual fuel w _ _) as [t'| | | |]; simpl; try done.
    intros Hfill. by rewrite (IH _ _ Hfill).
Qed.

Lemma dedupLoop_enough (n i : nat) (th : buckets) (w : world) (fuel : nat) :
  (enough w ≤ fuel)%nat →
  ends (dedupLoop fuel n i th w)
  ∧ dedupLoop fuel n i th w = dedupLoop (enough w) n i th w.
Proof.
  revert i th w. induction n as [|n IH]; intros i th w Hfuel; [done|].
  cbn [dedupLoop].
  destruct (activeModules w !! (i - 1)%nat) as [prev|]; [|done].
  destruct (activeModules w !! i) as [md|]; [|done].
  pose proof (ends_collect w prev (typelinks prev) th) as Hc.
  destruct (collect w prev (typelinks prev) th) as [th1| | | |]; simpl;
    try done.
  destruct (typemap md) as [tm|].
  - simpl. by apply IH.
  - destruct (fillTypemap_enough th1 i md (typelinks md) ∅
                (storeModule w i (withTypemap ∅ md)) fuel Hfuel) as [He Heq].
    change (enough (storeModule w i (withTypemap ∅ md))) with (enough w) in Heq.
    rewrite Heq in He |- *.
    destruct (fillTypemap (enough w) th1 i md (typelinks md) ∅
                (storeModule w i (withTypemap ∅ md))) as [w1| | | |] eqn:Hfill;
      simpl; try done.
    apply fillTypemap_heap in Hfill. simpl in Hfill.
    rewrite (enough_heap w1 w Hfill) in Hfuel |- *.
    by apply IH.
Qed.

(** With the depth [enough w], one more than the number of pairs of
    descriptors, the pass ends, and any deeper budget gives the same
    outcome. *)
Lemma typelinksinit_enough (w : world) (fuel : nat) :
  (enough w ≤ fuel)%nat →
  ends (typelinksinit fuel w)
  ∧ typelinksinit fuel w = typelinksinit (enough w) w.
Proof.
  intros Hfuel. unfold typelinksinit.
  destruct (modules w) as [|a [|b rest]]; [done|done|].
  by apply dedupLoop_enough.
Qed.

(** ** Worlds in which the check does not depend on the override maps *)

Lemma bind_ext {A B : Type} (m m' : outcome A) (k k' : A → outcome B) :
  m' = m → (∀ a, k' a = k a) → m' ≫= k' = m ≫= k.
Proof. intros -> Hk. destruct m; simpl; [apply Hk|done..]. Qed.

Create HintDb layout discriminated.

Ltac same_step :=
  match goal with
  | |- (_ ≫= _) = (_ ≫= _) => apply bind_ext; [solve [auto with layout]|intros ?]
  | |- (if ?c then _ else _) = (if ?c then _ else _) => destruct c
  | |- (let '(_, _) := ?p in _) = _ => destruct p
  | |- ?x = ?x => reflexivity
  | |- _ = _ => solve [auto with layout]
  end.

Section same_layout.
Variables w w2 : world.
Hypothesis Hsame : sameLayout w w2.

Lemma same_load a : load w2 a = load w a.
Proof. unfold load. by destruct Hsame as (-> & _). Qed.

Lemma same_deref t : deref w2 t = deref w t.
Proof. unfold deref. by destruct Hsame as (_ & -> & _). Qed.

Hint Resolve same_load same_deref : layout.

Lemma same_loadN n a : loadN w2 a n = loadN w a n.
Proof. revert a. induction n as [|n IH]; intros a; simpl; repeat same_step. Qed.

Hint Resolve same_loadN : layout.

Lemma same_nameLen n : name_nameLen w2 n = name_nameLen w n.
Proof. unfold name_nameLen. repeat same_step. Qed.

Hint Resolve same_nameLen : layout.

Lemma same_tagLen n : name_tagLen w2 n = name_tagLen w n.
Proof. unfold name_tagLen. repeat same_step. Qed.

Lemma same_name n : name_name w2 n = name_name w n.
Proof. unfold name_name. repeat same_step. Qed.

Hint Resolve same_tagLen same_name : layout.

Lemma same_tag n : name_tag w2 n = name_tag w n.
Proof. unfold name_tag. repeat same_step. Qed.

Lemma same_findmodule base (mds mds' : list moduledata) :
  Forall2 sameModule mds mds' →
  option_Forall2 sameModule (findmodule base mds) (findmodule base mds').
Proof.
  induction 1 as [|a b mds mds' Hab _ IH]; simpl; [constructor|].
  destruct (sameModule_fields a b Hab) as (<- & <- & _).
  destruct ((types a <=? base) && (base <? etypes a)); [by constructor|done].
Qed.

Lemma same_resolveNameOff p off : resolveNameOff w2 p off = resolveNameOff w p off.
Proof.
  unfold resolveNameOff. destruct Hsame as (_ & _ & Hr & _ & _ & Hf).
  destruct (off =? 0); [done|].
  destruct (same_findmodule p _ _ Hf) as [a b Hab|].
  - by destruct (sameModule_fields a b Hab) as (<- & <- & _).
  - by rewrite Hr.
Qed.

Hint Resolve same_tag same_resolveNameOff : layout.

Lemma same_string t : type_string w2 t = type_string w t.
Proof. unfold type_string, type_nameOff. repeat same_step. Qed.

Lemma same_eqUncommon t v dt dv :
  eqUncommon w2 t v dt dv = eqUncommon w t v dt dv.
Proof.
  unfold eqUncommon, type_nameOff.
  destruct (type_uncommon dt), (type_uncommon dv); repeat same_step.
Qed.

Hint Resolve same_string same_eqUncommon : layout.

End same_layout.

Lemma typelinksinit_loop (fuel : nat) (w : world) :
  (2 ≤ length (modules w))%nat →
  typelinksinit fuel w = dedupLoop fuel (length (modules w) - 1) 1 ∅ w.
Proof.
  intros Hlen. unfold typelinksinit, activeModules.
  destruct (modules w) as [|a [|b rest]]; simpl in Hlen; [lia|lia|done].
Qed.

(** ** Structural equality: what the check reads of two descriptors *)

Lemma bind_Ret {A B : Type} (m : outcome A) (k : A → outcome B) (b : B) :
  m ≫= k = Ret b → ∃ a, m = Ret a ∧ k a = Ret b.
Proof. destruct m; simpl; try done. intros H. by eexists. Qed.

Ltac inv_bind H :=
  let a := fresh "a" in
  let Ha := fresh "Hread" in
  match type of H with
  | (_ ≫= _) = Ret _ => apply bind_Ret in H as (a & Ha & H)
  end.

Lemma eqTypes_app (rec : checker) (a a' b b' : list Z) (s : memo) :
  length a = length a' →
  eqTypes rec (a ++ b) (a' ++ b') s
  = '(r, s1) ← eqTypes rec a a' s;
    if negb r then Ret (false, s1) else eqTypes rec b b' s1.
Proof.
  revert a' s. induction a as [|x a IH]; intros [|x' a'] s Hlen;
    simpl in *; try done.
  destruct (rec x x' s) as [[r s1]| | | |]; simpl; try done.
  destruct r; simpl; [|done]. apply IH. lia.
Qed.

Ltac use_reads :=
  repeat match goal with
         | H : ?m = Ret _ |- context [?m] => rewrite H; simpl
         end.

(** Inverts the reads of a view that returned. *)
Ltac inv_view H :=
  repeat (inv_bind H);
  repeat match type of H with
         | context [let '(_, _) := ?p in _] => destruct p
         end;
  simpl in H.

Section views.
Variable w : world.
Variable rec : checker.

(** The loop over the fields, when the reads of both sides are known. *)
Lemma eqFields_view (tfs vfs : list structfield) (seen : memo)
  (nums : list Z) (names : list (list byte)) (cs cs' : list Z) :
  fieldsView w tfs = Ret (nums, names, cs) →
  fieldsView w vfs = Ret (nums, names, cs') →
  eqFields w rec tfs vfs seen = eqTypes rec cs cs' seen.
Proof.
  revert vfs seen nums names cs cs'.
  induction tfs as [|tf tfs IH]; intros [|vf vfs] seen nums names cs cs';
    simpl.
  - by intros [= <- <- <-] [= <-].
  - by intros [= <- <- <-] H.
  - intros H [= <- <- <-]. inv_view H. done.
  - intros Ht Hv. inv_view Ht. inv_view Hv. simplify_eq.
    use_reads. rewrite bool_decide_eq_true_2 by done. simpl.
    destruct (rec (sf_typ tf) (sf_typ vf) seen) as [[b s]| | | |]; simpl;
      try done.
    destruct b; simpl; [|done].
    rewrite bool_decide_eq_true_2 by done. simpl.
    match goal with H : offsetAnon _ = offsetAnon _ |- _ => rewrite H end.
    rewrite Z.eqb_refl. simpl. by eapply IH.
Qed.

Lemma eqMethods_view (tms vms : list imethod) (tm vm : Z) (seen : memo)
  (nums : list Z) (names : list (list byte)) (cs cs' : list Z) :
  methodsView w tm tms = Ret (nums, names, cs) →
  methodsView w vm vms = Ret (nums, names, cs') →
  eqMethods w rec tm vm tms vms seen = eqTypes rec cs cs' seen.
Proof.
  revert vms tm vm seen nums names cs cs'.
  induction tms as [|mt tms IH]; intros [|mv vms] tm vm seen nums names cs cs';
    simpl.
  - by intros [= <- <- <-] [= <-].
  - by intros [= <- <- <-] H.
  - intros H [= <- <- <-]. inv_view H. done.
  - intros Ht Hv. inv_view Ht. inv_view Hv. simplify_eq.
    use_reads. rewrite bool_decide_eq_true_2 by done. simpl.
    use_reads. rewrite bool_decide_eq_true_2 by done. simpl.
    use_reads.
    match goal with
    | |- context [rec ?x ?y seen] =>
        destruct (rec x y seen) as [[b s]| | | |]; simpl; try done
    end.
    destruct b; simpl; [|done]. by eapply IH.
Qed.

Lemma fieldsView_length (fs : list structfield) (nums : list Z)
  (names : list (list byte)) (cs : list Z) :
  fieldsView w fs = Ret (nums, names, cs) →
  length nums = length fs ∧ length cs = length fs.
Proof.
  revert nums names cs. induction fs as [|f fs IH]; intros nums names cs; simpl.
  - by intros [= <- <- <-].
  - intros H. inv_view H. simplify_eq.
    match goal with H : fieldsView _ _ = Ret _ |- _ => destruct (IH _ _ _ H) end.
    simpl. lia.
Qed.

Lemma methodsView_length (ms : list imethod) (tm : Z) (nums : list Z)
  (names : list (list byte)) (cs : list Z) :
  methodsView w tm ms = Ret (nums, names, cs) →
  length names = (2 * length ms)%nat ∧ length cs = length ms.
Proof.
  revert tm nums names cs.
  induction ms as [|m ms IH]; intros tm nums names cs; simpl.
  - by intros [= <- <- <-].
  - intros H. inv_view H. simplify_eq.
    match goal with
    | H : methodsView _ _ _ = Ret _ |- _ => destruct (IH _ _ _ _ H)
    end.
    simpl. lia.
Qed.
End views.

(** Inverts a call that returned: its reads returned and its tests
    passed. *)
Ltac inv_true H :=
  repeat first
    [ inv_bind H
    | match type of H with
      | (if ?c then _ else _) = Ret _ =>
          let Hc := fresh "Hc" in
          destruct c eqn:Hc; [try discriminate H|try discriminate H]
      | (let '(_, _) := ?p in _) = Ret _ => destruct p
      | (match ?p with (_, _) => _ end) = Ret _ => destruct p
      end ];
  simpl in H.

Ltac tests_passed :=
  repeat match goal with
         | H : negb _ = false |- _ => apply negb_false_iff in H
         | H : negb _ || negb _ = false |- _ =>
             apply orb_false_iff in H as [? ?]
         | H : bool_decide _ = true |- _ => apply bool_decide_eq_true in H
         | H : (_ =? _) = true |- _ => apply Z.eqb_eq in H
         | H : (_ =? _)%nat = true |- _ => apply Nat.eqb_eq in H
         end.

Section views_returned.
Variable w : world.
Variable rec : checker.

Lemma eqFields_true (tfs vfs : list structfield) (seen s' : memo) :
  length tfs = length vfs →
  eqFields w rec tfs vfs seen = Ret (true, s') →
  ∃ nums names cs cs', fieldsView w tfs = Ret (nums, names, cs)
                       ∧ fieldsView w vfs = Ret (nums, names, cs').
Proof.
  revert vfs seen. induction tfs as [|tf tfs IH]; intros [|vf vfs] seen Hlen;
    simpl in *; try done.
  - intros _. by exists [], [], [], [].
  - intros H. inv_true H. tests_passed. subst.
    destruct (IH vfs _ ltac:(lia) H) as (nums & names & cs & cs' & Ht & Hv).
    use_reads.
    match goal with H : offsetAnon _ = offsetAnon _ |- _ => rewrite H end.
    by eexists _, _, _, _.
Qed.

Lemma eqMethods_true (tms vms : list imethod) (tm vm : Z) (seen s' : memo) :
  length tms = length vms →
  eqMethods w rec tm vm tms vms seen = Ret (true, s') →
  ∃ nums names cs cs', methodsView w tm tms = Ret (nums, names, cs)
                       ∧ methodsView w vm vms = Ret (nums, names, cs').
Proof.
  revert vms tm vm seen.
  induction tms as [|mt tms IH]; intros [|mv vms] tm vm seen Hlen;
    simpl in *; try done.
  - intros _. by exists [], [], [], [].
  - intros H. inv_true H. tests_passed. subst.
    destruct (IH vms _ _ _ ltac:(lia) H) as (nums & names & cs & cs' & Ht & Hv).
    use_reads. by eexists _, _, _, _.
Qed.

Lemma eqKind_true (k : Z) (dt dv : descriptor) (seen s' : memo) :
  (kindBool <=? k) && (k <=? kindComplex128) = false →
  eqKind w rec k dt dv seen = Ret (true, s') →
  ∃ nums names cs cs', kindView w k dt = Ret (nums, names, cs)
                       ∧ kindView w k dv = Ret (nums, names, cs')
                       ∧ length cs = length cs'.
Proof.
  intros Hleaf. unfold eqKind, kindView. rewrite Hleaf.
  destruct ((k =? kindString) || (k =? kindUnsafePointer)).
  { intros _. by exists [], [], [], []. }
  destruct (k =? kindArray).
  { intros H. inv_true H. use_reads.
    injection H as [_ Hlen%Z.eqb_eq]%andb_true_iff _. rewrite Hlen.
    by eexists _, _, _, _. }
  destruct (k =? kindChan).
  { intros H. inv_true H. tests_passed. use_reads.
    match goal with H : ct_dir _ = ct_dir _ |- _ => rewrite H end.
    by eexists _, _, _, _. }
  destruct (k =? kindFunc).
  { intros H. inv_true H. tests_passed. use_reads.
    repeat match goal with
           | H : functype_in _ _ = Ret _ |- _ =>
               apply slice_array_length in H
           | H : functype_out _ _ = Ret _ |- _ =>
               apply slice_array_length in H
           end.
    repeat match goal with
           | H : outCount _ = outCount _ |- _ => rewrite H in *; clear H
           | H : inCount _ = inCount _ |- _ => rewrite H in *; clear H
           end.
    eexists _, _, _, _. split_and!; [done|done|].
    rewrite !length_app. lia. }
  destruct (k =? kindInterface).
  { intros H. inv_true H. tests_passed. subst.
    destruct (eqMethods_true _ _ _ _ _ _ ltac:(done) H)
      as (nums & names & cs & cs' & Ht & Hv).
    use_reads.
    eexists _, _, _, _. split_and!; [done|done|].
    apply methodsView_length in Ht as [_ ->], Hv as [_ ->]. done. }
  destruct (k =? kindMap).
  { intros H. inv_true H. use_reads. by eexists _, _, _, _. }
  destruct (k =? kindPtr).
  { intros H. inv_true H. use_reads. by eexists _, _, _, _. }
  destruct (k =? kindSlice).
  { intros H. inv_true H. use_reads. by eexists _, _, _, _. }
  destruct (k =? kindStruct); [|done].
  intros H. inv_true H. tests_passed. subst.
  destruct (eqFields_true _ _ _ _ ltac:(done) H)
    as (nums & names & cs & cs' & Ht & Hv).
  use_reads.
  eexists _, _, _, _. split_and!; [done|done|].
  apply fieldsView_length in Ht as [_ ->], Hv as [_ ->]. done.
Qed.
End views_returned.

Section views_known.
Variable w : world.
Variable rec : checker.

Lemma eqTypes_one (x y : Z) (seen : memo) :
  eqTypes rec [x] [y] seen = rec x y seen.
Proof.
  simpl. destruct (rec x y seen) as [[b s]| | | |]; simpl; try done.
  by destruct b.
Qed.

(** The switch over the kind, when the reads of both sides are known:
    what is left are the recursive calls, in order. *)
Lemma eqKind_view (k : Z) (dt dv : descriptor) (seen : memo)
  (nums : list Z) (names : list (list byte)) (cs cs' : list Z) :
  (kindBool <=? k) && (k <=? kindComplex128) = false →
  kindView w k dt = Ret (nums, names, cs) →
  kindView w k dv = Ret (nums, names, cs') →
  eqKind w rec k dt dv seen = eqTypes rec cs cs' seen.
Proof.
  intros Hleaf. unfold eqKind, kindView. rewrite Hleaf.
  destruct ((k =? kindString) || (k =? kindUnsafePointer)).
  { by intros [= <- <- <-] [= <-]. }
  destruct (k =? kindArray).
  { intros Ht Hv. inv_view Ht. inv_view Hv. simplify_eq. use_reads.
    match goal with H : at_len _ = at_len _ |- _ => rewrite H end.
    rewrite Z.eqb_refl.
    match goal with
    | |- context [rec ?x ?y seen] =>
        destruct (rec x y seen) as [[[] s]| | | |]; simpl; done
    end. }
  destruct (k =? kindChan).
  { intros Ht Hv. inv_view Ht. inv_view Hv. simplify_eq. use_reads.
    match goal with H : ct_dir _ = ct_dir _ |- _ => rewrite H end.
    rewrite Z.eqb_refl. simpl. symmetry. apply eqTypes_one. }
  destruct (k =? kindFunc).
  { intros Ht Hv. inv_view Ht. inv_view Hv. simplify_eq. use_reads.
    repeat match goal with
           | H : outCount _ = outCount _ |- _ => rewrite H; clear H
           | H : inCount _ = inCount _ |- _ =>
               rewrite H; rename H into Hin
           end.
    rewrite !Z.eqb_refl. simpl.
    rewrite eqTypes_app.
    2:{ repeat match goal with
               | H : functype_in _ _ = Ret _ |- _ =>
                   apply slice_array_length in H
               end. lia. }
    apply bind_ext; [done|]. intros [b s]. destruct b; simpl; [|done].
    by use_reads. }
  destruct (k =? kindInterface).
  { intros Ht Hv. inv_view Ht. inv_view Hv. simplify_eq. use_reads.
    rewrite bool_decide_eq_true_2 by done. simpl.
    repeat match goal with
           | H : methodsView _ _ _ = Ret _ |- _ =>
               pose proof (methodsView_length _ _ _ _ _ _ H) as [? _];
               revert H
           end.
    intros Hv Ht.
    match goal with
    | |- context [(?x =? ?y)%nat] =>
        replace (x =? y)%nat with true by (symmetry; apply Nat.eqb_eq; lia)
    end.
    simpl. by eapply eqMethods_view. }
  destruct (k =? kindMap).
  { intros Ht Hv. inv_view Ht. inv_view Hv. simplify_eq. use_reads.
    simpl. apply bind_ext; [done|]. intros [b s]. destruct b; simpl; [|done].
    symmetry. apply eqTypes_one. }
  destruct (k =? kindPtr).
  { intros Ht Hv. inv_view Ht. inv_view Hv. simplify_eq. use_reads.
    symmetry. apply eqTypes_one. }
  destruct (k =? kindSlice).
  { intros Ht Hv. inv_view Ht. inv_view Hv. simplify_eq. use_reads.
    symmetry. apply eqTypes_one. }
  destruct (k =? kindStruct); [|done].
  intros Ht Hv. inv_view Ht. inv_view Hv. simplify_eq. use_reads.
  repeat match goal with
         | H : fieldsView _ _ = Ret _ |- _ =>
             pose proof (fieldsView_length _ _ _ _ _ H) as [? _];
             revert H
         end.
  intros Hv Ht.
  match goal with
  | |- context [(?x =? ?y)%nat] =>
      replace (x =? y)%nat with true by (symmetry; apply Nat.eqb_eq; lia)
  end.
  simpl. use_reads. rewrite bool_decide_eq_true_2 by done. simpl.
  by eapply eqFields_view.
Qed.
End views_known.

Lemma eqUncommon_view (w : world) (t v : Z) (dt dv : descriptor)
  (u u' : option (list byte)) :
  uncView w t dt = Ret u → uncView w v dv = Ret u' →
  eqUncommon w t v dt dv = Ret (bool_decide (u = u')).
Proof.
  unfold uncView, eqUncommon.
  destruct (type_uncommon dt) as [ut|], (type_uncommon dv) as [uv|].
  - intros Ht Hv. inv_view Ht. inv_view Hv. simplify_eq. use_reads.
    f_equal. apply bool_decide_ext. split; congruence.
  - intros Ht [= <-]. inv_view Ht. by simplify_eq.
  - intros [= <-] Hv. inv_view Hv. by simplify_eq.
  - by intros [= <-] [= <-].
Qed.

Lemma eqUncommon_true (w : world) (t v : Z) (dt dv : descriptor) :
  eqUncommon w t v dt dv = Ret true →
  ∃ u, uncView w t dt = Ret u ∧ uncView w v dv = Ret u.
Proof.
  unfold uncView, eqUncommon.
  destruct (type_uncommon dt) as [ut|], (type_uncommon dv) as [uv|];
    try done.
  - intros H. inv_true H. injection H as H. tests_passed. subst.
    use_reads. by eexists.
  - intros _. by exists None.
Qed.

Section body.
Variable w : world.
Variable rec : checker.

(** The body of the check on a fresh pair of distinct descriptors whose
    reads are known and the same: what is left are the recursive calls
    on the component types, in order. *)
Lemma body_view (t v : Z) (seen : memo) (vt vv : view) :
  (t, v) ∉ seen → t ≠ v →
  viewOf w t = Ret vt → viewOf w v = Ret vv → skel vt = skel vv →
  typesEqualBody w rec t v seen
  = eqTypes rec (children vt) (children vv) ({[(t, v)]} ∪ seen).
Proof.
  intros Hnew Hne%Z.eqb_neq Ht Hv Hskel.
  unfold typesEqualBody. rewrite bool_decide_eq_false_2 by done. rewrite Hne.
  unfold viewOf in Ht, Hv. inv_view Ht. inv_view Hv.
  injection Ht as <-. injection Hv as <-.
  simpl in Hskel. injection Hskel as Hk Hs Hu Hnums Hnames. subst.
  use_reads. rewrite Hk, Z.eqb_refl. simpl.
  rewrite bool_decide_eq_true_2 by done. simpl.
  erewrite eqUncommon_view by done.
  rewrite bool_decide_eq_true_2 by done. simpl.
  destruct ((kindBool <=? _) && (_ <=? kindComplex128)) eqn:Hleaf.
  - unfold kindView in *. rewrite Hk, Hleaf in *. by simplify_eq.
  - rewrite <- Hk in *. by eapply eqKind_view.
Qed.

(** A yes on a fresh pair of distinct descriptors: the reads of both
    returned and are the same. *)
Lemma body_true (t v : Z) (seen s' : memo) :
  (t, v) ∉ seen → t ≠ v →
  typesEqualBody w rec t v seen = Ret (true, s') →
  ∃ vt vv, viewOf w t = Ret vt ∧ viewOf w v = Ret vv
           ∧ skel vt = skel vv
           ∧ length (children vt) = length (children vv).
Proof.
  intros Hnew Hne%Z.eqb_neq. unfold typesEqualBody, viewOf.
  rewrite bool_decide_eq_false_2 by done. rewrite Hne.
  intros H. inv_bind H. inv_bind H.
  destruct (negb _) eqn:Hk in H; [done|].
  inv_bind H. inv_bind H.
  destruct (negb _) eqn:Hs in H; [done|].
  inv_bind H.
  destruct (negb _) eqn:Hu in H; [done|].
  tests_passed. subst.
  match goal with
  | H : eqUncommon _ _ _ _ _ = Ret true |- _ =>
      apply eqUncommon_true in H as (u & Hut & Huv)
  end.
  use_reads. rewrite <- Hk.
  destruct ((kindBool <=? _) && (_ <=? kindComplex128)) eqn:Hleaf.
  - unfold kindView. rewrite Hleaf. simpl. by eexists _, _.
  - destruct (eqKind_true _ _ _ _ _ _ _ Hleaf H)
      as (nums & names & cs & cs' & Hkt & Hkv & Hlen).
    rewrite Hkt, Hkv. simpl. by eexists _, _.
Qed.
End body.

(** ** The relation: an equivalence *)

Lemma rc_mono (R R' : Z → Z → Prop) (x y : Z) :
  (∀ a b, R a b → R' a b) → rc R x y → rc R' x y.
Proof. intros HR [->|H]; [by left|right; by apply HR]. Qed.

Lemma agree_mono (w : world) (R R' : Z → Z → Prop) (t v : Z) :
  (∀ a b, R a b → R' a b) → agree w R t v → agree w R' t v.
Proof.
  intros HR [->|(vt & vv & Ht & Hv & Hs & Hc)]; [by left|].
  right. exists vt, vv. split_and!; [done..|].
  eapply Forall2_impl; [exact Hc|]. intros x y. by apply rc_mono.
Qed.

Lemma agree_rc (w : world) (R : Z → Z → Prop) (t v : Z) :
  bisimulation w R → rc R t v → agree w R t v.
Proof. intros HR [->|H]; [by left|by apply HR]. Qed.

Lemma similar_bisimulation (w : world) : bisimulation w (similar w).
Proof.
  intros t v (R & HR & Htv). eapply agree_mono; [|by apply HR].
  intros a b Hab. by exists R.
Qed.

Lemma similar_refl (w : world) (t : Z) : similar w t t.
Proof. exists eq. split; [|done]. intros a b ->. by left. Qed.

Lemma similar_rc (w : world) (t v : Z) : rc (similar w) t v → similar w t v.
Proof. intros [->|H]; [apply similar_refl|done]. Qed.

Lemma agree_sym (w : world) (R : Z → Z → Prop) (t v : Z) :
  agree w R t v → agree w (flip R) v t.
Proof.
  intros [->|(vt & vv & Ht & Hv & Hs & Hc)]; [by left|].
  right. exists vv, vt. split_and!; [done..|].
  apply Forall2_flip. eapply Forall2_impl; [exact Hc|].
  intros x y [->|H]; [by left|by right].
Qed.

Lemma similar_sym (w : world) (t v : Z) : similar w t v → similar w v t.
Proof.
  intros (R & HR & Htv). exists (flip R). split; [|done].
  intros a b Hab. by apply agree_sym, HR.
Qed.

Lemma agree_comp (w : world) (R1 R2 : Z → Z → Prop) (a b c : Z) :
  agree w R1 a b → agree w R2 b c → agree w (comp R1 R2) a c.
Proof.
  intros [->|(va & vb & Ha & Hb & Hs & Hc)] H2.
  { eapply agree_mono; [|exact H2]. intros x y Hxy.
    exists x. split; [by left|by right]. }
  destruct H2 as [<-|(vb' & vc & Hb' & Hc' & Hs' & Hc2)].
  { right. exists va, vb. split_and!; [done..|].
    eapply Forall2_impl; [exact Hc|]. intros x y Hxy.
    right. exists y. split; [done|by left]. }
  rewrite Hb in Hb'. injection Hb' as <-.
  right. exists va, vc. split_and!; [done|done|congruence|].
  eapply Forall2_trans; [|exact Hc|exact Hc2].
  intros x y z Hxy Hyz. right. by exists y.
Qed.

Lemma comp_bisimulation (w : world) (R1 R2 : Z → Z → Prop) :
  bisimulation w R1 → bisimulation w R2 → bisimulation w (comp R1 R2).
Proof.
  intros H1 H2 a c (b & Hab & Hbc).
  apply (agree_comp w R1 R2 a b c); by apply agree_rc.
Qed.

Lemma similar_trans (w : world) (a b c : Z) :
  similar w a b → similar w b c → similar w a c.
Proof.
  intros (R1 & H1 & Hab) (R2 & H2 & Hbc). exists (comp R1 R2).
  split; [by apply comp_bisimulation|]. exists b. split; by right.
Qed.

(** ** A yes of the check is structural equality *)

Lemma eqTypes_sound (w : world) (rec : checker) (l l' : list Z) (s s' : memo) :
  sound w rec → length l = length l' →
  eqTypes rec l l' s = Ret (true, s') →
  s ⊆ s' ∧ Forall2 (inS s') l l'
  ∧ ∀ S, s' ⊆ S → closed w S s → closed w S s'.
Proof.
  intros Hrec. revert l' s. induction l as [|x l IH]; intros [|y l'] s Hlen;
    simpl in *; try done.
  - intros [= <-]. split_and!; [done|constructor|done].
  - intros H. inv_true H.
    apply negb_false_iff in Hc as ->.
    destruct (Hrec _ _ _ _ Hread) as (Hsub & Hin & Hcl).
    destruct (IH l' _ ltac:(lia) H) as (Hsub' & Hall & Hcl').
    split_and!.
    + set_solver.
    + constructor; [|done]. unfold inS. set_solver.
    + intros S HS Hs. apply Hcl'; [done|]. apply Hcl; [set_solver|done].
Qed.

Lemma typesEqual_sound (w : world) (fuel : nat) : sound w (typesEqual fuel w).
Proof.
  induction fuel as [|fuel IH]; intros t v s s'; [done|].
  change (typesEqual (S fuel) w t v s)
    with (typesEqualBody w (typesEqual fuel w) t v s).
  destruct (decide ((t, v) ∈ s)) as [Hin|Hnew].
  { unfold typesEqualBody. rewrite bool_decide_eq_true_2 by done.
    intros [= <-]. by split_and!. }
  destruct (decide (t = v)) as [->|Hne].
  { unfold typesEqualBody. rewrite bool_decide_eq_false_2 by done.
    rewrite Z.eqb_refl. intros [= <-]. split_and!; [set_solver|set_solver|].
    intros S HS Hs a b [Hab|Hab]%elem_of_union; [|by apply Hs].
    apply elem_of_singleton in Hab as [= -> ->]. by left. }
  intros H.
  destruct (body_true _ _ _ _ _ _ Hnew Hne H)
    as (vt & vv & Ht & Hv & Hskel & Hlen).
  rewrite (body_view _ _ _ _ _ vt vv Hnew Hne Ht Hv Hskel) in H.
  destruct (eqTypes_sound _ _ _ _ _ _ IH Hlen H) as (Hsub & Hall & Hcl).
  split_and!; [set_solver|set_solver|].
  intros S HS Hs. apply Hcl; [done|].
  intros a b [Hab|Hab]%elem_of_union; [|by apply Hs].
  apply elem_of_singleton in Hab as [= -> ->].
  right. exists vt, vv. split_and!; [done..|].
  eapply Forall2_impl; [exact Hall|]. intros x y Hxy. right.
  unfold inS in *. set_solver.
Qed.

(** A yes started with the empty memo: the memo handed back is a
    relation of the kind that defines structural equality. *)
Lemma equal_similar (w : world) (fuel : nat) (t v : Z) (seen : memo) :
  typesEqual fuel w t v ∅ = Ret (true, seen) → similar w t v.
Proof.
  intros H. destruct (typesEqual_sound w fuel _ _ _ _ H) as (_ & Hin & Hcl).
  exists (inS seen). split; [|done].
  intros a b Hab. apply (Hcl seen); [done| |done].
  intros x y Hxy. by apply elem_of_empty in Hxy.
Qed.

(** ** Structural equality is never answered no *)

Lemma eqTypes_accepts (rec : checker) (R : Z → Z → Prop) (l l' : list Z)
  (s : memo) :
  (∀ x y s, rc R x y → accepts (rec x y s)) →
  Forall2 (rc R) l l' → accepts (eqTypes rec l l' s).
Proof.
  intros Hrec Hall. revert s. induction Hall as [|x y l l' Hxy _ IH];
    intros s; simpl; [done|].
  specialize (Hrec x y s Hxy).
  destruct (rec x y s) as [[[] s1]| | | |]; simpl in *; try done.
Qed.

Lemma typesEqual_accepts (w : world) (R : Z → Z → Prop) (fuel : nat)
  (t v : Z) (seen : memo) :
  bisimulation w R → rc R t v → accepts (typesEqual fuel w t v seen).
Proof.
  intros HR. revert t v seen. induction fuel as [|fuel IH]; intros t v seen Htv;
    [done|].
  change (typesEqual (S fuel) w t v seen)
    with (typesEqualBody w (typesEqual fuel w) t v seen).
  destruct (decide ((t, v) ∈ seen)) as [Hin|Hnew].
  { unfold typesEqualBody. by rewrite bool_decide_eq_true_2. }
  destruct (decide (t = v)) as [->|Hne].
  { unfold typesEqualBody. rewrite bool_decide_eq_false_2 by done.
    by rewrite Z.eqb_refl. }
  destruct (agree_rc w R t v HR Htv) as [?|(vt & vv & Ht & Hv & Hskel & Hc)];
    [done|].
  rewrite (body_view _ _ _ _ _ vt vv Hnew Hne Ht Hv Hskel).
  by apply (eqTypes_accepts _ R).
Qed.

(** Structurally equal descriptors are reported equal within the depth
    [enough w]. *)
Lemma similar_equal (w : world) (t v : Z) :
  similar w t v →
  ∃ seen, typesEqual (enough w) w t v ∅ = Ret (true, seen).
Proof.
  intros (R & HR & Htv).
  pose proof (typesEqual_accepts w R (enough w) t v ∅ HR (or_intror Htv))
    as Hacc.
  destruct (typesEqual_enough w t v (enough w) ltac:(lia)) as [Hends _].
  destruct (typesEqual (enough w) w t v ∅) as [[[] s]| | | |]; try done.
  by exists s.
Qed.

Lemma equalIn_similar (w : world) (t v : Z) : equalIn w t v ↔ similar w t v.
Proof.
  split.
  - intros (fuel & seen & H). by apply (equal_similar w fuel t v seen).
  - intros H. destruct (similar_equal w t v H) as [seen Hs].
    by exists (enough w), seen.
Qed.

(** ** Structural equality in the worlds of the pass *)

Lemma together_bind {A B C D : Type} (P : A → B → Prop) (Q : C → D → Prop)
  (m : outcome A) (m' : outcome B) (k : A → outcome C) (k' : B → outcome D) :
  together P m m' → (∀ a b, P a b → together Q (k a) (k' b)) →
  together Q (m ≫= k) (m' ≫= k').
Proof. intros Hm Hk. destruct m, m'; simpl in *; try done. by apply Hk. Qed.

Lemma together_same {A : Type} (m m' : outcome A) :
  m' = m → together eq m m'.
Proof. intros ->. by destruct m. Qed.

Lemma together_Ret {A B : Type} (P : A → B → Prop) (m : outcome A)
  (m' : outcome B) (a : A) :
  together P m m' → m = Ret a → ∃ b, m' = Ret b ∧ P a b.
Proof. intros H ->. destruct m'; simpl in H; try done. by eexists. Qed.

Lemma together_Ret_r {A B : Type} (P : A → B → Prop) (m : outcome A)
  (m' : outcome B) (b : B) :
  together P m m' → m' = Ret b → ∃ a, m = Ret a ∧ P a b.
Proof. intros H ->. destruct m; simpl in H; try done. by eexists. Qed.

Section good_worlds.
Variables w W : world.
Hypothesis Hfresh : untouched w.
Hypothesis Hgood : good w W.

Lemma good_sameLayout : sameLayout w W.
Proof. by destruct Hgood. Qed.

Lemma same_pkgPath (n : Z) : name_pkgPath W n = name_pkgPath w n.
Proof.
  pose proof good_sameLayout as Hsame.
  pose proof Hsame as (_ & _ & _ & _ & Hbig & _).
  unfold name_pkgPath. rewrite <- Hbig.
  destruct (n =? 0); [done|].
  apply bind_ext; [by apply same_load|]. intros b0.
  destruct (_ =? 0); [done|].
  apply bind_ext; [by apply same_nameLen|]. intros nl.
  apply bind_ext; [by apply same_tagLen|]. intros tl.
  apply bind_ext; [by apply same_load|]. intros c0.
  apply bind_ext; [by apply same_load|]. intros c1.
  apply bind_ext; [by apply same_load|]. intros c2.
  apply bind_ext; [by apply same_load|]. intros c3.
  apply bind_ext; [by apply same_resolveNameOff|]. intros p.
  by apply same_name.
Qed.

(** A type offset resolves in both worlds or in neither, to descriptors
    that are structurally equal. *)
Lemma resolveTypeOff_good (p off : Z) :
  together (similar w) (resolveTypeOff w p off) (resolveTypeOff W p off).
Proof.
  pose proof good_sameLayout as (_ & _ & Hreg & _ & _ & Hmods).
  destruct Hgood as [_ Hentries].
  unfold resolveTypeOff. destruct (off =? 0); [apply similar_refl|].
  pose proof (same_findmodule p _ _ Hmods) as Hfind.
  destruct (findmodule p (modules w)) as [md|] eqn:Hmd;
    destruct (findmodule p (modules W)) as [md'|] eqn:Hmd';
    inversion Hfind as [? ? Hsame|]; subst.
  - apply findmodule_Some in Hmd as [Hin _], Hmd' as [Hin' _].
    unfold untouched in Hfresh. rewrite Forall_forall in Hfresh.
    rewrite (Hfresh md Hin). simpl.
    destruct (sameModule_fields md md' Hsame) as (Ht & He & _).
    fold (own md off). fold (own md' off).
    assert (Hown : own md' off = own md off) by (unfold own; by rewrite Ht).
    rewrite Hown, <- He.
    destruct (typemap md') as [tm|] eqn:Htm; simpl.
    + destruct (tm !! off) as [c|] eqn:Hc; simpl.
      * destruct (c =? 0) eqn:Hc0; simpl.
        -- destruct (etypes md <? own md off); [done|apply similar_refl].
        -- apply Z.eqb_neq in Hc0.
           destruct (Hentries md' tm off c Hin' Htm Hc Hc0) as [Hrange Hsim].
           rewrite Hown, <- He in Hrange. rewrite Hown in Hsim.
           destruct (etypes md <? own md off) eqn:Hlt; [lia|done].
      * destruct (etypes md <? own md off); [done|apply similar_refl].
    + destruct (etypes md <? own md off); [done|apply similar_refl].
  - rewrite Hreg.
    destruct (default 0 (reflectOffs_m W !! off) =? 0); [done|].
    apply similar_refl.
Qed.

Lemma methodsView_good (ms : list imethod) (tm : Z) :
  together (partsAlike w) (methodsView w tm ms) (methodsView W tm ms).
Proof.
  pose proof good_sameLayout as Hsame.
  revert tm. induction ms as [|m ms IH]; intros tm; simpl.
  { by split_and!. }
  eapply together_bind;
    [apply together_same; by apply same_resolveNameOff|intros nm ? <-].
  eapply together_bind;
    [apply together_same; by apply same_name|intros n ? <-].
  eapply together_bind;
    [apply together_same; by apply same_pkgPath|intros pk ? <-].
  eapply together_bind; [apply resolveTypeOff_good|intros ty ty' Hty].
  eapply together_bind; [apply IH|].
  intros [[nums names] cs] [[nums' names'] cs'] (Hn & Hm & Hc).
  simpl in *. subst. split_and!; [done|done|]. by constructor.
Qed.

Lemma fieldsView_good (fs : list structfield) :
  fieldsView W fs = fieldsView w fs.
Proof.
  pose proof good_sameLayout as Hsame.
  induction fs as [|f fs IH]; simpl; [done|].
  apply bind_ext; [by apply same_name|]. intros n.
  apply bind_ext; [by apply same_tag|]. intros tg.
  by rewrite IH.
Qed.

Lemma Forall2_similar_refl (l : list Z) : Forall2 (similar w) l l.
Proof. induction l; constructor; [apply similar_refl|done]. Qed.

Lemma partsAlike_refl (p : part) : partsAlike w p p.
Proof. split_and!; [done|done|apply Forall2_similar_refl]. Qed.

Lemma together_part (m m' : outcome part) :
  m' = m → together (partsAlike w) m m'.
Proof. intros ->. destruct m; simpl; [apply partsAlike_refl|done..]. Qed.

Lemma kindView_good (k : Z) (d : descriptor) :
  together (partsAlike w) (kindView w k d) (kindView W k d).
Proof.
  pose proof good_sameLayout as Hsame.
  unfold kindView.
  destruct ((kindBool <=? k) && (k <=? kindComplex128));
    [apply partsAlike_refl|].
  destruct ((k =? kindString) || (k =? kindUnsafePointer));
    [apply partsAlike_refl|].
  destruct (k =? kindArray); [by apply together_part|].
  destruct (k =? kindChan); [by apply together_part|].
  destruct (k =? kindFunc); [by apply together_part|].
  destruct (k =? kindInterface).
  { eapply together_bind; [by apply together_same|intros it ? <-].
    eapply together_bind;
      [apply together_same; by apply same_name|intros p ? <-].
    eapply together_bind; [apply methodsView_good|].
    intros [[nums names] cs] [[nums' names'] cs'] (Hn & Hm & Hc).
    simpl in *. subst. by split_and!. }
  destruct (k =? kindMap); [by apply together_part|].
  destruct (k =? kindPtr); [by apply together_part|].
  destruct (k =? kindSlice); [by apply together_part|].
  destruct (k =? kindStruct); [|done].
  apply together_part.
  apply bind_ext; [done|]. intros s.
  apply bind_ext; [by apply same_name|]. intros p.
  by rewrite fieldsView_good.
Qed.

Lemma uncView_good (t : Z) (d : descriptor) : uncView W t d = uncView w t d.
Proof.
  pose proof good_sameLayout as Hsame.
  unfold uncView, type_nameOff. destruct (type_uncommon d); [|done].
  apply bind_ext; [by apply same_resolveNameOff|]. intros n.
  apply bind_ext; [by apply same_name|]. done.
Qed.

(** A descriptor is read in both worlds or in neither: the same data,
    and component types that are structurally equal. *)
Lemma viewOf_good (t : Z) :
  together (viewsAlike w) (viewOf w t) (viewOf W t).
Proof.
  pose proof good_sameLayout as Hsame.
  unfold viewOf.
  eapply together_bind;
    [apply together_same; by apply same_deref|intros d ? <-].
  eapply together_bind;
    [apply together_same; by apply same_string|intros s ? <-].
  eapply together_bind;
    [apply together_same; by apply uncView_good|intros u ? <-].
  eapply together_bind; [apply kindView_good|].
  intros [[nums names] cs] [[nums' names'] cs'] (Hn & Hm & Hc).
  simpl in *. subst. by split.
Qed.

Lemma similar_into (t v : Z) : similar w t v → similar W t v.
Proof.
  intros Htv. exists (similar w). split; [|done].
  intros a b Hab.
  destruct (similar_bisimulation w a b Hab)
    as [->|(va & vb & Ha & Hb & Hs & Hc)]; [by left|].
  destruct (together_Ret _ _ _ _ (viewOf_good a) Ha) as (va' & Ha' & Hsa & Hca).
  destruct (together_Ret _ _ _ _ (viewOf_good b) Hb) as (vb' & Hb' & Hsb & Hcb).
  right. exists va', vb'. split_and!; [done|done|congruence|].
  assert (Hmid : Forall2 (similar w) (children va) (children vb')).
  { eapply Forall2_trans; [|exact Hc|exact Hcb].
    intros x y z Hxy Hyz.
    apply (similar_trans w x y z); [by apply similar_rc|done]. }
  apply Forall2_flip in Hca.
  eapply Forall2_trans; [|exact Hca|exact Hmid].
  intros x y z Hyx Hyz. right.
  apply (similar_trans w x y z); [by apply similar_sym|done].
Qed.
Lemma upTo_similar (R : Z → Z → Prop) (x y : Z) :
  similar w x y → upTo w R x y.
Proof. intros H. exists y, y. split_and!; [done|by left|apply similar_refl]. Qed.

Lemma upTo_left (R : Z → Z → Prop) (a x y : Z) :
  similar w a x → upTo w R x y → upTo w R a y.
Proof.
  intros Ha (x' & y' & Hx & Hxy & Hy). exists x', y'.
  split_and!; [by apply (similar_trans w a x x')|done|done].
Qed.

Lemma upTo_right (R : Z → Z → Prop) (x y b : Z) :
  upTo w R x y → similar w y b → upTo w R x b.
Proof.
  intros (x' & y' & Hx & Hxy & Hy) Hb. exists x', y'.
  split_and!; [done|done|by apply (similar_trans w y' y b)].
Qed.

Lemma upTo_bisimulation (R : Z → Z → Prop) :
  bisimulation W R → bisimulation w (upTo w R).
Proof.
  intros HR x y (x' & y' & Hx & Hxy & Hy).
  assert (Hmid : agree w (upTo w R) x' y').
  { destruct (agree_rc W R x' y' HR Hxy)
      as [->|(va' & vb' & Ha' & Hb' & Hs & Hc)]; [by left|].
    destruct (together_Ret_r _ _ _ _ (viewOf_good x') Ha')
      as (va & Ha & Hsa & Hca).
    destruct (together_Ret_r _ _ _ _ (viewOf_good y') Hb')
      as (vb & Hb & Hsb & Hcb).
    right. exists va, vb. split_and!; [done|done|congruence|].
    assert (Hleft : Forall2 (λ a b', ∃ a', similar w a a' ∧ rc R a' b')
                      (children va) (children vb')).
    { eapply Forall2_trans; [|exact Hca|exact Hc].
      intros a a' b' Ha1 Hab. by exists a'. }
    apply Forall2_flip in Hcb.
    eapply Forall2_trans; [|exact Hleft|exact Hcb].
    intros a b' b (a' & Ha1 & Hab) Hbb. right. exists a', b'.
    split_and!; [done|done|by apply similar_sym]. }
  pose proof (similar_bisimulation w x x' Hx) as Hl.
  pose proof (similar_bisimulation w y' y Hy) as Hr.
  pose proof (agree_comp _ _ _ _ _ _ Hl (agree_comp _ _ _ _ _ _ Hmid Hr))
    as Hall.
  eapply agree_mono; [|exact Hall].
  intros a c (b & Hab & Hbc). apply similar_rc in Hab.
  destruct Hbc as [<-|(d & Hbd & Hdc)]; [by apply upTo_similar|].
  apply similar_rc in Hdc.
  destruct Hbd as [<-|Hbd].
  - apply upTo_similar. by apply (similar_trans w a b c).
  - apply (upTo_right R a d c); [|done]. by apply (upTo_left R a b d).
Qed.

Lemma similar_from (t v : Z) : similar W t v → similar w t v.
Proof.
  intros (R & HR & Htv). exists (upTo w R).
  split; [by apply upTo_bisimulation|].
  exists t, v. split_and!; [apply similar_refl|by right|apply similar_refl].
Qed.

(** In a world of the pass the check says yes only to descriptors that
    are structurally equal in the first world, and never says no to
    them. *)
Lemma good_yes (fuel : nat) (t v : Z) (seen : memo) :
  typesEqual fuel W t v ∅ = Ret (true, seen) → similar w t v.
Proof. intros H. by apply similar_from, (equal_similar W fuel t v seen). Qed.

Lemma good_no (fuel : nat) (t v : Z) (seen : memo) :
  similar w t v → typesEqual fuel W t v ∅ ≠ Ret (false, seen).
Proof.
  intros (R & HR & Htv)%similar_into Hno.
  pose proof (typesEqual_accepts W R fuel t v ∅ HR (or_intror Htv)) as Hacc.
  by rewrite Hno in Hacc.
Qed.
End good_worlds.

(** ** The pass over any registry, for one class of descriptors *)

Lemma hashAt_fun (w : world) (t h1 h2 : Z) :
  hashAt w t h1 → hashAt w t h2 → h1 = h2.
Proof. intros (d & Hd & <-) (d' & Hd' & <-). congruence. Qed.

Lemma elem_of_insert_module (mds : list moduledata) (k : nat)
  (x md : moduledata) :
  md ∈ <[k := x]> mds → md = x ∨ md ∈ mds.
Proof.
  intros [l Hl]%list_elem_of_lookup.
  apply list_lookup_insert_Some in Hl as [(_ & -> & _)|[_ Hl]]; [by left|].
  right. by eapply list_elem_of_lookup_2.
Qed.

(** [firstEqual] returns the first candidate the check says equal to
    [t], the check having said no to each one before it. *)
Lemma firstEqual_first (fuel : nat) (w : world) (t : Z) (cands : list Z)
  (c : Z) :
  firstEqual fuel w t cands = Ret c →
  (c = t ∧ ∀ x, x ∈ cands → ∃ s, typesEqual fuel w t x ∅ = Ret (false, s))
  ∨ (∃ pre post s, cands = pre ++ c :: post
        ∧ typesEqual fuel w t c ∅ = Ret (true, s)
        ∧ ∀ x, x ∈ pre → ∃ s', typesEqual fuel w t x ∅ = Ret (false, s')).
Proof.
  induction cands as [|x cands IH]; simpl.
  - intros [= <-]. left. split; [done|]. intros x Hx.
    by apply not_elem_of_nil in Hx.
  - destruct (typesEqual fuel w t x ∅) as [[b s]| | | |] eqn:Hx; simpl;
      try done.
    destruct b.
    + intros [= <-]. right. exists [], cands, s. split_and!; [done|done|].
      intros y Hy. by apply not_elem_of_nil in Hy.
    + intros Hc.
      destruct (IH Hc) as [[-> Hall]|(pre & post & s' & -> & Htrue & Hpre)].
      * left. split; [done|]. intros y [->|Hy]%elem_of_cons;
          [by exists s|by apply Hall].
      * right. exists (x :: pre), post, s'. split_and!; [done|done|].
        intros y [->|Hy]%elem_of_cons; [by exists s|by apply Hpre].
Qed.

(** What [collect] appends to a bucket. *)
Lemma collect_more (w : world) (prev : moduledata) (tls : list Z)
  (th th' : buckets) :
  collect w prev tls th = Ret th' →
  ∀ h, ∃ more, bucket th' h = bucket th h ++ more
       ∧ ∀ x, x ∈ more →
           ∃ tl d, tl ∈ tls ∧ x = linked prev tl ∧ heap w !! x = Some d
                   ∧ hash (header (lay d)) = h.
Proof.
  revert th. induction tls as [|tl tls IH]; intros th; simpl.
  - intros [= <-] h. exists []. split; [by rewrite app_nil_r|].
    intros x Hx. by apply not_elem_of_nil in Hx.
  - destruct (deref w (linked prev tl)) as [d| | | |] eqn:Hd; simpl; try done.
    apply deref_Ret in Hd. case_bool_decide as Hin.
    + intros Hc h. destruct (IH th Hc h) as (more & Hmore & Hnew).
      exists more. split; [done|]. intros x Hx.
      destruct (Hnew x Hx) as (tl' & d' & Htl' & Hrest).
      exists tl', d'. split; [by right|done].
    + intros Hc h. destruct (IH _ Hc h) as (more & Hmore & Hnew).
      rewrite bucket_insert in Hmore.
      destruct (decide (hash (header (lay d)) = h)) as [<-|Hne].
      * exists (linked prev tl :: more). split.
        { rewrite Hmore. by rewrite <- app_assoc. }
        intros x [->|Hx]%elem_of_cons.
        -- exists tl, d. split_and!; [by left|done|done|done].
        -- destruct (Hnew x Hx) as (tl' & d' & Htl' & Hrest).
           exists tl', d'. split; [by right|done].
      * exists more. split; [done|]. intros x Hx.
        destruct (Hnew x Hx) as (tl' & d' & Htl' & Hrest).
        exists tl', d'. split; [by right|done].
Qed.

Lemma found_pick (w : world) (cands : list Z) (t c : Z) :
  found w cands t c → pick w cands t c.
Proof. by right. Qed.

Lemma found_elem_of (w : world) (cands : list Z) (t c : Z) :
  found w cands t c → c ∈ cands ∧ similar w t c.
Proof.
  intros (pre & post & -> & Hsim & _). split; [|done].
  apply elem_of_app. right. by left.
Qed.

Lemma found_fun (w : world) (cands : list Z) (t c c' : Z) :
  found w cands t c → found w cands t c' → c = c'.
Proof.
  intros (pre & post & -> & Hsim & Hpre) (pre' & post' & Heq & Hsim' & Hpre').
  revert pre' Heq Hpre Hpre'.
  induction pre as [|x pre IH]; intros [|x' pre'] Heq Hpre Hpre'; simpl in Heq.
  - by injection Heq as ->.
  - injection Heq as Hx _. exfalso. apply (Hpre' c); [subst; by left|done].
  - injection Heq as Hx _. exfalso. apply (Hpre c'); [subst; by left|done].
  - injection Heq as _ Heq. apply (IH pre' Heq).
    + intros y Hy. apply Hpre. by right.
    + intros y Hy. apply Hpre'. by right.
Qed.

Lemma pick_fun (w : world) (cands : list Z) (t c c' : Z) :
  pick w cands t c → pick w cands t c' → c = c'.
Proof.
  intros [[-> Hnone]|Hf] [[-> Hnone']|Hf'].
  - done.
  - exfalso. destruct (found_elem_of _ _ _ _ Hf') as [Hin Hsim].
    by apply (Hnone c').
  - exfalso. destruct (found_elem_of _ _ _ _ Hf) as [Hin Hsim].
    by apply (Hnone' c).
  - by apply (found_fun w cands t).
Qed.

Lemma found_app (w : world) (cands more : list Z) (t c : Z) :
  found w cands t c → found w (cands ++ more) t c.
Proof.
  intros (pre & post & -> & Hsim & Hpre).
  exists pre, (post ++ more). split_and!; [|done|done].
  by rewrite <- app_assoc.
Qed.

Lemma found_similar (w : world) (cands : list Z) (t t' c : Z) :
  similar w t t' → found w cands t c → found w cands t' c.
Proof.
  intros Htt (pre & post & -> & Hsim & Hpre).
  exists pre, post. split_and!; [done| |].
  - apply (similar_trans w t' t); [by apply similar_sym|done].
  - intros x Hx Hs. apply (Hpre x Hx).
    by apply (similar_trans w t t').
Qed.

(** Structural equality can be decided: by the check itself. *)
Lemma similar_dec (w : world) (t v : Z) : similar w t v ∨ ¬ similar w t v.
Proof.
  destruct (typesEqual (enough w) w t v ∅) as [[[] s]| | | |] eqn:H;
    [left; by apply (equal_similar w (enough w) t v s)|right..];
    intros [s' Hs]%similar_equal; congruence.
Qed.

Lemma found_exists (w : world) (cands : list Z) (t x : Z) :
  x ∈ cands → similar w t x → ∃ r, found w cands t r.
Proof.
  induction cands as [|y cands IH]; intros Hx Hsim;
    [by apply not_elem_of_nil in Hx|].
  destruct (similar_dec w t y) as [Hy|Hy].
  - exists y, [], cands. split_and!; [done|done|].
    intros z Hz. by apply not_elem_of_nil in Hz.
  - apply elem_of_cons in Hx as [->|Hx]; [done|].
    destruct (IH Hx Hsim) as (r & pre & post & -> & Hr & Hpre).
    exists r, (y :: pre), post. split_and!; [done|done|].
    intros z [->|Hz]%elem_of_cons; [done|by apply Hpre].
Qed.

Section fill.
Variable fuel : nat.
Variable w : world.
Variable th : buckets.
Variable k : nat.
Variable mk : moduledata.
Hypothesis Hfresh : untouched w.
Hypothesis HB1 : ∀ h' c, c ∈ bucket th h' → hashAt w c h'.
Hypothesis Hrange : ∀ o, o ∈ typelinks mk → own mk o ≤ etypes mk.

(** The search among the candidates of the hash, in a world of the
    pass. *)
Lemma search_entry (W : world) (o c : Z) (d : descriptor) :
  good w W → heap w !! own mk o = Some d →
  firstEqual fuel W (own mk o) (bucket th (hash (header (lay d)))) = Ret c →
  entryOK w th mk o c.
Proof.
  intros HW Hd Hf. exists d. split; [done|].
  destruct (firstEqual_first _ _ _ _ _ Hf)
    as [[-> Hall]|(pre & post & s & Hcands & Htrue & Hpre)].
  - left. split; [done|]. intros x Hx Hsim.
    destruct (Hall x Hx) as [s Hs].
    by apply (good_no w W Hfresh HW fuel (own mk o) x s).
  - right. exists pre, post. split_and!; [done| |].
    + by apply (good_yes w W Hfresh HW fuel (own mk o) c s).
    + intros x Hx Hsim. destruct (Hpre x Hx) as [s' Hs'].
      by apply (good_no w W Hfresh HW fuel (own mk o) x s').
Qed.

Lemma entryOK_similar (o c : Z) :
  entryOK w th mk o c → similar w (own mk o) c ∧ sameHash w (own mk o) c.
Proof.
  intros (d & Hd & [[-> _]|Hf]).
  - split; [apply similar_refl|]. exists (hash (header (lay d))).
    split; by exists d.
  - destruct (found_elem_of _ _ _ _ Hf) as [Hin Hsim]. split; [done|].
    exists (hash (header (lay d))). split; [by exists d|by apply HB1].
Qed.

Lemma storeModule_good (W : world) (tm : gmap Z Z) (o c : Z) :
  good w W → modules W !! k = Some (withTypemap tm mk) →
  o ∈ typelinks mk → similar w (own mk o) c →
  good w (storeModule W k (withTypemap (<[o := c]> tm) mk)).
Proof.
  intros [Hsame Hentries] Hk Ho Hsim. split.
  - apply (sameLayout_trans w W); [done|].
    by apply (sameLayout_store W k (withTypemap tm mk)).
  - intros md tm' o' c' Hmd Htm Hc Hc0. simpl in Hmd.
    apply elem_of_insert_module in Hmd as [->|Hmd];
      [|by apply (Hentries md tm')].
    simpl in Htm. injection Htm as <-.
    destruct (decide (o' = o)) as [->|Hne].
    + rewrite lookup_insert_eq in Hc. injection Hc as <-.
      split; [by apply Hrange|done].
    + rewrite lookup_insert_ne in Hc by done.
      apply (Hentries (withTypemap tm mk) tm o' c'); try done.
      by eapply list_elem_of_lookup_2.
Qed.

Lemma fill_entries (tls : list Z) (tm : gmap Z Z) (W W1 : world) :
  good w W → (∀ o, o ∈ tls → o ∈ typelinks mk) →
  modules W !! k = Some (withTypemap tm mk) →
  (∀ o c, tm !! o = Some c → entryOK w th mk o c) →
  fillTypemap fuel th k mk tls tm W = Ret W1 →
  ∃ tm', W1 = storeModule W k (withTypemap tm' mk) ∧ good w W1
         ∧ (∀ o c, tm' !! o = Some c → entryOK w th mk o c)
         ∧ (∀ o, o ∈ tls → is_Some (tm' !! o))
         ∧ (∀ o, is_Some (tm !! o) → is_Some (tm' !! o)).
Proof.
  revert tm W. induction tls as [|tl tls IH]; intros tm W HW Hsub Hk Hok; simpl.
  - intros [= <-]. exists tm. split_and!; [|done|done| |done].
    + symmetry. by apply storeModule_same.
    + intros o Ho. by apply not_elem_of_nil in Ho.
  - fold (own mk tl).
    destruct (deref W (own mk tl)) as [d| | | |] eqn:Hd; simpl; try done.
    apply deref_Ret in Hd.
    assert (Hheap : heap W = heap w) by (by destruct HW as [(_ & -> & _) _]).
    rewrite Hheap in Hd.
    destruct (firstEqual fuel W (own mk tl) (bucket th (hash (header (lay d)))))
      as [c| | | |] eqn:Hfirst; simpl; try done.
    intros Hfill.
    pose proof (search_entry W tl c d HW Hd Hfirst) as Hentry.
    set (tm1 := <[tl := c]> tm) in *.
    set (W2 := storeModule W k (withTypemap tm1 mk)) in *.
    assert (Hlen : (k < length (modules W))%nat) by (by eapply lookup_lt_Some).
    assert (HW2 : good w W2).
    { apply storeModule_good; [done|done|apply Hsub; by left|].
      by destruct (entryOK_similar tl c Hentry). }
    assert (Hk2 : modules W2 !! k = Some (withTypemap tm1 mk)).
    { unfold W2. simpl. by apply list_lookup_insert_eq. }
    assert (Hok1 : ∀ o c', tm1 !! o = Some c' → entryOK w th mk o c').
    { intros o c' Hc. unfold tm1 in Hc.
      destruct (decide (o = tl)) as [->|Hne].
      - rewrite lookup_insert_eq in Hc. by injection Hc as <-.
      - rewrite lookup_insert_ne in Hc by done. by apply Hok. }
    destruct (IH tm1 W2 HW2 ltac:(intros o Ho; apply Hsub; by right) Hk2 Hok1
                Hfill) as (tm' & -> & HW1 & Hok' & Hin & Hkeep).
    exists tm'. split_and!; [|done|done| |].
    + unfold W2. by rewrite storeModule_twice.
    + intros o [->|Ho]%elem_of_cons; [|by apply Hin].
      apply Hkeep. unfold tm1. rewrite lookup_insert_eq. by eexists.
    + intros o Ho. apply Hkeep. unfold tm1.
      destruct (decide (o = tl)) as [->|Hne];
        [rewrite lookup_insert_eq; by eexists|by rewrite lookup_insert_ne].
Qed.
End fill.

Lemma typelinksinit_few (fuel : nat) (w : world) :
  (length (modules w) < 2)%nat → typelinksinit fuel w = Ret w.
Proof.
  intros Hlen. unfold typelinksinit.
  destruct (modules w) as [|a [|b rest]]; simpl in Hlen; [done|done|lia].
Qed.

Section any_class.
Variable fuel : nat.
Variable w : world.
Variable m : nat.
Variable mm : moduledata.
Variable om : Z.
Variables t0 h : Z.
Hypothesis Hfresh : untouched w.
Hypothesis Hrange :
  ∀ md o, md ∈ modules w → o ∈ typelinks md → own md o ≤ etypes md.
Hypothesis Hmm : modules w !! m = Some mm.
Hypothesis Hom : om ∈ typelinks mm.
Hypothesis Ht0 : t0 = own mm om.
Hypothesis Hh : hashAt w t0 h.

Lemma untouched_lookup (l : nat) (md : moduledata) :
  modules w !! l = Some md → typemap md = None.
Proof.
  intros Hmd. unfold untouched in Hfresh.
  by eapply Forall_lookup_1 in Hfresh; [|exact Hmd].
Qed.

Lemma untouched_good : good w w.
Proof.
  split; [apply sameLayout_refl|].
  intros md tm o c [l Hmd]%list_elem_of_lookup Htm.
  by rewrite (untouched_lookup l md Hmd) in Htm.
Qed.

Lemma deduped_start : deduped w t0 h m mm om 1 ∅ w.
Proof.
  split_and!; [apply untouched_good|done|intros; lia| | |intros; lia].
  - intros h' c Hc. unfold bucket in Hc. rewrite lookup_empty in Hc.
    by apply not_elem_of_nil in Hc.
  - intros Hm. assert (m = 0%nat) as Hm0 by lia.
    assert (Hlinked : ∀ o, linked mm o = own mm o).
    { intros o. unfold linked. by rewrite (untouched_lookup m mm Hmm). }
    exists t0. split_and!; [apply similar_refl|done| | |].
    + left. split; [done|]. intros x Hx.
      unfold bucket in Hx. rewrite lookup_empty in Hx.
      by apply not_elem_of_nil in Hx.
    + intros md Hmd. rewrite Hmm in Hmd. injection Hmd as <-.
      by rewrite Hlinked.
    + intros Hsole md o Hmd Ho Hin. rewrite Hmm in Hmd. injection Hmd as <-.
      rewrite Hlinked. by apply Hsole.
Qed.

(** What a typelink of a module before module [k] stands for is
    structurally equal to its descriptor and of the same hash. *)
Lemma linked_own (k : nat) (th : buckets) (Wk : world) (l : nat)
  (md : moduledata) (o h' : Z) :
  deduped w t0 h m mm om k th Wk → (l < k)%nat → modules Wk !! l = Some md →
  o ∈ typelinks md → hashAt w (linked md o) h' →
  similar w (own md o) (linked md o) ∧ hashAt w (own md o) h'.
Proof.
  intros (HW & Hkeep & HE & _) Hl Hmd Ho Hh'.
  destruct (decide (l = 0%nat)) as [->|Hl0].
  - rewrite Hkeep in Hmd by lia.
    unfold linked in *. rewrite (untouched_lookup 0 md Hmd) in *.
    fold (own md o) in *. split; [apply similar_refl|done].
  - destruct (HE l md o ltac:(lia) Hmd Ho)
      as (tm & c & Htm & Hc & Hsim & (h'' & Hh1 & Hh2)).
    unfold linked in *. rewrite Htm, Hc in *. simpl in *.
    split; [done|]. by rewrite (hashAt_fun w c h' h'' Hh' Hh2).
Qed.

Lemma deduped_step (k : nat) (th th1 : buckets) (Wk W1 : world)
  (prev mk : moduledata) :
  (1 ≤ k)%nat → deduped w t0 h m mm om k th Wk →
  modules Wk !! (k - 1)%nat = Some prev → modules w !! k = Some mk →
  collect Wk prev (typelinks prev) th = Ret th1 →
  fillTypemap fuel th1 k mk (typelinks mk) ∅
    (storeModule Wk k (withTypemap ∅ mk)) = Ret W1 →
  deduped w t0 h m mm om (S k) th1 W1.
Proof.
  intros Hk Hstate Hprev Hmk Hcol Hfill.
  pose proof Hstate as (HW & Hkeep & HE & HB1 & HK1 & HK2).
  assert (Hheap : heap Wk = heap w) by (by destruct HW as [(_ & -> & _) _]).
  destruct (collect_spec _ _ _ _ _ Hcol) as (_ & _ & Call).
  pose proof (collect_more _ _ _ _ _ Hcol) as Cmore.
  assert (HB1' : ∀ h' c, c ∈ bucket th1 h' → hashAt w c h').
  { intros h' c Hc. destruct (Cmore h') as (more & Hmore & Hnew).
    rewrite Hmore in Hc. apply elem_of_app in Hc as [Hc|Hc]; [by apply HB1|].
    destruct (Hnew c Hc) as (tl & d & _ & _ & Hd & Hhd).
    exists d. by rewrite <- Hheap. }
  assert (Hwk_k : modules Wk !! k = Some mk) by (rewrite Hkeep; [done|lia]).
  assert (Hlen : (k < length (modules Wk))%nat) by (by eapply lookup_lt_Some).
  set (W0 := storeModule Wk k (withTypemap ∅ mk)) in *.
  assert (HW0 : good w W0).
  { destruct HW as [Hsame Hentries]. split.
    - apply (sameLayout_trans w Wk); [done|].
      by apply (sameLayout_store Wk k mk).
    - intros md tm o c Hmd Htm Hc. simpl in Hmd.
      apply elem_of_insert_module in Hmd as [->|Hmd];
        [|by apply (Hentries md tm)].
      simpl in Htm. injection Htm as <-. by rewrite lookup_empty in Hc. }
  assert (Hk0 : modules W0 !! k = Some (withTypemap ∅ mk)).
  { unfold W0. simpl. by apply list_lookup_insert_eq. }
  assert (Hmk_in : mk ∈ modules w) by (by eapply list_elem_of_lookup_2).
  destruct (fill_entries fuel w th1 k mk Hfresh HB1'
              (λ o Ho, Hrange mk o Hmk_in Ho) (typelinks mk) ∅ W0 W1 HW0
              ltac:(done) Hk0 ltac:(intros o c Hc; by rewrite lookup_empty in Hc)
              Hfill) as (tm' & HW1eq & HW1 & Hok & Hall & _).
  assert (HW1' : W1 = storeModule Wk k (withTypemap tm' mk)).
  { rewrite HW1eq. apply storeModule_twice. }
  assert (Hother : ∀ l, l ≠ k → modules W1 !! l = modules Wk !! l).
  { intros l Hl. rewrite HW1'. simpl. by apply list_lookup_insert_ne. }
  assert (Hthis : modules W1 !! k = Some (withTypemap tm' mk)).
  { rewrite HW1'. simpl. by apply list_lookup_insert_eq. }
  assert (Hentry : ∀ o c, o ∈ typelinks mk → tm' !! o = Some c →
            inClass w t0 h (own mk o) → pick w (bucket th1 h) (own mk o) c).
  { intros o c Ho Hc [_ Hho]. destruct (Hok o c Hc) as (d & Hd & Hpick).
    by rewrite (hashAt_fun w (own mk o) _ h ltac:(by exists d) Hho) in Hpick. }
  assert (Hlinked : ∀ o c, tm' !! o = Some c →
            linked (withTypemap tm' mk) o = c).
  { intros o c Hc. unfold linked. simpl. by rewrite Hc. }
  assert (Hclass : ∀ r md o, found w (bucket th1 h) t0 r →
            modules W1 !! k = Some md → o ∈ typelinks md →
            inClass w t0 h (own md o) → linked md o = r).
  { intros r md o Hfound Hmd Ho Hin.
    rewrite Hthis in Hmd. injection Hmd as <-. simpl in Ho.
    change (own (withTypemap tm' mk) o) with (own mk o) in Hin.
    destruct (Hall o Ho) as [c Hc]. rewrite (Hlinked o c Hc).
    apply (pick_fun w (bucket th1 h) (own mk o));
      [by apply Hentry|].
    right. apply (found_similar w _ t0); [|done].
    apply similar_sym. by destruct Hin. }
  split_and!; [done| | |done| |].
  - intros l Hl. rewrite Hother by lia. apply Hkeep. lia.
  - intros l md o Hl Hmd Ho. destruct (decide (l = k)) as [->|Hne].
    + rewrite Hthis in Hmd. injection Hmd as <-. simpl in Ho.
      destruct (Hall o Ho) as [c Hc].
      destruct (entryOK_similar w th1 mk HB1' o c (Hok o c Hc))
        as [Hsim Hsame].
      by exists tm', c.
    + rewrite Hother in Hmd by done. apply (HE l md o); [lia|done|done].
  - intros Hkm. assert (k = m) as -> by lia.
    rewrite Hmm in Hmk. injection Hmk as <-.
    destruct (Hall om Hom) as [c Hc].
    assert (Hin0 : inClass w t0 h (own mm om)).
    { rewrite <- Ht0. split; [apply similar_refl|done]. }
    pose proof (Hentry om c Hom Hc Hin0) as Hpick. rewrite <- Ht0 in Hpick.
    destruct (entryOK_similar w th1 mm HB1' om c (Hok om c Hc))
      as [Hsim (h' & Hh1 & Hh2)].
    rewrite <- Ht0 in Hsim, Hh1.
    rewrite (hashAt_fun w t0 h' h Hh1 Hh) in Hh2.
    exists c. split_and!; [done|done|done| |].
    + intros md Hmd. rewrite Hthis in Hmd. injection Hmd as <-.
      by apply Hlinked.
    + intros Hsole md o Hmd Ho Hin.
      rewrite Hthis in Hmd. injection Hmd as <-. simpl in Ho.
      change (own (withTypemap tm' mm) o) with (own mm o) in Hin.
      destruct (Hall o Ho) as [c' Hc']. rewrite (Hlinked o c' Hc').
      pose proof (Hentry o c' Ho Hc' Hin) as Hpick'.
      rewrite (Hsole o Ho Hin) in Hpick'.
      by apply (pick_fun w (bucket th1 h) t0).
  - intros Hlt. destruct (Cmore h) as (more & Hmore & Hnew).
    destruct (decide (k = S m)) as [Hkm|Hne].
    + destruct (HK1 Hkm) as (c & Hsim & Hhc & Hpick & Hm & Hsole).
      subst k. replace (S m - 1)%nat with m in Hprev by lia.
      destruct HW as [Hsame _].
      pose proof Hsame as (_ & _ & _ & _ & _ & Hf).
      apply Forall2_same_length_lookup in Hf as [_ Hf].
      destruct (sameModule_fields mm prev (Hf m mm prev Hmm Hprev))
        as (Htypes & _ & Hlinks).
      destruct (Call om ltac:(by rewrite <- Hlinks)) as (d & Hd & Hin).
      rewrite (Hm prev Hprev), Hheap in Hd. rewrite (Hm prev Hprev) in Hin.
      rewrite (hashAt_fun w c _ h ltac:(by exists d) Hhc) in Hin.
      destruct (found_exists w (bucket th1 h) t0 c Hin Hsim) as [r Hfound].
      destruct (found_elem_of _ _ _ _ Hfound) as [Hrin Hrsim].
      exists r. split_and!; [done|by apply HB1'|done| |].
      * intros l md o Hl Hmd Ho Hcl. assert (l = S m) as -> by lia.
        by apply Hclass.
      * intros Hs md o Hmd Ho Hcl. rewrite Hother in Hmd by lia.
        rewrite (Hsole Hs md o Hmd Ho Hcl).
        destruct Hpick as [[-> Hnone]|Hf'].
        -- rewrite Hmore in Hrin. apply elem_of_app in Hrin as [Hrin|Hrin];
             [by destruct (Hnone r Hrin)|].
           destruct (Hnew r Hrin) as (tl & d' & Htl & -> & Hd' & Hhd').
           rewrite Hheap in Hd'.
           destruct (linked_own (S m) th Wk m prev tl h Hstate ltac:(lia)
                       Hprev Htl ltac:(by exists d')) as [Hs' Hh'].
           symmetry. apply (Hsole Hs prev tl Hprev Htl).
           split; [|done].
           apply (similar_trans w _ (linked prev tl)); [done|].
           by apply similar_sym.
        -- apply (found_fun w (bucket th1 h) t0); [|done].
           rewrite Hmore. by apply found_app.
    + destruct HK2 as (r & Hsim & Hhr & Hfound & HC & Hsole); [lia|].
      assert (Hfound' : found w (bucket th1 h) t0 r).
      { rewrite Hmore. by apply found_app. }
      exists r. split_and!; [done|done|done| |].
      * intros l md o Hl Hmd Ho Hcl. destruct (decide (l = k)) as [->|Hne3].
        -- by apply Hclass.
        -- rewrite Hother in Hmd by done.
           apply (HC l md o); [lia|done|done|done].
      * intros Hs md o Hmd Ho Hcl. rewrite Hother in Hmd by lia.
        by apply (Hsole Hs md o).
Qed.

Lemma deduped_loop (n k : nat) (th : buckets) (Wk w' : world) :
  (n + k = length (modules w))%nat → (1 ≤ k)%nat →
  deduped w t0 h m mm om k th Wk →
  dedupLoop fuel n k th Wk = Ret w' →
  ∃ th', deduped w t0 h m mm om (length (modules w)) th' w'.
Proof.
  revert k th Wk. induction n as [|n IH]; intros k th Wk Hn Hk Hstate.
  - simpl. intros [= <-]. exists th. simpl in Hn. by rewrite <- Hn.
  - simpl. unfold activeModules.
    pose proof Hstate as ([Hsame _] & Hkeep & _).
    destruct Hsame as (_ & _ & _ & _ & _ & Hf).
    apply Forall2_length in Hf.
    destruct (lookup_lt_is_Some_2 (modules Wk) (k - 1)) as [prev Hprev];
      [lia|].
    destruct (lookup_lt_is_Some_2 (modules w) k) as [mk Hmk]; [lia|].
    rewrite Hprev, Hkeep, Hmk by lia.
    destruct (collect Wk prev (typelinks prev) th) as [th1| | | |] eqn:Hcol;
      simpl; try done.
    rewrite (untouched_lookup k mk Hmk).
    destruct (fillTypemap fuel th1 k mk (typelinks mk) ∅
                (storeModule Wk k (withTypemap ∅ mk)))
      as [W1| | | |] eqn:Hfill; simpl; try done.
    pose proof (deduped_step k th th1 Wk W1 prev mk Hk Hstate Hprev Hmk
                  Hcol Hfill) as Hstate1.
    apply IH; [lia|lia|done].
Qed.

Lemma deduped_end (w' : world) :
  typelinksinit fuel w = Ret w' →
  ∃ th', deduped w t0 h m mm om (length (modules w)) th' w'.
Proof.
  intros Hinit.
  assert (Hlen : (1 ≤ length (modules w))%nat).
  { apply lookup_lt_Some in Hmm. lia. }
  destruct (decide (2 ≤ length (modules w))%nat) as [Hlen2|Hlen1].
  - rewrite typelinksinit_loop in Hinit by done.
    apply (deduped_loop (length (modules w) - 1) 1 ∅ w w'); [lia|lia| |done].
    apply deduped_start.
  - rewrite typelinksinit_few in Hinit by lia. injection Hinit as <-.
    exists ∅. replace (length (modules w)) with 1%nat by lia.
    apply deduped_start.
Qed.

(** What [resolveTypeOff] returns after the pass for a typelink: what the
    typelink stands for. *)
Lemma resolve_linked (th : buckets) (w' : world) (l : nat) (ml : moduledata)
  (o base : Z) (d : descriptor) :
  heap w !! 0 = None →
  deduped w t0 h m mm om (length (modules w)) th w' →
  modules w !! l = Some ml → o ∈ typelinks ml → o ≠ 0 →
  heap w !! own ml o = Some d → owns (modules w) l base →
  ∃ md', modules w' !! l = Some md' ∧ o ∈ typelinks md'
         ∧ own md' o = own ml o
         ∧ resolveTypeOff w' base o = Ret (linked md' o)
         ∧ similar w (own ml o) (linked md' o)
         ∧ hashAt w (linked md' o) (hash (header (lay d))).
Proof.
  intros Hnil ([Hsame _] & Hkeep & HE & _) Hml Ho Ho0 Hd Howns.
  pose proof Hsame as (_ & _ & _ & _ & _ & Hf).
  pose proof (owns_sameLayout _ _ _ _ Hf Howns) as Howns'.
  assert (Hlt : (l < length (modules w))%nat) by (by eapply lookup_lt_Some).
  pose proof (untouched_lookup l ml Hml) as Hnone.
  assert (Hin : ml ∈ modules w) by (by eapply list_elem_of_lookup_2).
  destruct (decide (l = 0%nat)) as [->|Hl].
  - assert (Hml' : modules w' !! 0%nat = Some ml) by (rewrite Hkeep; [done|lia]).
    assert (Hlinked : linked ml o = own ml o).
    { unfold linked, own. by rewrite Hnone. }
    exists ml. rewrite Hlinked. split_and!; [done|done|done| | |by exists d].
    + apply (resolveTypeOff_plain w' base o 0 ml); try done. by apply Hrange.
    + apply similar_refl.
  - apply Forall2_same_length_lookup in Hf as [Hlen Hf].
    destruct (lookup_lt_is_Some_2 (modules w') l) as [md' Hmd'];
      [by rewrite <- Hlen|].
    destruct (sameModule_fields ml md' (Hf l ml md' Hml Hmd'))
      as (Htypes & _ & Hlinks).
    assert (Hown : own md' o = own ml o) by (unfold own; by rewrite Htypes).
    destruct (HE l md' o ltac:(lia) Hmd' ltac:(by rewrite <- Hlinks))
      as (tm & c & Htm & Hc & Hsim & (h' & Hh1 & Hh2)).
    rewrite Hown in Hsim, Hh1.
    assert (Hhash : h' = hash (header (lay d))).
    { apply (hashAt_fun w (own ml o)); [done|by exists d]. }
    subst h'.
    assert (Hc0 : c ≠ 0).
    { intros ->. destruct Hh2 as (d0 & Hd0 & _). by rewrite Hnil in Hd0. }
    assert (Hlinked : linked md' o = c).
    { unfold linked. by rewrite Htm, Hc. }
    exists md'. rewrite Hlinked.
    split_and!; [done|by rewrite <- Hlinks|done| |done|done].
    by apply (resolveTypeOff_override w' base o l md' tm c).
Qed.
End any_class.

(** C1, amended. Let the pass run to its end over a registry none of
    whose modules had an override map, with no descriptor at the nil
    address and every typelink designating a descriptor not above the end
    of the types of its module.  Take two descriptors that store the same
    hash and that [typesEqual] reports equal, linked at the non-zero
    offsets [oi] and [oj] by the modules [i] and [j], module [i] being
    the earlier of the two or the same; and let a module before [i] link
    a descriptor that stores this hash and that [typesEqual] reports
    equal to them, or else let the descriptor at [oi] be the only such
    descriptor that module [i] links.  Then every later [resolveTypeOff]
    for [oi] in module [i] and for [oj] in module [j] returns one and the
    same address, that of a descriptor of this hash that [typesEqual]
    reports equal to both. *)
Theorem dedup_resolves_to_one (fuel : nat) (w w' : world) (i j : nat)
  (mi mj : moduledata) (oi oj : Z) (di dj : descriptor) (ci cj : Z) :
  typelinksinit fuel w = Ret w' →
  Forall (λ md, typemap md = None) (modules w) →
  heap w !! 0 = None →
  (∀ md o, md ∈ modules w → o ∈ typelinks md → own md o ≤ etypes md) →
  (i ≤ j)%nat →
  modules w !! i = Some mi → modules w !! j = Some mj →
  oi ∈ typelinks mi → oj ∈ typelinks mj →
  oi ≠ 0 → oj ≠ 0 →
  heap w !! own mi oi = Some di → heap w !! own mj oj = Some dj →
  hash (header (lay di)) = hash (header (lay dj)) →
  equalIn w (own mi oi) (own mj oj) →
  (∃ l ml o, (l < i)%nat ∧ modules w !! l = Some ml ∧ o ∈ typelinks ml
             ∧ hashAt w (own ml o) (hash (header (lay di)))
             ∧ equalIn w (own ml o) (own mi oi))
  ∨ (∀ o, o ∈ typelinks mi →
       hashAt w (own mi o) (hash (header (lay di))) →
       equalIn w (own mi o) (own mi oi) → own mi o = own mi oi) →
  owns (modules w) i ci → owns (modules w) j cj →
  ∃ c, resolveTypeOff w' ci oi = Ret c ∧ resolveTypeOff w' cj oj = Ret c
       ∧ equalIn w (own mi oi) c ∧ equalIn w (own mj oj) c
       ∧ hashAt w c (hash (header (lay di))).
Proof.
  intros Hinit Hfresh Hnil Hrange Hij Hmi Hmj Hoi Hoj Hoi0 Hoj0 Hdi Hdj Hhash
    Hequal Hfirst Hci Hcj.
  set (h := hash (header (lay di))) in *.
  apply equalIn_similar in Hequal.
  assert (Hhi : hashAt w (own mi oi) h) by (by exists di).
  assert (Hhj : hashAt w (own mj oj) h).
  { exists dj. split; [done|]. by rewrite <- Hhash. }
  assert (Hlen : (j < length (modules w))%nat) by (by eapply lookup_lt_Some).
  assert (Hsame : ∃ m mm om t0 th' mi' mj',
            deduped w t0 h m mm om (length (modules w)) th' w'
            ∧ modules w' !! i = Some mi' ∧ oi ∈ typelinks mi'
            ∧ modules w' !! j = Some mj' ∧ oj ∈ typelinks mj'
            ∧ own mi' oi = own mi oi ∧ own mj' oj = own mj oj
            ∧ linked mi' oi = linked mj' oj
            ∧ untouched w).
  { destruct Hfirst as [(l & ml & o & Hl & Hml & Ho & Hho & Heq)|Hsole].
    - apply equalIn_similar in Heq.
      destruct (deduped_end fuel w l ml o (own ml o) h Hfresh Hrange Hml Ho
                  eq_refl Hho w' Hinit) as (th' & Hstate).
      destruct (resolve_linked w l ml o (own ml o) h Hfresh Hrange th' w' i
                  mi oi ci di Hnil Hstate Hmi Hoi Hoi0 Hdi Hci)
        as (mi' & Hmi' & Hoi' & Howni & _).
      destruct (resolve_linked w l ml o (own ml o) h Hfresh Hrange th' w' j
                  mj oj cj dj Hnil Hstate Hmj Hoj Hoj0 Hdj Hcj)
        as (mj' & Hmj' & Hoj' & Hownj & _).
      exists l, ml, o, (own ml o), th', mi', mj'.
      split_and!; try done.
      pose proof Hstate as (_ & _ & _ & _ & _ & HK2).
      destruct HK2 as (r & _ & _ & _ & HC & _); [lia|].
      rewrite (HC i mi' oi), (HC j mj' oj); [done|lia|done|done| |lia|done|done|].
      + rewrite Hownj. split; [|done].
        apply (similar_trans w _ (own mi oi)); by apply similar_sym.
      + rewrite Howni. split; [by apply similar_sym|done].
    - destruct (deduped_end fuel w i mi oi (own mi oi) h Hfresh Hrange Hmi Hoi
                  eq_refl Hhi w' Hinit) as (th' & Hstate).
      destruct (resolve_linked w i mi oi (own mi oi) h Hfresh Hrange th' w' i
                  mi oi ci di Hnil Hstate Hmi Hoi Hoi0 Hdi Hci)
        as (mi' & Hmi' & Hoi' & Howni & _).
      destruct (resolve_linked w i mi oi (own mi oi) h Hfresh Hrange th' w' j
                  mj oj cj dj Hnil Hstate Hmj Hoj Hoj0 Hdj Hcj)
        as (mj' & Hmj' & Hoj' & Hownj & _).
      exists i, mi, oi, (own mi oi), th', mi', mj'.
      split_and!; try done.
      assert (Hs : sole w (own mi oi) h mi).
      { intros o Ho [Hsim Hho]. apply (Hsole o Ho Hho).
        by apply equalIn_similar. }
      assert (Hini : inClass w (own mi oi) h (own mi' oi)).
      { rewrite Howni. split; [apply similar_refl|done]. }
      assert (Hinj : inClass w (own mi oi) h (own mj' oj)).
      { rewrite Hownj. split; [by apply similar_sym|done]. }
      pose proof Hstate as (_ & _ & _ & _ & HK1 & HK2).
      destruct (decide (length (modules w) = S i)) as [Hlast|Hmore].
      + assert (j = i) as -> by lia.
        destruct (HK1 Hlast) as (c & _ & _ & _ & _ & Hall).
        by rewrite (Hall Hs mi' oi), (Hall Hs mj' oj).
      + destruct HK2 as (r & _ & _ & _ & HC & Hall); [lia|].
        rewrite (Hall Hs mi' oi) by done.
        destruct (decide (j = i)) as [->|Hne].
        * by rewrite (Hall Hs mj' oj).
        * rewrite (HC j mj' oj); [done|lia|done|done|done]. }
  destruct Hsame as (m & mm & om & t0 & th' & mi' & mj' & Hstate & Hmi' & Hoi'
                     & Hmj' & Hoj' & Howni & Hownj & Hlinked & Hunt).
  destruct (resolve_linked w m mm om t0 h Hunt Hrange th' w' i mi oi ci di
              Hnil Hstate Hmi Hoi Hoi0 Hdi Hci)
    as (mi2 & Hmi2 & _ & _ & Hres & Hsim & Hhc).
  destruct (resolve_linked w m mm om t0 h Hunt Hrange th' w' j mj oj cj dj
              Hnil Hstate Hmj Hoj Hoj0 Hdj Hcj)
    as (mj2 & Hmj2 & _ & _ & Hres' & Hsim' & _).
  rewrite Hmi' in Hmi2. injection Hmi2 as <-.
  rewrite Hmj' in Hmj2. injection Hmj2 as <-.
  rewrite <- Hlinked in Hres', Hsim'.
  exists (linked mi' oi). split_and!; [done|done| | |done].
  - by apply equalIn_similar.
  - by apply equalIn_similar.
Qed.

(** The pass compares the descriptors of a module with those of the
    modules before it only, never with one another: in [Twins.world2]
    the first module links two descriptors of [bool]; the one linked by
    the second module is reported equal to both and stores their hash,
    the pass sends it to the first of the two, and the typelink of the
    other still resolves to the other. *)
Lemma dedup_keeps_module_duplicates :
  (∃ seen, typesEqual 1 Twins.world2 4144 12304 ∅ = Ret (true, seen))
  ∧ hashAt Twins.world2 4144 1 ∧ hashAt Twins.world2 12304 1
  ∧ own Twins.first 48 = 4144 ∧ own (Hashes.module 12288) 16 = 12304
  ∧ ∃ w', typelinksinit 1 Twins.world2 = Ret w'
          ∧ resolveTypeOff w' 4144 48 = Ret 4144
          ∧ resolveTypeOff w' 12304 16 = Ret 4112.
Proof.
  split; [eexists; vm_compute; reflexivity|].
  split; [eexists; split; vm_compute; reflexivity|].
  split; [eexists; split; vm_compute; reflexivity|].
  split; [reflexivity|]. split; [reflexivity|].
  eexists. split; [vm_compute; reflexivity|].
  split; vm_compute; reflexivity.
Qed.

Lemma methods_owns (l : nat) (base : Z) :
  (l < 3)%nat →
  4096 + 8192 * Z.of_nat l ≤ base < 8192 + 8192 * Z.of_nat l →
  owns (modules Methods.world3) l base.
Proof.
  intros Hl Hbase. split.
  - destruct l as [|[|[|l]]]; [| | |lia]; eexists; (split; [reflexivity|]);
      simpl; lia.
  - intros l' ml Hl' Hml.
    destruct l' as [|[|[|l']]]; simpl in Hml; [| | |done];
      injection Hml as <-; simpl; lia.
Qed.

Lemma methods_range (md : moduledata) (o : Z) :
  md ∈ modules Methods.world3 → o ∈ typelinks md → own md o ≤ etypes md.
Proof.
  intros Hmd Ho. simpl in Hmd.
  repeat (apply elem_of_cons in Hmd as [->|Hmd]);
    [| | |by apply not_elem_of_nil in Hmd];
    simpl in Ho;
    repeat (apply elem_of_cons in Ho as [->|Ho]);
    try (by apply not_elem_of_nil in Ho); vm_compute; discriminate.
Qed.

Lemma methods_unique (o : Z) :
  o ∈ typelinks (Methods.module 12288) →
  hashAt Methods.world3 (own (Methods.module 12288) o) 5 →
  own (Methods.module 12288) o = own (Methods.module 12288) 48.
Proof.
  intros Ho (d & Hd & Hh). simpl in Ho.
  repeat (apply elem_of_cons in Ho as [->|Ho]);
    try (by apply not_elem_of_nil in Ho);
    try reflexivity;
    vm_compute in Hd; injection Hd as <-; vm_compute in Hh; discriminate.
Qed.

Lemma dedup_resolves_to_one_witness :
  ∃ w' c, typelinksinit 5 Methods.world3 = Ret w'
          ∧ resolveTypeOff w' 12336 48 = Ret c
          ∧ resolveTypeOff w' 20528 48 = Ret c
          ∧ equalIn Methods.world3 12336 c.
Proof.
  assert (Hrun : ∃ w', typelinksinit 5 Methods.world3 = Ret w').
  { eexists. vm_compute. reflexivity. }
  destruct Hrun as [w' Hw'].
  assert (Hfresh : Forall (λ md, typemap md = None) (modules Methods.world3)).
  { repeat constructor. }
  assert (Hnil : heap Methods.world3 !! 0 = None) by reflexivity.
  assert (Hin : 48 ∈ typelinks (Methods.module 12288)
                ∧ 48 ∈ typelinks (Methods.module 20480)).
  { split; right; right; left. }
  assert (Hdi : heap Methods.world3 !! own (Methods.module 12288) 48
                = Some (Methods.validator 12288)).
  { vm_compute. reflexivity. }
  assert (Hdj : heap Methods.world3 !! own (Methods.module 20480) 48
                = Some (Methods.validator 20480)).
  { vm_compute. reflexivity. }
  assert (Hequal : equalIn Methods.world3 (own (Methods.module 12288) 48)
                     (own (Methods.module 20480) 48)).
  { exists 5%nat. eexists. vm_compute. reflexivity. }
  assert (H48 : (48 : Z) ≠ 0) by lia.
  destruct (dedup_resolves_to_one 5 Methods.world3 w' 1 2
              (Methods.module 12288) (Methods.module 20480) 48 48
              (Methods.validator 12288) (Methods.validator 20480)
              12336 20528 Hw' Hfresh Hnil methods_range (le_S 1 1 (le_n 1))
              eq_refl eq_refl
              (proj1 Hin) (proj2 Hin) H48 H48 Hdi Hdj eq_refl Hequal
              (or_intror (λ o Ho Hh _, methods_unique o Ho Hh))
              (methods_owns 1 12336 ltac:(lia) ltac:(lia))
              (methods_owns 2 20528 ltac:(lia) ltac:(lia)))
    as (c & Hi & Hj & Heq & _).
  exists w', c. exact (conj Hw' (conj Hi (conj Hj Heq))).
Defined.

(** * Further properties *)

(** ** The resolvers inside a module and in the registry *)

(** X1. For a non-zero offset and a context address owned by a module,
    [resolveNameOff] returns the start of the module's types plus the
    offset when that address is at most the end of the types, the end
    itself included, and throws above it; nothing is checked below the
    start, and the registry of run-time objects plays no part. *)
Theorem resolveNameOff_owned (w : world) (base off : Z) (i : nat)
  (md : moduledata) :
  off ≠ 0 → owns (modules w) i base → modules w !! i = Some md →
  (own md off ≤ etypes md → resolveNameOff w base off = Ret (own md off))
  ∧ (etypes md < own md off →
     resolveNameOff w base off = Throw "runtime: name offset out of range")
  ∧ (∀ m, resolveNameOff (withRegistry m w) base off
          = resolveNameOff w base off).
Proof.
  intros Hoff%Z.eqb_neq Howns Hmd.
  assert (Hres : ∀ w0, modules w0 = modules w →
            resolveNameOff w0 base off
            = if etypes md <? own md off
              then Throw "runtime: name offset out of range"
              else Ret (own md off)).
  { intros w0 Hw0. unfold resolveNameOff.
    rewrite Hoff, Hw0, (findmodule_owns _ _ _ Howns), Hmd. done. }
  split_and!.
  - intros Hin. rewrite Hres by done.
    destruct (etypes md <? own md off) eqn:Hlt; [lia|done].
  - intros Hout. rewrite Hres by done.
    destruct (etypes md <? own md off) eqn:Hlt; [done|lia].
  - intros m. by rewrite !Hres.
Qed.

(** A negative offset: the name 16 bytes before the types of the second
    module of [Cyclic.world2]. *)
Lemma resolveNameOff_owned_witness :
  resolveNameOff Cyclic.world2 12304 (-16) = Ret 12272
  ∧ 12272 < types (Cyclic.module 12288).
Proof.
  split; [|simpl; lia].
  assert (Howns : owns (modules Cyclic.world2) 1 12304).
  { split.
    - exists (Cyclic.module 12288). split; [reflexivity|]. simpl. lia.
    - intros l ml Hl Hml. destruct l as [|l]; [|lia].
      simpl in Hml. injection Hml as <-. simpl. lia. }
  apply (proj1 (resolveNameOff_owned Cyclic.world2 12304 (-16) 1
                  (Cyclic.module 12288) ltac:(lia) Howns eq_refl)).
  vm_compute. discriminate.
Defined.

(** X2. For a non-zero offset and a context address owned by a module,
    [resolveTypeOff] returns the entry of the module's override map when
    there is one that is not nil, whether or not the offset is within the
    module's types; without such an entry it returns the start of the
    types plus the offset up to the end of the types, the end included,
    and throws above it. *)
Theorem resolveTypeOff_owned (w : world) (base off : Z) (i : nat)
  (md : moduledata) :
  off ≠ 0 → owns (modules w) i base → modules w !! i = Some md →
  (override md off ≠ 0 → resolveTypeOff w base off = Ret (override md off))
  ∧ (override md off = 0 → own md off ≤ etypes md →
     resolveTypeOff w base off = Ret (own md off))
  ∧ (override md off = 0 → etypes md < own md off →
     resolveTypeOff w base off = Throw "runtime: type offset out of range").
Proof.
  intros Hoff%Z.eqb_neq Howns Hmd.
  assert (Hres : resolveTypeOff w base off
            = if negb (override md off =? 0) then Ret (override md off)
              else if etypes md <? own md off
                   then Throw "runtime: type offset out of range"
                   else Ret (own md off)).
  { unfold resolveTypeOff.
    rewrite Hoff, (findmodule_owns _ _ _ Howns), Hmd. done. }
  rewrite Hres. split_and!.
  - intros Hov%Z.eqb_neq. by rewrite Hov.
  - intros -> Hin. simpl.
    destruct (etypes md <? own md off) eqn:Hlt; [lia|done].
  - intros -> Hout. simpl.
    destruct (etypes md <? own md off) eqn:Hlt; [done|lia].
Qed.

Lemma overridden_owns : owns (modules Overridden.world2) 1 12304.
Proof.
  split.
  - exists Overridden.module2. split; [reflexivity|]. simpl. lia.
  - intros l ml Hl Hml. destruct l as [|l]; [|lia].
    simpl in Hml. injection Hml as <-. simpl. lia.
Qed.

Lemma resolveTypeOff_owned_witness :
  etypes Overridden.module2 < own Overridden.module2 8192
  ∧ resolveTypeOff Overridden.world2 12304 8192 = Ret 4128.
Proof.
  split; [vm_compute; reflexivity|].
  apply (proj1 (resolveTypeOff_owned Overridden.world2 12304 8192 1
                  Overridden.module2 ltac:(lia) overridden_owns eq_refl)).
  vm_compute. discriminate.
Defined.

(** X3. For a context address that no module owns and a non-zero offset,
    [resolveNameOff] returns whatever the registry of run-time objects
    holds under the offset, a nil entry included; [resolveTypeOff] and
    [textOff] return an entry that is not nil, and throw on a nil entry as
    they do on a missing one. *)
Theorem registry_entries (w : world) (base off res : Z) :
  off ≠ 0 →
  (∀ md, md ∈ modules w → ¬ (types md ≤ base < etypes md)) →
  reflectOffs_m w !! off = Some res →
  resolveNameOff w base off = Ret res
  ∧ (res ≠ 0 → resolveTypeOff w base off = Ret res
               ∧ type_textOff w base off = Ret res)
  ∧ (res = 0 →
     resolveTypeOff w base off
       = Throw "runtime: type offset base pointer out of range"
     ∧ type_textOff w base off
       = Throw "runtime: text offset base pointer out of range").
Proof.
  intros Hoff%Z.eqb_neq Hown%findmodule_None Hreg.
  unfold resolveNameOff, resolveTypeOff, type_textOff.
  rewrite Hoff, Hown, Hreg. simpl. split_and!; [done| |].
  - intros Hres%Z.eqb_neq. by rewrite Hres.
  - by intros ->.
Qed.

Lemma registry_unowned (base : Z) :
  40000 ≤ base →
  ∀ md, md ∈ modules Overridden.world2 → ¬ (types md ≤ base < etypes md).
Proof.
  intros Hbase md Hmd. simpl in Hmd.
  apply elem_of_cons in Hmd as [->|Hmd]; [simpl; lia|].
  apply elem_of_cons in Hmd as [->|Hmd]; [simpl; lia|].
  by apply not_elem_of_nil in Hmd.
Qed.

Lemma registry_entries_witness :
  resolveNameOff Overridden.world2 40000 (-2) = Ret 0
  ∧ resolveTypeOff Overridden.world2 40000 (-2)
    = Throw "runtime: type offset base pointer out of range"
  ∧ resolveTypeOff Overridden.world2 40000 (-1) = Ret 40000.
Proof.
  pose proof (registry_entries Overridden.world2 40000 (-2) 0 ltac:(lia)
                (registry_unowned 40000 ltac:(lia)) eq_refl)
    as (Hname & _ & Hnil).
  pose proof (registry_entries Overridden.world2 40000 (-1) 40000 ltac:(lia)
                (registry_unowned 40000 ltac:(lia)) eq_refl)
    as (_ & Hentry & _).
  split; [exact Hname|]. split; [exact (proj1 (Hnil eq_refl))|].
  exact (proj1 (Hentry ltac:(lia))).
Defined.

(** ** Code addresses: one region, and no section *)

Lemma textsectLookup_none (off : Z) (sects : list textsect) :
  Forall (λ s, ¬ takes s off) sects → textsectLookup off sects = 0.
Proof.
  unfold takes. induction 1 as [|s sects Hs _ IH]; simpl; [done|].
  destruct (vaddr s <=? off) eqn:Hlo; [|done].
  destruct (off <=? wrap64 (vaddr s + sect_length s)) eqn:Hhi; [lia|done].
Qed.

(** X4. For a context address owned by a module with at most one text
    section, [textOff] returns the start of the text plus the offset, also
    for offset zero; it throws when that address is above the end of the
    text, except on wasm, where it returns it all the same. *)
Theorem textOff_one_region (w : world) (t off : Z) (i : nat) (md : moduledata) :
  owns (modules w) i t → modules w !! i = Some md →
  (length (textsectmap md) ≤ 1)%nat →
  let res := wrap64 (text md + uintptr_of_int32 off) in
  (res ≤ etext md ∨ GOARCH w = "wasm" → type_textOff w t off = Ret res)
  ∧ (etext md < res → GOARCH w ≠ "wasm" →
     type_textOff w t off = Throw "runtime: text offset out of range").
Proof.
  intros Howns Hmd Hlen res. unfold type_textOff.
  rewrite (findmodule_owns _ _ _ Howns), Hmd.
  destruct (1 <? Z.of_nat (length (textsectmap md))) eqn:Hmany; [lia|].
  fold res. split.
  - intros [Hin|Hwasm].
    + destruct (etext md <? res) eqn:Hlt; [lia|done].
    + rewrite bool_decide_eq_true_2 by done. by rewrite andb_false_r.
  - intros Hout Harch. rewrite bool_decide_eq_false_2 by done.
    destruct (etext md <? res) eqn:Hlt; [done|lia].
Qed.

Lemma text_owns (md : moduledata) (arch : string) :
  types md ≤ 4112 < etypes md → owns (modules (Text.world md arch)) 0 4112.
Proof.
  intros Hin. split; [by exists md|]. intros l ml Hl. lia.
Qed.

Lemma textOff_one_region_witness :
  type_textOff (Text.world Text.oneRegion "amd64") 4112 0 = Ret 1000
  ∧ type_textOff (Text.world Text.oneRegion "amd64") 4112 8001
    = Throw "runtime: text offset out of range"
  ∧ type_textOff (Text.world Text.oneRegion "wasm") 4112 8001 = Ret 9001.
Proof.
  assert (Hin : types Text.oneRegion ≤ 4112 < etypes Text.oneRegion)
    by (simpl; lia).
  split_and!.
  - apply (proj1 (textOff_one_region (Text.world Text.oneRegion "amd64") 4112 0 0
                    Text.oneRegion (text_owns _ _ Hin) eq_refl ltac:(simpl; lia))).
    left. vm_compute. discriminate.
  - apply (proj2 (textOff_one_region (Text.world Text.oneRegion "amd64") 4112
                    8001 0 Text.oneRegion (text_owns _ _ Hin) eq_refl
                    ltac:(simpl; lia))).
    + vm_compute. reflexivity.
    + discriminate.
  - apply (proj1 (textOff_one_region (Text.world Text.oneRegion "wasm") 4112
                    8001 0 Text.oneRegion (text_owns _ _ Hin) eq_refl
                    ltac:(simpl; lia))).
    by right.
Defined.

(** X5. For a context address owned by a module with several text
    sections, an offset that the test of the loop finds in no section
    gives the nil address: [textOff] returns 0 and does not throw. *)
Theorem textOff_no_section (w : world) (t off : Z) (i : nat) (md : moduledata) :
  owns (modules w) i t → modules w !! i = Some md →
  (1 < length (textsectmap md))%nat →
  Forall (λ s, ¬ takes s (uintptr_of_int32 off)) (textsectmap md) →
  0 ≤ etext md →
  type_textOff w t off = Ret 0.
Proof.
  intros Howns Hmd Hlen Hnone Hetext. unfold type_textOff.
  rewrite (findmodule_owns _ _ _ Howns), Hmd.
  destruct (1 <? Z.of_nat (length (textsectmap md))) eqn:Hmany; [|lia].
  rewrite (textsectLookup_none _ _ Hnone).
  destruct (etext md <? 0) eqn:Hlt; [lia|done].
Qed.

Lemma textOff_no_section_witness :
  type_textOff (Text.world Text.gapped "ppc64") 4112 32 = Ret 0.
Proof.
  apply (textOff_no_section (Text.world Text.gapped "ppc64") 4112 32 0
           Text.gapped).
  - apply text_owns. simpl. lia.
  - reflexivity.
  - simpl. lia.
  - repeat constructor; unfold takes; vm_compute; intros [H1 H2];
      (by apply H1) || (by apply H2).
  - simpl. lia.
Defined.

(** ** Names: lengths, the exported bit, the nil name *)

Lemma be16_value_range (h l : byte) :
  0 ≤ Z.lor (wrap16 (Z.shiftl (byteZ h) 8)) (byteZ l) < 2 ^ 16.
Proof.
  pose proof (byteZ_range h) as Hh. pose proof (byteZ_range l) as Hl.
  assert (Hsmall : wrap16 (Z.shiftl (byteZ h) 8) = Z.shiftl (byteZ h) 8).
  { unfold wrap16. rewrite Z.shiftl_mul_pow2 by lia.
    change (2 ^ 8) with 256 in *. change (2 ^ 16) with 65536.
    apply Z.mod_small. lia. }
  rewrite Hsmall, shifted_lor by lia.
  change (2 ^ 8) with 256 in *. change (2 ^ 16) with 65536. lia.
Qed.

(** X6. Whatever the memory holds, the identifier length and the tag
    length read from a name fit in sixteen bits.  [name] and [tag] read
    no byte of the identifier or of the tag: on a name that is not nil
    [name] returns exactly when [nameLen] does, a string header of that
    length, over the bytes from the fourth of the record on when the
    length is not zero; and [tag] returns exactly when [tagLen] does, a
    string header of that length, over the bytes that follow the
    identifier and the two length bytes of the tag when the length is
    not zero.  The strings of the rest of the model are the bytes read
    through these headers. *)
Theorem name_lengths (w : world) (n : Z) :
  (∀ nl, name_nameLen w n = Ret nl → 0 ≤ nl < 2 ^ 16)
  ∧ (∀ tl, name_tagLen w n = Ret tl → 0 ≤ tl < 2 ^ 16)
  ∧ (n ≠ 0 → ∀ nl, name_nameLen w n = Ret nl
                    ↔ ∃ hdr, name_name_hdr w n = Ret hdr ∧ s_len hdr = nl
                             ∧ (nl ≠ 0 → s_str hdr = name_data n 3))
  ∧ (∀ tl, name_tagLen w n = Ret tl
           ↔ ∃ hdr, name_tag_hdr w n = Ret hdr ∧ s_len hdr = tl
                    ∧ (tl ≠ 0 → ∃ nl, name_nameLen w n = Ret nl
                                 ∧ s_str hdr = name_data n (3 + nl + 2)))
  ∧ name_name w n = (hdr ← name_name_hdr w n; stringBytes w hdr)
  ∧ name_tag w n = (hdr ← name_tag_hdr w n; stringBytes w hdr).
Proof.
  split_and!.
  - intros nl. unfold name_nameLen.
    destruct (load w (name_data n 1)) as [b1| | | |]; simpl; try done.
    destruct (load w (name_data n 2)) as [b2| | | |]; simpl; try done.
    intros [= <-]. apply be16_value_range.
  - intros tl. unfold name_tagLen.
    destruct (load w (name_data n 0)) as [b0| | | |]; simpl; try done.
    destruct (Z.land (byteZ b0) (Z.shiftl 1 1) =? 0).
    { intros [= <-]. lia. }
    destruct (name_nameLen w n) as [nl| | | |]; simpl; try done.
    destruct (load w (name_data n (3 + nl))) as [h| | | |]; simpl; try done.
    destruct (load w (name_data n (3 + nl + 1))) as [l| | | |]; simpl; try done.
    intros [= <-]. apply be16_value_range.
  - intros Hn%Z.eqb_neq nl. unfold name_name_hdr. rewrite Hn.
    destruct (name_nameLen w n) as [nl0| | | |]; simpl;
      try (split; [done|by intros (hdr & H & _)]).
    destruct (nl0 =? 0) eqn:H0.
    + apply Z.eqb_eq in H0 as ->. split.
      * intros [= <-]. eexists. by split_and!.
      * by intros (hdr & [= <-] & <- & _).
    + split.
      * intros [= <-]. eexists. by split_and!.
      * by intros (hdr & [= <-] & <- & _).
  - intros tl. unfold name_tag_hdr, name_tagLen.
    destruct (load w (name_data n 0)) as [b0| | | |]; simpl;
      try (split; [done|by intros (hdr & H & _)]).
    destruct (Z.land (byteZ b0) (Z.shiftl 1 1) =? 0); simpl.
    { split; [intros [= <-]; eexists; by split_and!
             |by intros (hdr & [= <-] & <- & _)]. }
    destruct (name_nameLen w n) as [nl| | | |]; simpl;
      try (split; [done|by intros (hdr & H & _)]).
    destruct (load w (name_data n (3 + nl))) as [h| | | |]; simpl;
      try (split; [done|by intros (hdr & H & _)]).
    destruct (load w (name_data n (3 + nl + 1))) as [l| | | |]; simpl;
      try (split; [done|by intros (hdr & H & _)]).
    set (tl0 := Z.lor (wrap16 (Z.shiftl (byteZ h) 8)) (byteZ l)).
    destruct (tl0 =? 0) eqn:H0.
    + apply Z.eqb_eq in H0. rewrite H0. split.
      * intros [= <-]. eexists. by split_and!.
      * by intros (hdr & [= <-] & <- & _).
    + split.
      * intros [= <-]. eexists. split_and!; [done|done|].
        intros _. by exists nl.
      * by intros (hdr & [= <-] & <- & _).
  - unfold name_name, name_name_hdr, stringBytes.
    destruct (n =? 0); [done|].
    destruct (name_nameLen w n) as [nl| | | |]; simpl; try done.
    destruct (nl =? 0) eqn:H0; simpl; [done|]. by rewrite H0.
  - unfold name_tag, name_tag_hdr, stringBytes.
    destruct (name_tagLen w n) as [tl| | | |]; simpl; try done.
    destruct (tl =? 0) eqn:H0; simpl; [done|].
    destruct (name_nameLen w n) as [nl| | | |]; simpl; try done.
    by rewrite H0.
Qed.

(** A header over bytes that are not there: [name] returns it, and the
    bytes cannot be read. *)
Lemma name_lengths_witness :
  (∃ hdr, name_name_hdr Truncated.world1 4352 = Ret hdr ∧ s_len hdr = 16
          ∧ s_str hdr = 4355)
  ∧ name_name Truncated.world1 4352 = Fault.
Proof.
  destruct (name_lengths Truncated.world1 4352) as (_ & _ & Hname & _).
  split; [|vm_compute; reflexivity].
  destruct (proj1 (Hname ltac:(lia) 16) ltac:(vm_compute; reflexivity))
    as (hdr & Hhdr & Hlen & Hstr).
  exists hdr. split; [done|]. split; [done|]. apply Hstr. lia.
Defined.

(** X7. [isExported] recovers the exported bit of a name record stored in
    memory, and reads nothing but the first byte of the record: any memory
    with the same byte at that address gives the same answer. *)
Theorem isExported_stored (w : world) (n : Z) (r : nameRecord) :
  stored w n r →
  name_isExported w n = Ret (exported r)
  ∧ ∀ w2, mem w2 !! n = mem w !! n →
          name_isExported w2 n = Ret (exported r).
Proof.
  intros Hstored. destruct (stored_header w n r Hstored) as (H0 & _).
  assert (Hbyte : ∀ w2, mem w2 !! n = mem w !! n →
                        name_isExported w2 n = Ret (exported r)).
  { intros w2 Hw2. unfold name_isExported, load. rewrite Hw2, H0. simpl.
    destruct (nameFlags_bits r) as (-> & _). by rewrite negb_involutive. }
  split; [by apply Hbyte|exact Hbyte].
Qed.

Lemma isExported_stored_witness :
  name_isExported RoundTrip.world1 4352 = Ret true
  ∧ name_isExported RoundTrip.world1 4608 = Ret false.
Proof.
  split.
  - exact (proj1 (isExported_stored _ _ _ roundtrip_count_stored)).
  - exact (proj1 (isExported_stored _ _ _ roundtrip_pkg_stored)).
Defined.

(** X8. On the nil name, [name] and [pkgPath] return the empty string
    without reading memory, while [tag], [tagLen] and [isExported], which
    have no such guard, read address zero: an invalid memory access when
    nothing is mapped there. *)
Theorem nil_name (w : world) :
  name_name w 0 = Ret []
  ∧ name_pkgPath w 0 = Ret []
  ∧ (mem w !! 0 = None →
     name_tagLen w 0 = Fault ∧ name_tag w 0 = Fault
     ∧ name_isExported w 0 = Fault).
Proof.
  split; [done|]. split; [done|]. intros Hnone.
  assert (Hload : load w (name_data 0 0) = Fault).
  { change (name_data 0 0) with 0. unfold load. by rewrite Hnone. }
  unfold name_tag, name_tagLen, name_isExported. rewrite Hload.
  unfold load. by rewrite Hnone.
Qed.

Lemma nil_name_witness :
  name_tag Cyclic.world2 0 = Fault ∧ name_name Cyclic.world2 0 = Ret [].
Proof.
  destruct (nil_name Cyclic.world2) as (Hname & _ & Hfault).
  split; [|exact Hname].
  exact (proj1 (proj2 (Hfault ltac:(vm_compute; reflexivity)))).
Defined.

(** ** Packed fields *)

Lemma bit_test (x : Z) (i : Z) :
  0 ≤ i → negb (Z.land x (2 ^ i) =? 0) = Z.testbit x i.
Proof.
  intros Hi. destruct (Z.testbit x i) eqn:Hb.
  - apply negb_true_iff, Z.eqb_neq. intros H0.
    assert (Hl : Z.testbit (Z.land x (2 ^ i)) i = true).
    { rewrite Z.land_spec, Hb, Z.pow2_bits_true; [done|lia]. }
    rewrite H0, Z.bits_0 in Hl. done.
  - apply negb_false_iff, Z.eqb_eq, Z.bits_inj'. intros n Hn.
    rewrite Z.land_spec, Z.bits_0.
    destruct (decide (n = i)) as [->|Hne]; [by rewrite Hb|].
    rewrite (Z.pow2_bits_false i n) by lia. apply andb_false_r.
Qed.

(** X9. The five flag accessors of a map descriptor each read their own
    bit among the low five bits of the flags word and nothing else: with
    any higher bits set, they give back the five flags that were packed. *)
Theorem maptype_flags_unpack (mt : maptype) (ik iv rk nk hp : bool) (high : Z) :
  0 ≤ high →
  mt_flags mt = packMapFlags ik iv rk nk hp + 32 * high →
  maptype_indirectkey mt = ik
  ∧ maptype_indirectvalue mt = iv
  ∧ maptype_reflexivekey mt = rk
  ∧ maptype_needkeyupdate mt = nk
  ∧ maptype_hashMightPanic mt = hp.
Proof.
  intros Hhigh Hflags.
  assert (Hlow : ∀ i, 0 ≤ i < 5 →
            Z.testbit (mt_flags mt) i
            = Z.testbit (packMapFlags ik iv rk nk hp) i).
  { intros i Hi. rewrite Hflags.
    rewrite <- (Z.mod_pow2_bits_low (_ + 32 * high) 5 i) by lia.
    change (2 ^ 5) with 32.
    replace ((packMapFlags ik iv rk nk hp + 32 * high) mod 32)
      with (packMapFlags ik iv rk nk hp); [done|].
    replace (packMapFlags ik iv rk nk hp + 32 * high)
      with (packMapFlags ik iv rk nk hp + high * 32) by lia.
    rewrite Z.mod_add by lia. symmetry. apply Z.mod_small.
    unfold packMapFlags. destruct ik, iv, rk, nk, hp; simpl; lia. }
  unfold maptype_indirectkey, maptype_indirectvalue, maptype_reflexivekey,
    maptype_needkeyupdate, maptype_hashMightPanic.
  rewrite (bit_test _ 0), (bit_test _ 1), (bit_test _ 2), (bit_test _ 3),
    (bit_test _ 4) by lia.
  rewrite !Hlow by lia.
  split_and!; by destruct ik, iv, rk, nk, hp.
Qed.

Lemma maptype_flags_unpack_witness :
  let mt := {| mt_typ := Cyclic.mkType kindMap 0 0 0; mt_key := 0;
               mt_elem := 0; mt_bucket := 0; keysize := 8; valuesize := 8;
               bucketsize := 208; mt_flags := 4 + 16 + 64 |} in
  maptype_indirectkey mt = false
  ∧ maptype_indirectvalue mt = false
  ∧ maptype_reflexivekey mt = true
  ∧ maptype_needkeyupdate mt = false
  ∧ maptype_hashMightPanic mt = true.
Proof.
  intros mt.
  apply (maptype_flags_unpack mt false false true false true 2); [lia|].
  reflexivity.
Defined.

(** X10. [offset] gives back the offset packed above the embedded-field
    bit of a struct field, whatever that bit is. *)
Theorem structfield_offset_unpack (f : structfield) (offset : Z)
  (anonymous : bool) :
  offsetAnon f = packOffsetAnon offset anonymous →
  structfield_offset f = offset.
Proof.
  intros Hpack. unfold structfield_offset. rewrite Hpack.
  rewrite Z.shiftr_div_pow2 by lia. unfold packOffsetAnon.
  change (2 ^ 1) with 2. destruct anonymous; simpl.
  - rewrite Z.add_comm, Z.mul_comm, Z.div_add by lia. done.
  - rewrite Z.add_0_r, Z.mul_comm, Z.div_mul by lia. done.
Qed.

Lemma structfield_offset_unpack_witness :
  structfield_offset {| sf_name := 0; sf_typ := 0; offsetAnon := 49 |} = 24.
Proof.
  by apply (structfield_offset_unpack _ 24 true).
Defined.

(** ** Function descriptors *)

Lemma cells_take (arr : list Z) (lo n : nat) :
  (lo + n ≤ length arr)%nat → cells arr lo n = take n (drop lo arr).
Proof.
  intros Hlen. unfold cells. apply list_eq. intros i.
  rewrite list_lookup_fmap. destruct (decide (i < n)%nat) as [Hi|Hi].
  - rewrite lookup_seq_lt by done. simpl.
    rewrite lookup_take_lt, lookup_drop by done.
    rewrite nth_lookup.
    destruct (lookup_lt_is_Some_2 arr (lo + i)) as [x Hx]; [lia|].
    by rewrite Hx.
  - rewrite lookup_seq_ge by lia. simpl.
    symmetry. apply lookup_take_ge. lia.
Qed.

(** X11. While the parameter count and the masked result count add up
    below [2^16] and the array after the descriptor holds that many
    cells, [in] and [out] return: the parameters are the first cells, the
    results the cells that follow, and together they are the head of the
    array, each cell once. *)
Theorem functype_in_out (d : descriptor) (t : functype) :
  let oc := Z.land (outCount t) (Z.shiftl 1 15 - 1) in
  0 ≤ inCount t →
  inCount t + oc < 2 ^ 16 →
  inCount t + oc ≤ Z.of_nat (length (inline d)) →
  ∃ ins outs,
    functype_in d t = Ret ins ∧ functype_out d t = Ret outs
    ∧ Z.of_nat (length ins) = inCount t ∧ Z.of_nat (length outs) = oc
    ∧ ins ++ outs = take (Z.to_nat (inCount t + oc)) (inline d).
Proof.
  intros oc Hin Hsum Hlen.
  assert (Hoc : 0 ≤ oc) by (apply Z.land_nonneg; right; done).
  exists (take (Z.to_nat (inCount t)) (inline d)),
         (take (Z.to_nat oc) (drop (Z.to_nat (inCount t)) (inline d))).
  change (2 ^ 16) with 65536 in Hsum.
  split_and!.
  - unfold functype_in, slice_array.
    assert (Hok : (0 <=? 0) && (0 <=? inCount t) && (inCount t <=? 2 ^ 20) = true).
    { change (2 ^ 20) with 1048576. rewrite !andb_true_iff, !Z.leb_le. lia. }
    rewrite Hok. f_equal. rewrite Z.sub_0_r.
    change (Z.to_nat 0) with 0%nat.
    fold (cells (inline d) 0 (Z.to_nat (inCount t))).
    rewrite cells_take by lia. done.
  - unfold functype_out, slice_array. fold oc. unfold wrap16.
    change (2 ^ 16) with 65536. rewrite Z.mod_small by lia.
    assert (Hok : (0 <=? inCount t) && (inCount t <=? inCount t + oc)
                  && (inCount t + oc <=? 2 ^ 20) = true).
    { change (2 ^ 20) with 1048576. rewrite !andb_true_iff, !Z.leb_le. lia. }
    rewrite Hok. f_equal.
    replace (inCount t + oc - inCount t) with oc by lia.
    fold (cells (inline d) (Z.to_nat (inCount t)) (Z.to_nat oc)).
    rewrite cells_take by lia. done.
  - rewrite length_take. lia.
  - rewrite length_take, length_drop. lia.
  - rewrite Z2Nat.inj_add by lia. apply take_take_drop.
Qed.

Lemma functype_in_out_witness :
  let d := {| lay := Lbase (Cyclic.mkType kindFunc 0 0 0);
              unc := Cyclic.noUncommon; inline := [4112; 4128; 4144] |} in
  let t := {| ft_typ := Cyclic.mkType kindFunc 0 0 0; inCount := 2;
              outCount := 32769 |} in
  ∃ ins outs,
    functype_in d t = Ret ins ∧ functype_out d t = Ret outs
    ∧ Z.of_nat (length ins) = 2 ∧ Z.of_nat (length outs) = 1
    ∧ ins ++ outs = [4112; 4128; 4144].
Proof.
  intros d t.
  apply (functype_in_out d t); [simpl; lia|vm_compute; reflexivity|].
  vm_compute. discriminate.
Defined.

(** X12. Marking a function variadic, that is setting bit 15 of its
    result count, makes [dotdotdot] true and leaves the parameters and
    the results that [in] and [out] return as they were. *)
Theorem variadic_bit_apart (d : descriptor) (t : functype) :
  let t' := {| ft_typ := ft_typ t; inCount := inCount t;
               outCount := Z.lor (outCount t) (Z.shiftl 1 15) |} in
  functype_dotdotdot t' = true
  ∧ functype_in d t' = functype_in d t
  ∧ functype_out d t' = functype_out d t.
Proof.
  intros t'. split_and!.
  - unfold functype_dotdotdot, t'. simpl.
    apply negb_true_iff, Z.eqb_neq. intros H0.
    assert (Hb : Z.testbit (Z.land (Z.lor (outCount t) (Z.shiftl 1 15))
                              (Z.shiftl 1 15)) 15 = true).
    { rewrite Z.land_spec, Z.lor_spec.
      change (Z.shiftl 1 15) with (2 ^ 15).
      rewrite Z.pow2_bits_true by lia. by rewrite orb_true_r. }
    rewrite H0, Z.bits_0 in Hb. done.
  - done.
  - unfold functype_out, t'. simpl.
    by rewrite Z.land_lor_distr_l, Z.lor_0_r.
Qed.

(** ** The memo of the equality check *)

(** A call within its budget hands back a memo that holds its own pair
    on top of the memo it started with. *)
Lemma typesEqual_records (w : world) (n : nat) (t v : Z) (seen : memo) :
  (budget w seen < n)%nat →
  grows ({[(t, v)]} ∪ seen) (typesEqual n w t v seen).
Proof.
  destruct n as [|n]; [lia|]. intros Hlt.
  simpl. unfold typesEqualBody.
  case_bool_decide as Hseen; [grows_done|].
  destruct (t =? v); [grows_done|].
  pose proof (ends_deref w t) as Et.
  destruct (deref w t) as [dt| | | |] eqn:Ht; simpl; try done.
  pose proof (ends_deref w v) as Ev.
  destruct (deref w v) as [dv| | | |] eqn:Hv; simpl; try done.
  apply deref_Ret in Ht, Hv.
  assert (Hless : (budget w ({[(t, v)]} ∪ seen) < n)%nat).
  { pose proof (budget_insert w seen t v) as Hins.
    rewrite Ht, Hv in Hins. specialize (Hins ltac:(done) ltac:(done) Hseen).
    lia. }
  repeat grows_pure_step.
  apply (bounded_eqKind w n); [apply typesEqual_bounded|done].
Qed.

(** X13. The memo records the pairs under comparison, not the pairs
    found equal: a call that returns, with either answer and any depth
    budget, hands back a memo that holds the memo it was given and its
    own pair, and the same question asked again with that memo is
    answered yes. *)
Theorem typesEqual_memo (w : world) (fuel : nat) (t v : Z) (seen seen' : memo)
  (b : bool) :
  typesEqual fuel w t v seen = Ret (b, seen') →
  seen ⊆ seen' ∧ (t, v) ∈ seen'
  ∧ ∀ fuel', typesEqual (S fuel') w t v seen' = Ret (true, seen').
Proof.
  intros Hret.
  assert (Hsub : {[(t, v)]} ∪ seen ⊆ seen').
  { set (n := S (Nat.max fuel (budget w seen))).
    assert (Hn : typesEqual n w t v seen = Ret (b, seen')).
    { rewrite <- Hret. apply typesEqual_stable; [unfold n; lia|].
      unfold ends. by rewrite Hret. }
    pose proof (typesEqual_records w n t v seen ltac:(unfold n; lia)) as Hg.
    by rewrite Hn in Hg. }
  split_and!; [set_solver|set_solver|].
  intros fuel'. simpl. unfold typesEqualBody.
  rewrite bool_decide_eq_true_2; [done|set_solver].
Qed.

Lemma typesEqual_memo_witness :
  ∃ seen',
    typesEqual 3 Cyclic.world2 4112 4128 ∅ = Ret (false, seen')
    ∧ typesEqual 1 Cyclic.world2 4112 4128 seen' = Ret (true, seen').
Proof.
  assert (Hfalse : typesEqual 3 Cyclic.world2 4112 4128 ∅
                   = Ret (false, {[(4112, 4128)]} ∪ ∅))
    by (vm_compute; reflexivity).
  eexists. split; [exact Hfalse|].
  exact (proj2 (proj2 (typesEqual_memo _ _ _ _ _ _ _ Hfalse)) 0%nat).
Defined.

(** ** What a verdict of the equality check takes *)

(** X14. Two descriptors at different addresses whose pair is not in the
    memo are reported equal only when both addresses hold a descriptor,
    the two kind tags agree, the two textual forms were read and are the
    same, and the package paths of the uncommon data were compared and
    agree. *)
Theorem equal_verdict_needs (w : world) (fuel : nat) (t v : Z)
  (seen seen' : memo) :
  typesEqual fuel w t v seen = Ret (true, seen') →
  (t, v) ∉ seen → t ≠ v →
  ∃ dt dv s,
    heap w !! t = Some dt ∧ heap w !! v = Some dv
    ∧ Z.land (kind (header (lay dt))) kindMask
      = Z.land (kind (header (lay dv))) kindMask
    ∧ type_string w t = Ret s ∧ type_string w v = Ret s
    ∧ eqUncommon w t v dt dv = Ret true.
Proof.
  destruct fuel as [|fuel]; [done|]. simpl. unfold typesEqualBody.
  intros Hret Hnew Hne.
  rewrite bool_decide_eq_false_2 in Hret by done.
  apply Z.eqb_neq in Hne. rewrite Hne in Hret.
  destruct (deref w t) as [dt| | | |] eqn:Ht; simpl in Hret; try done.
  destruct (deref w v) as [dv| | | |] eqn:Hv; simpl in Hret; try done.
  apply deref_Ret in Ht, Hv.
  destruct (Z.land (kind (header (lay dt))) kindMask
            =? Z.land (kind (header (lay dv))) kindMask) eqn:Hk;
    simpl in Hret; [|done].
  apply Z.eqb_eq in Hk.
  destruct (type_string w t) as [ts| | | |]; simpl in Hret; try done.
  destruct (type_string w v) as [vs| | | |]; simpl in Hret; try done.
  case_bool_decide as Hs; simpl in Hret; [|done]. subst vs.
  destruct (eqUncommon w t v dt dv) as [[]| | | |] eqn:Hunc; simpl in Hret;
    try done.
  by exists dt, dv, ts.
Qed.

Lemma equal_verdict_needs_witness :
  ∃ dt dv s,
    heap Cyclic.world2 !! 4112 = Some dt ∧ heap Cyclic.world2 !! 12304 = Some dv
    ∧ Z.land (kind (header (lay dt))) kindMask
      = Z.land (kind (header (lay dv))) kindMask
    ∧ type_string Cyclic.world2 4112 = Ret s
    ∧ type_string Cyclic.world2 12304 = Ret s
    ∧ eqUncommon Cyclic.world2 4112 12304 dt dv = Ret true.
Proof.
  assert (Htrue : typesEqual 5 Cyclic.world2 4112 12304 ∅
            = Ret (true, {[(4128, 12320)]} ∪ ({[(4112, 12304)]} ∪ ∅))).
  { vm_compute. reflexivity. }
  apply (equal_verdict_needs _ _ _ _ _ _ Htrue); [set_solver|lia].
Defined.

(** X15. Two descriptors that pass the checks of the kind tag, of the
    textual form and of the uncommon data, and whose common kind tag is
    none of the enumeration, make the check abort with the impossible
    kind error, whatever the depth budget. *)
Theorem impossible_kind_throws (w : world) (fuel : nat) (t v : Z)
  (seen : memo) (dt dv : descriptor) (s : list byte) :
  (t, v) ∉ seen → t ≠ v →
  heap w !! t = Some dt → heap w !! v = Some dv →
  Z.land (kind (header (lay dt))) kindMask
  = Z.land (kind (header (lay dv))) kindMask →
  type_string w t = Ret s → type_string w v = Ret s →
  eqUncommon w t v dt dv = Ret true →
  Z.land (kind (header (lay dt))) kindMask = 0
  ∨ kindUnsafePointer < Z.land (kind (header (lay dt))) kindMask →
  typesEqual (S fuel) w t v seen = Throw "runtime: impossible type kind".
Proof.
  intros Hnew Hne Ht Hv Hk Hts Hvs Hunc Hodd.
  simpl. unfold typesEqualBody.
  rewrite bool_decide_eq_false_2 by done.
  apply Z.eqb_neq in Hne. rewrite Hne.
  unfold deref. rewrite Ht, Hv. simpl.
  rewrite <- Hk, Z.eqb_refl. simpl.
  rewrite Hts, Hvs. simpl. rewrite bool_decide_eq_true_2 by done. simpl.
  rewrite Hunc. simpl.
  set (k := Z.land (kind (header (lay dt))) kindMask) in *.
  unfold kindUnsafePointer in Hodd.
  assert (Hbasic : (kindBool <=? k) && (k <=? kindComplex128) = false).
  { apply andb_false_iff. rewrite !Z.leb_gt.
    unfold kindBool, kindComplex128. lia. }
  rewrite Hbasic. unfold eqKind.
  assert (Hno : ∀ c, 1 ≤ c ≤ 26 → (k =? c) = false).
  { intros c Hc. apply Z.eqb_neq. lia. }
  unfold kindString, kindUnsafePointer, kindArray, kindChan, kindFunc,
    kindInterface, kindMap, kindPtr, kindSlice, kindStruct.
  by rewrite !Hno by lia.
Qed.

Lemma impossible_kind_throws_witness :
  typesEqual 1 Untagged.world2 4112 12304 ∅
  = Throw "runtime: impossible type kind".
Proof.
  apply (impossible_kind_throws Untagged.world2 0 4112 12304 ∅
           Untagged.odd Untagged.odd (Cyclic.bytes "bool"));
    [set_solver|lia|vm_compute; reflexivity|vm_compute; reflexivity
    |reflexivity|vm_compute; reflexivity|vm_compute; reflexivity
    |vm_compute; reflexivity|left; reflexivity].
Defined.

(** ** The pass changes override maps only *)

Lemma dedupLoop_sameLayout (fuel n k : nat) (th : buckets) (w w' : world) :
  dedupLoop fuel n k th w = Ret w' → sameLayout w w'.
Proof.
  revert k th w. induction n as [|n IH]; intros k th w; simpl.
  - intros [= <-]. apply sameLayout_refl.
  - unfold activeModules.
    destruct (modules w !! (k - 1)%nat) as [prev|];
      [|intros [= <-]; apply sameLayout_refl].
    destruct (modules w !! k) as [md|] eqn:Hmd;
      [|intros [= <-]; apply sameLayout_refl].
    destruct (collect w prev (typelinks prev) th) as [th1| | | |]; simpl;
      try done.
    destruct (typemap md) as [tm|]; simpl; [by apply IH|].
    set (w0 := storeModule w k (withTypemap ∅ md)).
    destruct (fillTypemap fuel th1 k md (typelinks md) ∅ w0)
      as [w1| | | |] eqn:Hfill; simpl; try done.
    intros Hloop.
    assert (Hlen : (k < length (modules w))%nat) by (by eapply lookup_lt_Some).
    assert (Hw0 : modules w0 !! k = Some (withTypemap ∅ md)).
    { unfold w0. simpl. by apply list_lookup_insert_eq. }
    destruct (fillTypemap_spec _ _ _ _ _ _ _ _ Hw0 Hfill) as (tm' & Hw1 & _).
    apply (sameLayout_trans w w0); [by apply (sameLayout_store w k md)|].
    apply (sameLayout_trans w0 w1); [|by apply (IH _ _ _ Hloop)].
    rewrite Hw1. by apply (sameLayout_store w0 k (withTypemap ∅ md)).
Qed.

Lemma typelinksinit_sameLayout (fuel : nat) (w w' : world) :
  typelinksinit fuel w = Ret w' → sameLayout w w'.
Proof.
  unfold typelinksinit.
  destruct (modules w) as [|a [|b rest]];
    [intros [= <-]; apply sameLayout_refl
    |intros [= <-]; apply sameLayout_refl|].
  apply dedupLoop_sameLayout.
Qed.

Lemma sameModule_text (a b : moduledata) :
  sameModule a b →
  text a = text b ∧ etext a = etext b ∧ textsectmap a = textsectmap b.
Proof.
  intros H. split_and!.
  - by apply (f_equal text) in H.
  - by apply (f_equal etext) in H.
  - by apply (f_equal textsectmap) in H.
Qed.

Lemma sameLayout_textOff (w w2 : world) (t off : Z) :
  sameLayout w w2 → type_textOff w2 t off = type_textOff w t off.
Proof.
  intros Hsame. pose proof Hsame as (_ & _ & Hr & Hg & _ & Hf).
  unfold type_textOff.
  destruct (same_findmodule t _ _ Hf) as [a b Hab|].
  - destruct (sameModule_text a b Hab) as (<- & <- & <-). by rewrite Hg.
  - by rewrite Hr.
Qed.

Lemma sameLayout_name (w w2 : world) (t : Z) :
  sameLayout w w2 → type_name w2 t = type_name w t.
Proof.
  intros Hsame. unfold type_name.
  rewrite (same_deref w w2 Hsame).
  destruct (deref w t) as [d| | | |]; simpl; try done.
  destruct (_ =? 0); [done|]. by rewrite (same_string w w2 Hsame).
Qed.

Lemma sameLayout_pkgpath (w w2 : world) (t : Z) :
  sameLayout w w2 → type_pkgpath w2 t = type_pkgpath w t.
Proof.
  intros Hsame. unfold type_pkgpath, type_nameOff.
  rewrite (same_deref w w2 Hsame).
  destruct (deref w t) as [d| | | |]; simpl; try done.
  destruct (type_uncommon d) as [u|].
  - rewrite (same_resolveNameOff w w2 Hsame).
    destruct (resolveNameOff w t (u_pkgpath u)); simpl; try done.
    by apply same_name.
  - destruct (_ =? kindStruct).
    { destruct (as_struct (lay d)); simpl; try done. by apply same_name. }
    destruct (_ =? kindInterface); [|done].
    destruct (as_interface (lay d)); simpl; try done. by apply same_name.
Qed.

(** X16. The pass touches nothing but override maps: when it returns,
    with any registry and any depth budget, the memory, the descriptors,
    the reflection registry and every field of every module but its
    override map are as before, and so are the results of [resolveNameOff],
    of [textOff] and of the accessors [string], [name] and [pkgpath] of
    every descriptor. *)
Theorem pass_keeps_names (fuel : nat) (w w' : world) :
  typelinksinit fuel w = Ret w' →
  sameLayout w w'
  ∧ (∀ p off, resolveNameOff w' p off = resolveNameOff w p off)
  ∧ (∀ t off, type_textOff w' t off = type_textOff w t off)
  ∧ (∀ t, type_string w' t = type_string w t)
  ∧ (∀ t, type_name w' t = type_name w t)
  ∧ (∀ t, type_pkgpath w' t = type_pkgpath w t).
Proof.
  intros Hsame%typelinksinit_sameLayout. split_and!; [done|..].
  - intros p off. by apply same_resolveNameOff.
  - intros t off. by apply sameLayout_textOff.
  - intros t. by apply same_string.
  - intros t. by apply sameLayout_name.
  - intros t. by apply sameLayout_pkgpath.
Qed.

Lemma pass_keeps_names_witness :
  ∃ w', typelinksinit 5 Three.world3 = Ret w'
        ∧ type_string w' 20496 = type_string Three.world3 20496
        ∧ type_name w' 20496 = Ret (Cyclic.bytes "S").
Proof.
  assert (Hrun : ∃ w', typelinksinit 5 Three.world3 = Ret w').
  { eexists. vm_compute. reflexivity. }
  destruct Hrun as [w' Hw']. exists w'. split; [exact Hw'|].
  destruct (pass_keeps_names 5 Three.world3 w' Hw')
    as (_ & _ & _ & Hstring & Hname & _).
  split; [exact (Hstring 20496)|].
  rewrite (Hname 20496). vm_compute. reflexivity.
Defined.

(** ** The pass over any registry *)

Lemma collect_hash (w : world) (prev : moduledata) (tls : list Z)
  (th th' : buckets) :
  collect w prev tls th = Ret th' →
  ∀ h c, c ∈ bucket th' h →
    c ∈ bucket th h
    ∨ ∃ tl d, tl ∈ tls ∧ c = linked prev tl ∧ heap w !! c = Some d
              ∧ hash (header (lay d)) = h.
Proof.
  revert th. induction tls as [|tl tls IH]; intros th; simpl.
  - intros [= <-] h c Hc. by left.
  - destruct (deref w (linked prev tl)) as [d| | | |] eqn:Hd; simpl; try done.
    apply deref_Ret in Hd. case_bool_decide as Hin.
    + intros Hc h c Hc'.
      destruct (IH th Hc h c Hc') as [?|(tl' & d' & Htl' & Hrest)]; [by left|].
      right. exists tl', d'. split; [by right|done].
    + intros Hc h c Hc'.
      destruct (IH _ Hc h c Hc') as [Hold|(tl' & d' & Htl' & Hrest)].
      * rewrite bucket_insert in Hold.
        destruct (decide (hash (header (lay d)) = h)) as [<-|Hne]; [|by left].
        apply elem_of_app in Hold as [Hold|Hold%list_elem_of_singleton];
          [by left|].
        right. exists tl, d. subst c. split_and!; [by left|done|done|done].
      * right. exists tl', d'. split; [by right|done].
Qed.

Lemma collect_returns (w : world) (prev : moduledata) (tls : list Z)
  (th : buckets) :
  (∀ tl, tl ∈ tls → is_Some (heap w !! linked prev tl)) →
  ∃ th', collect w prev tls th = Ret th'.
Proof.
  revert th. induction tls as [|tl tls IH]; intros th Hall; simpl.
  - by exists th.
  - destruct (Hall tl ltac:(by left)) as [d Hd].
    unfold deref. rewrite Hd. simpl.
    case_bool_decide; apply IH; intros tl' Htl'; apply Hall; by right.
Qed.

Section any_registry.
Variable fuel : nat.
Variable w : world.
Hypothesis Hfresh : Forall (λ md, typemap md = None) (modules w).

Lemma filled_start : filled fuel w 1 ∅ w.
Proof.
  split_and!; [apply sameLayout_refl|done|intros; lia| |intros; lia].
  intros h c Hc. unfold bucket in Hc. rewrite lookup_empty in Hc.
  by apply not_elem_of_nil in Hc.
Qed.

(** What a typelink of [prev], module [k - 1], stands for when it is
    collected, over any registry. *)
Lemma filled_linked (k : nat) (th : buckets) (wk : world) (prev : moduledata)
  (tl : Z) :
  (1 ≤ k)%nat → filled fuel w k th wk →
  modules wk !! (k - 1)%nat = Some prev → tl ∈ typelinks prev →
  linkedBefore w k (linked prev tl).
Proof.
  intros Hk (Hsame & Hkeep & Hmaps & Hb & _) Hprev Htl.
  destruct (decide (k = 1%nat)) as [->|Hk1].
  - simpl in Hprev. rewrite Hkeep in Hprev by lia.
    assert (Hnone : typemap prev = None).
    { eapply Forall_lookup_1 in Hfresh; [|exact Hprev]. done. }
    unfold linked. rewrite Hnone. exists 0%nat, prev, tl. split_and!; done || lia.
  - destruct Hsame as (_ & _ & _ & _ & _ & Hf).
    apply Forall2_same_length_lookup in Hf as [Hlen Hf].
    destruct (lookup_lt_is_Some_2 (modules w) (k - 1)) as [ml Hml].
    { rewrite Hlen. by eapply lookup_lt_Some. }
    destruct (Hmaps (k - 1)%nat ml ltac:(lia) Hml) as (tm & Htm & Hall & _).
    rewrite Htm in Hprev. injection Hprev as <-. simpl in Htl.
    destruct (Hall tl Htl) as (c & Hc & d & Hd & Hentry).
    unfold linked. simpl. rewrite Hc. simpl.
    destruct Hentry as [->|(dc & w2 & s & Hlinked & _)].
    + exists (k - 1)%nat, ml, tl. split_and!; done || lia.
    + apply (linkedBefore_mono w (k - 1) k); [lia|done].
Qed.

Lemma filled_step (k : nat) (th th1 : buckets) (wk w1 : world)
  (prev mk : moduledata) :
  (1 ≤ k)%nat → filled fuel w k th wk →
  modules wk !! (k - 1)%nat = Some prev → modules w !! k = Some mk →
  collect wk prev (typelinks prev) th = Ret th1 →
  fillTypemap fuel th1 k mk (typelinks mk) ∅
    (storeModule wk k (withTypemap ∅ mk)) = Ret w1 →
  filled fuel w (S k) th1 w1.
Proof.
  intros Hk Hfilled Hprev Hmk Hcol Hfill.
  pose proof Hfilled as (Hsame & Hkeep & Hmaps & Hb & Hzero).
  destruct (collect_spec _ _ _ _ _ Hcol) as (_ & _ & Call).
  pose proof (collect_hash _ _ _ _ _ Hcol) as Cnew.
  assert (Hwk_k : modules wk !! k = Some mk) by (rewrite Hkeep; [done|lia]).
  assert (Hlen : (k < length (modules wk))%nat) by (by eapply lookup_lt_Some).
  set (wk0 := storeModule wk k (withTypemap ∅ mk)) in *.
  assert (Hwk0 : modules wk0 !! k = Some (withTypemap ∅ mk)).
  { unfold wk0. simpl. by apply list_lookup_insert_eq. }
  destruct (fillTypemap_spec _ _ _ _ _ _ _ _ Hwk0 Hfill)
    as (tm' & Hw1 & Hempty & Hlinks).
  assert (Hw1' : w1 = storeModule wk k (withTypemap tm' mk)).
  { rewrite Hw1. apply storeModule_twice. }
  assert (Hsame0 : sameLayout w wk0).
  { apply (sameLayout_trans w wk wk0); [done|].
    by apply (sameLayout_store wk k mk). }
  assert (Hsame1 : sameLayout w w1).
  { apply (sameLayout_trans w wk w1); [done|]. rewrite Hw1'.
    by apply (sameLayout_store wk k mk). }
  assert (Hheap : heap wk = heap w) by (by destruct Hsame as (_ & -> & _)).
  assert (Hheap0 : heap wk0 = heap w) by done.
  assert (Hb1 : ∀ h c, c ∈ bucket th1 h →
            linkedBefore w k c
            ∧ ∃ d, heap w !! c = Some d ∧ hash (header (lay d)) = h).
  { intros h c Hc.
    destruct (Cnew h c Hc) as [Hold|(tl & d & Htl & -> & Hd & Hh)].
    - destruct (Hb h c Hold) as [Hlinked Hd]. split; [|done].
      apply (linkedBefore_mono w (k - 1) k); [lia|done].
    - split; [by apply (filled_linked k th wk prev tl)|].
      exists d. by rewrite <- Hheap. }
  assert (Hother : ∀ l, l ≠ k → modules w1 !! l = modules wk !! l).
  { intros l Hl. rewrite Hw1'. simpl. by apply list_lookup_insert_ne. }
  assert (Hthis : modules w1 !! k = Some (withTypemap tm' mk)).
  { rewrite Hw1'. simpl. by apply list_lookup_insert_eq. }
  split_and!; [done| | | |].
  - intros l Hl. rewrite Hother by lia. apply Hkeep. lia.
  - intros l ml Hl Hml. destruct (decide (l = k)) as [->|Hne].
    + rewrite Hmk in Hml. injection Hml as <-. exists tm'.
      split_and!; [done| |].
      * intros o Ho.
        destruct (Hlinks o Ho) as (c & d & w2 & Hc & Hd & Hw2 & Hf).
        exists c. split; [done|]. exists d.
        split; [by rewrite <- Hheap0|].
        destruct (firstEqual_spec _ _ _ _ _ Hf) as [[-> _]|[Hin [s Hs]]];
          [by left|].
        destruct (Hb1 _ _ Hin) as (Hlinked & dc & Hdc & Hh).
        right. exists dc, w2, s. split_and!; [done|done|done| |done].
        by apply (sameLayout_trans w wk0 w2).
      * intros o Ho. rewrite (Hempty o Ho). apply lookup_empty.
    + destruct (Hmaps l ml ltac:(lia) Hml) as (tm & Htm & Hall).
      exists tm. split; [by rewrite Hother|done].
  - intros h c Hc. replace (S k - 1)%nat with k by lia. by apply (Hb1 h).
  - intros _ m0 tl Hm0 Htl.
    destruct (decide (k = 1%nat)) as [->|Hk1]; [|apply (Hzero ltac:(lia) m0 tl Hm0 Htl)].
    simpl in Hprev. rewrite Hkeep, Hm0 in Hprev by lia. injection Hprev as <-.
    destruct (Call tl Htl) as (d & Hd & _).
    assert (Hnone : typemap m0 = None).
    { eapply Forall_lookup_1 in Hfresh; [|exact Hm0]. done. }
    unfold linked in Hd. rewrite Hnone in Hd. fold (own m0 tl) in Hd.
    exists d. by rewrite <- Hheap.
Qed.

Lemma filled_loop (n k : nat) (th : buckets) (wk w' : world) :
  (n + k = length (modules w))%nat → (1 ≤ k)%nat →
  filled fuel w k th wk →
  dedupLoop fuel n k th wk = Ret w' →
  ∃ th', filled fuel w (length (modules w)) th' w'.
Proof.
  revert k th wk. induction n as [|n IH]; intros k th wk Hn Hk Hfilled.
  - simpl. intros [= <-]. exists th. simpl in Hn. by rewrite <- Hn.
  - simpl. unfold activeModules.
    pose proof Hfilled as (Hsame & Hkeep & _).
    destruct Hsame as (_ & _ & _ & _ & _ & Hf).
    apply Forall2_length in Hf.
    destruct (lookup_lt_is_Some_2 (modules wk) (k - 1)) as [prev Hprev];
      [lia|].
    destruct (lookup_lt_is_Some_2 (modules w) k) as [mk Hmk]; [lia|].
    rewrite Hprev, Hkeep, Hmk by lia.
    destruct (collect wk prev (typelinks prev) th) as [th1| | | |] eqn:Hcol;
      simpl; try done.
    assert (Hnone : typemap mk = None).
    { eapply Forall_lookup_1 in Hfresh; [|exact Hmk]. done. }
    rewrite Hnone.
    destruct (fillTypemap fuel th1 k mk (typelinks mk) ∅
                (storeModule wk k (withTypemap ∅ mk)))
      as [w1| | | |] eqn:Hfill; simpl; try done.
    pose proof (filled_step k th th1 wk w1 prev mk Hk Hfilled Hprev Hmk
                  Hcol Hfill) as Hfilled1.
    apply IH; [lia|lia|done].
Qed.

Lemma filled_end (w' : world) :
  (2 ≤ length (modules w))%nat →
  typelinksinit fuel w = Ret w' →
  ∃ th', filled fuel w (length (modules w)) th' w'.
Proof.
  intros Hlen Hinit.
  assert (Hloop : dedupLoop fuel (length (modules w) - 1) 1 ∅ w = Ret w').
  { unfold typelinksinit, activeModules in Hinit.
    destruct (modules w) as [|a [|b rest]]; simpl in Hlen; [lia|lia|done]. }
  apply (filled_loop (length (modules w) - 1) 1 ∅ w w'); [lia|lia| |done].
  apply filled_start.
Qed.
End any_registry.

(** X17. Over a registry whose modules have no override map yet, the pass
    leaves the first module as it was and gives every later module an
    override map with one entry per typelink and no other entry.  The
    entry of a typelink is the descriptor of the typelink itself or a
    descriptor linked by an earlier module that stores the same hash
    and that [typesEqual], started with the empty memo, reported equal
    to it. *)
Theorem typemap_entries (fuel : nat) (w w' : world) :
  Forall (λ md, typemap md = None) (modules w) →
  typelinksinit fuel w = Ret w' →
  modules w' !! 0%nat = modules w !! 0%nat
  ∧ ∀ l ml, (1 ≤ l)%nat → modules w !! l = Some ml →
      ∃ tm, modules w' !! l = Some (withTypemap tm ml)
            ∧ (∀ o, o ∈ typelinks ml →
                    ∃ c, tm !! o = Some c ∧ entry fuel w l ml o c)
            ∧ (∀ o, o ∉ typelinks ml → tm !! o = None).
Proof.
  intros Hfresh Hinit.
  destruct (decide (2 ≤ length (modules w))%nat) as [Hlen|Hlen].
  - destruct (filled_end fuel w Hfresh w' Hlen Hinit)
      as (th' & _ & Hkeep & Hmaps & _).
    split; [apply Hkeep; by right|].
    intros l ml Hl Hml. apply Hmaps; [|done].
    split; [done|by eapply lookup_lt_Some].
  - unfold typelinksinit in Hinit.
    destruct (modules w) as [|a [|b rest]] eqn:Hmods;
      [| |simpl in Hlen; lia]; injection Hinit as <-.
    + split; [by rewrite Hmods|]. intros l ml _ Hml. done.
    + split; [by rewrite Hmods|]. intros l ml Hl Hml.
      destruct l as [|l]; [lia|done].
Qed.

Lemma typemap_entries_witness :
  ∃ w', typelinksinit 5 Three.world3 = Ret w'
        ∧ modules w' !! 0%nat = modules Three.world3 !! 0%nat
        ∧ ∃ tm c, modules w' !! 2%nat
                  = Some (withTypemap tm (Cyclic.module 20480))
                  ∧ tm !! 32 = Some c
                  ∧ entry 5 Three.world3 2 (Cyclic.module 20480) 32 c.
Proof.
  assert (Hrun : ∃ w', typelinksinit 5 Three.world3 = Ret w').
  { eexists. vm_compute. reflexivity. }
  destruct Hrun as [w' Hw']. exists w'. split; [exact Hw'|].
  destruct (typemap_entries 5 Three.world3 w' ltac:(repeat constructor) Hw')
    as [Hfirst Hlater].
  split; [exact Hfirst|].
  destruct (Hlater 2%nat (Cyclic.module 20480) ltac:(lia) eq_refl)
    as (tm & Htm & Hin & _).
  destruct (Hin 32 ltac:(simpl; by left)) as (c & Hc & Hentry).
  by exists tm, c.
Defined.

(** The loop over a registry whose later modules all have an override
    map stores nothing. *)
Lemma dedupLoop_again (fuel n k : nat) (th : buckets) (w : world) :
  (∀ l prev tl, (k - 1 ≤ l)%nat → modules w !! l = Some prev →
     tl ∈ typelinks prev → is_Some (heap w !! linked prev tl)) →
  (∀ l md, (k ≤ l)%nat → modules w !! l = Some md → typemap md ≠ None) →
  dedupLoop fuel n k th w = Ret w.
Proof.
  revert k th. induction n as [|n IH]; intros k th Hheap Hmaps; simpl; [done|].
  unfold activeModules.
  destruct (modules w !! (k - 1)%nat) as [prev|] eqn:Hprev; [|done].
  destruct (modules w !! k) as [md|] eqn:Hmd; [|done].
  destruct (collect_returns w prev (typelinks prev) th) as [th1 Hth1].
  { intros tl Htl. by apply (Hheap (k - 1)%nat). }
  rewrite Hth1. simpl.
  destruct (typemap md) as [tm|] eqn:Htm;
    [|by destruct (Hmaps k md ltac:(lia) Hmd)].
  simpl. apply IH.
  - intros l p tl Hl. apply Hheap. lia.
  - intros l m Hl. apply Hmaps. lia.
Qed.

(** X18. Run again on its own result, the pass returns, whatever its
    depth budget, and leaves every override map as the first run filled
    it: a module that has an override map is skipped. *)
Theorem typelinksinit_again (fuel fuel' : nat) (w w' : world) :
  Forall (λ md, typemap md = None) (modules w) →
  typelinksinit fuel w = Ret w' →
  typelinksinit fuel' w' = Ret w'.
Proof.
  intros Hfresh Hinit.
  destruct (decide (2 ≤ length (modules w))%nat) as [Hlen|Hlen].
  - destruct (filled_end fuel w Hfresh w' Hlen Hinit)
      as (th' & Hsame & Hkeep & Hmaps & _ & Hzero).
    pose proof Hsame as (_ & Hheap & _ & _ & _ & Hf).
    apply Forall2_same_length_lookup in Hf as [Hlen' Hf].
    rewrite typelinksinit_loop by lia. apply dedupLoop_again.
    + intros l prev tl _ Hprev Htl. rewrite <- Hheap.
      destruct (lookup_lt_is_Some_2 (modules w) l) as [ml Hml].
      { rewrite Hlen'. by eapply lookup_lt_Some. }
      destruct (decide (l = 0%nat)) as [->|Hl].
      * rewrite Hkeep, Hml in Hprev by lia. injection Hprev as <-.
        assert (Hnone : typemap ml = None).
        { eapply Forall_lookup_1 in Hfresh; [|exact Hml]. done. }
        unfold linked. rewrite Hnone. by apply (Hzero ltac:(lia) ml).
      * assert (Hlt : (l < length (modules w))%nat) by (by eapply lookup_lt_Some).
        destruct (Hmaps l ml ltac:(lia) Hml) as (tm & Htm & Hall & _).
        rewrite Htm in Hprev. injection Hprev as <-. simpl in Htl.
        destruct (Hall tl Htl) as (c & Hc & d & Hd & Hentry).
        unfold linked. simpl. rewrite Hc. simpl.
        destruct Hentry as [->|(dc & _ & _ & _ & Hdc & _)]; by eexists.
    + intros l md Hl Hmd.
      destruct (lookup_lt_is_Some_2 (modules w) l) as [ml Hml].
      { rewrite Hlen'. by eapply lookup_lt_Some. }
      assert (Hlt : (l < length (modules w))%nat) by (by eapply lookup_lt_Some).
      destruct (Hmaps l ml ltac:(lia) Hml) as (tm & Htm & _).
      rewrite Htm in Hmd. by injection Hmd as <-.
  - unfold typelinksinit in Hinit |- *.
    destruct (modules w) as [|a [|b rest]] eqn:Hmods;
      [| |simpl in Hlen; lia]; injection Hinit as <-; by rewrite Hmods.
Qed.

Lemma typelinksinit_again_witness :
  ∃ w', typelinksinit 5 Three.world3 = Ret w'
        ∧ typelinksinit 0 w' = Ret w'.
Proof.
  assert (Hrun : ∃ w', typelinksinit 5 Three.world3 = Ret w').
  { eexists. vm_compute. reflexivity. }
  destruct Hrun as [w' Hw']. exists w'. split; [exact Hw'|].
  exact (typelinksinit_again 5 0 Three.world3 w' ltac:(repeat constructor) Hw').
Defined.

(** ** The equality check is symmetric *)

Lemma swap_elem (seen : memo) (t v : Z) : (v, t) ∈ swap seen ↔ (t, v) ∈ seen.
Proof.
  unfold swap. rewrite elem_of_map. split.
  - intros ([a b] & [= -> ->] & Hin). done.
  - intros Hin. by exists (t, v).
Qed.

Lemma swap_insert (seen : memo) (t v : Z) :
  swap ({[(t, v)]} ∪ seen) = {[(v, t)]} ∪ swap seen.
Proof. unfold swap. by rewrite set_map_union_L, set_map_singleton_L. Qed.

Lemma swap_empty : swap ∅ = ∅.
Proof. apply set_map_empty. Qed.

Lemma mirror_ret (b : bool) (s : memo) : mirror (Ret (b, s)) (Ret (b, swap s)).
Proof. done. Qed.

Lemma mirror_bind (m m' : outcome (bool * memo))
  (k k' : bool * memo → outcome (bool * memo)) :
  mirror m m' → (∀ b s, mirror (k (b, s)) (k' (b, swap s))) →
  mirror (m ≫= k) (m' ≫= k').
Proof.
  intros Hm Hk.
  destruct m as [[b s]| | | |], m' as [[b' s']| | | |]; simpl in *; try done.
  destruct Hm as [-> ->]. apply Hk.
Qed.

(** Two reads that do not depend on each other, in either order. *)
Lemma mirror_reads {A B : Type} (m1 : outcome A) (m2 : outcome B)
  (k : A → B → outcome (bool * memo)) (k' : B → A → outcome (bool * memo)) :
  (∀ a b, mirror (k a b) (k' b a)) →
  mirror (m1 ≫= λ a, m2 ≫= k a) (m2 ≫= λ b, m1 ≫= k' b).
Proof. intros Hk. destruct m1, m2; simpl; done || apply Hk. Qed.

Lemma bool_decide_sym {A : Type} `{EqDecision A} (a b : A) :
  bool_decide (b = a) = bool_decide (a = b).
Proof. apply bool_decide_ext. split; congruence. Qed.

Section mirrored_loops.
Variable w : world.
Variables rec rec' : checker.
Hypothesis Hrec : ∀ t v seen, mirror (rec t v seen) (rec' v t (swap seen)).

Lemma mirror_eqTypes (tin vin : list Z) (seen : memo) :
  length tin = length vin →
  mirror (eqTypes rec tin vin seen) (eqTypes rec' vin tin (swap seen)).
Proof.
  revert vin seen. induction tin as [|t tin IH]; intros [|v vin] seen Hlen;
    simpl in *; try done.
  apply mirror_bind; [apply Hrec|]. intros b s.
  destruct b; simpl; [|done]. apply IH. lia.
Qed.

Lemma mirror_eqFields (tfs vfs : list structfield) (seen : memo) :
  length tfs = length vfs →
  mirror (eqFields w rec tfs vfs seen) (eqFields w rec' vfs tfs (swap seen)).
Proof.
  revert vfs seen. induction tfs as [|tf tfs IH]; intros [|vf vfs] seen Hlen;
    simpl in *; try done.
  apply mirror_reads. intros tn vn. rewrite (bool_decide_sym tn vn).
  destruct (negb (bool_decide (tn = vn))); [done|].
  apply mirror_bind; [apply Hrec|]. intros b s.
  destruct b; simpl; [|done].
  apply mirror_reads. intros tt vt. rewrite (bool_decide_sym tt vt).
  destruct (negb (bool_decide (tt = vt))); [done|].
  rewrite (Z.eqb_sym (offsetAnon vf)).
  destruct (negb (offsetAnon tf =? offsetAnon vf)); [done|].
  apply IH. lia.
Qed.

Lemma mirror_eqMethods (tms vms : list imethod) (tm vm : Z) (seen : memo) :
  length tms = length vms →
  mirror (eqMethods w rec tm vm tms vms seen)
         (eqMethods w rec' vm tm vms tms (swap seen)).
Proof.
  revert vms tm vm seen.
  induction tms as [|mt tms IH]; intros [|mv vms] tm vm seen Hlen;
    simpl in *; try done.
  apply mirror_reads. intros tname vname.
  apply mirror_reads. intros tn vn. rewrite (bool_decide_sym tn vn).
  destruct (negb (bool_decide (tn = vn))); [done|].
  apply mirror_reads. intros tpk vpk. rewrite (bool_decide_sym tpk vpk).
  destruct (negb (bool_decide (tpk = vpk))); [done|].
  apply mirror_reads. intros tityp vityp.
  apply mirror_bind; [apply Hrec|]. intros b s.
  destruct b; simpl; [|done]. apply IH. lia.
Qed.

Lemma mirror_eqKind (k : Z) (dt dv : descriptor) (seen : memo) :
  mirror (eqKind w rec k dt dv seen) (eqKind w rec' k dv dt (swap seen)).
Proof.
  unfold eqKind.
  destruct ((k =? kindString) || (k =? kindUnsafePointer)); [done|].
  destruct (k =? kindArray).
  { apply mirror_reads. intros at' av.
    apply mirror_bind; [apply Hrec|]. intros b s.
    by rewrite (Z.eqb_sym (at_len av)). }
  destruct (k =? kindChan).
  { apply mirror_reads. intros ct cv. rewrite (Z.eqb_sym (ct_dir cv)).
    destruct (negb (ct_dir ct =? ct_dir cv)); [done|]. apply Hrec. }
  destruct (k =? kindFunc).
  { apply mirror_reads. intros ft fv.
    rewrite (Z.eqb_sym (outCount fv)), (Z.eqb_sym (inCount fv)).
    destruct (outCount ft =? outCount fv) eqn:Hout; simpl; [|done].
    destruct (inCount ft =? inCount fv) eqn:Hin; simpl; [|done].
    apply Z.eqb_eq in Hout, Hin.
    destruct (functype_in dt ft) as [tin| | | |] eqn:Htin;
      destruct (functype_in dv fv) as [vin| | | |] eqn:Hvin; simpl; try done.
    apply slice_array_length in Htin, Hvin.
    apply mirror_bind; [apply mirror_eqTypes; lia|]. intros b s.
    destruct b; simpl; [|done].
    destruct (functype_out dt ft) as [tout| | | |] eqn:Htout;
      destruct (functype_out dv fv) as [vout| | | |] eqn:Hvout; simpl; try done.
    apply slice_array_length in Htout, Hvout.
    apply mirror_eqTypes. rewrite Hout, Hin in Htout. lia. }
  destruct (k =? kindInterface).
  { apply mirror_reads. intros it iv.
    apply mirror_reads. intros pt pv. rewrite (bool_decide_sym pt pv).
    destruct (negb (bool_decide (pt = pv))); [done|].
    rewrite (Nat.eqb_sym (length (mhdr iv))).
    destruct (length (mhdr it) =? length (mhdr iv))%nat eqn:Hlen; simpl;
      [|done].
    apply Nat.eqb_eq in Hlen. by apply mirror_eqMethods. }
  destruct (k =? kindMap).
  { apply mirror_reads. intros mt mv.
    apply mirror_bind; [apply Hrec|]. intros b s.
    destruct b; simpl; [|done]. apply Hrec. }
  destruct (k =? kindPtr).
  { apply mirror_reads. intros pt pv. apply Hrec. }
  destruct (k =? kindSlice).
  { apply mirror_reads. intros st sv. apply Hrec. }
  destruct (k =? kindStruct); [|done].
  apply mirror_reads. intros st sv.
  rewrite (Nat.eqb_sym (length (fields sv))).
  destruct (length (fields st) =? length (fields sv))%nat eqn:Hlen; simpl;
    [|done].
  apply Nat.eqb_eq in Hlen.
  apply mirror_reads. intros pt pv. rewrite (bool_decide_sym pt pv).
  destruct (negb (bool_decide (pt = pv))); [done|].
  by apply mirror_eqFields.
Qed.
End mirrored_loops.

Lemma mirror_eqUncommon (w : world) (t v : Z) (dt dv : descriptor)
  (k k' : bool → outcome (bool * memo)) :
  (∀ b, mirror (k b) (k' b)) →
  mirror (eqUncommon w t v dt dv ≫= k) (eqUncommon w v t dv dt ≫= k').
Proof.
  intros Hk. unfold eqUncommon.
  destruct (type_uncommon dt) as [ut|], (type_uncommon dv) as [uv|]; simpl;
    try apply Hk.
  destruct (type_nameOff w t (u_pkgpath ut)) as [nt| | | |],
           (type_nameOff w v (u_pkgpath uv)) as [nv| | | |]; simpl; try done;
    try (destruct (name_name w nt) as [pt| | | |]; simpl; try done);
    try (destruct (name_name w nv) as [pv| | | |]; simpl; try done).
  rewrite (bool_decide_sym pt pv). apply Hk.
Qed.

Lemma typesEqual_mirror (w : world) (fuel : nat) (t v : Z) (seen : memo) :
  mirror (typesEqual fuel w t v seen) (typesEqual fuel w v t (swap seen)).
Proof.
  revert t v seen. induction fuel as [|fuel IH]; intros t v seen; [done|].
  simpl. unfold typesEqualBody. cbv zeta.
  destruct (decide ((t, v) ∈ seen)) as [Hin|Hnew].
  { rewrite !bool_decide_eq_true_2; [done|by apply swap_elem|done]. }
  rewrite !bool_decide_eq_false_2; [|by rewrite swap_elem|done].
  rewrite <- swap_insert, (Z.eqb_sym v t).
  destruct (t =? v); [done|].
  apply mirror_reads. intros dt dv.
  rewrite (Z.eqb_sym (Z.land (kind (header (lay dv))) kindMask)).
  destruct (Z.land (kind (header (lay dt))) kindMask
            =? Z.land (kind (header (lay dv))) kindMask) eqn:Hk; simpl; [|done].
  apply Z.eqb_eq in Hk. rewrite <- Hk.
  apply mirror_reads. intros ts vs. rewrite (bool_decide_sym ts vs).
  destruct (negb (bool_decide (ts = vs))); [done|].
  apply mirror_eqUncommon. intros same.
  destruct (negb same); [done|]. destruct (_ && _); [done|].
  by apply mirror_eqKind.
Qed.

(** X19. The verdict does not depend on the order of the two
    descriptors: when [typesEqual] returns for [t] and [v], it returns
    the same verdict for [v] and [t] with the same depth budget, started
    with the memo turned around (the empty memo is its own mirror), and
    hands back the first memo turned around. *)
Theorem typesEqual_symmetric (w : world) (fuel : nat) (t v : Z) (b : bool)
  (seen seen' : memo) :
  typesEqual fuel w t v seen = Ret (b, seen') →
  typesEqual fuel w v t (swap seen) = Ret (b, swap seen')
  ∧ (seen = ∅ → typesEqual fuel w v t ∅ = Ret (b, swap seen')).
Proof.
  intros Hret. pose proof (typesEqual_mirror w fuel t v seen) as Hm.
  rewrite Hret in Hm.
  assert (Hswap : typesEqual fuel w v t (swap seen) = Ret (b, swap seen')).
  { destruct (typesEqual fuel w v t (swap seen)) as [[b' s']| | | |];
      simpl in Hm; try done. by destruct Hm as [-> ->]. }
  split; [done|]. intros ->. by rewrite swap_empty in Hswap.
Qed.

Lemma typesEqual_symmetric_witness :
  ∃ seen seen',
    typesEqual 5 Cyclic.world2 4112 12304 ∅ = Ret (true, seen)
    ∧ typesEqual 5 Cyclic.world2 12304 4112 ∅ = Ret (true, seen').
Proof.
  assert (Htrue : typesEqual 5 Cyclic.world2 4112 12304 ∅
            = Ret (true, {[(4128, 12320)]} ∪ ({[(4112, 12304)]} ∪ ∅))).
  { vm_compute. reflexivity. }
  eexists _, _. split; [exact Htrue|].
  exact (proj2 (typesEqual_symmetric _ _ _ _ _ _ _ Htrue) eq_refl).
Defined.

(** ** Resolving type offsets after the pass *)

(** X20. After the pass over a registry without override maps and with
    no descriptor at address zero, [resolveTypeOff] in a module after the
    first returns, for a non-zero typelink of the module, the entry that
    the pass stored: the descriptor of the typelink or an earlier one
    reported equal to it; for any other non-zero offset it does what it
    did before the pass. *)
Theorem resolve_after_pass (fuel : nat) (w w' : world) (l : nat)
  (ml : moduledata) (o base : Z) :
  Forall (λ md, typemap md = None) (modules w) →
  typelinksinit fuel w = Ret w' →
  heap w !! 0 = None →
  (1 ≤ l)%nat → modules w !! l = Some ml → owns (modules w) l base →
  o ≠ 0 →
  (o ∈ typelinks ml →
     ∃ c, resolveTypeOff w' base o = Ret c ∧ entry fuel w l ml o c)
  ∧ (o ∉ typelinks ml → resolveTypeOff w' base o = resolveTypeOff w base o).
Proof.
  intros Hfresh Hinit Hnil Hl Hml Howns Ho.
  assert (Hlt : (l < length (modules w))%nat) by (by eapply lookup_lt_Some).
  destruct (filled_end fuel w Hfresh w' ltac:(lia) Hinit)
    as (th' & _ & _ & Hmaps & _).
  destruct (Hmaps l ml ltac:(lia) Hml) as (tm & Htm & Hin & Hout).
  pose proof (typelinksinit_sameLayout fuel w w' Hinit)
    as (_ & _ & _ & _ & _ & Hf).
  pose proof (owns_sameLayout _ _ _ _ Hf Howns) as Howns'.
  split.
  - intros Ho'. destruct (Hin o Ho') as (c & Hc & Hentry).
    exists c. split; [|done].
    apply (resolveTypeOff_override w' base o l (withTypemap tm ml) tm);
      try done.
    intros ->. destruct Hentry as (d & Hd & [Hown|(dc & _ & _ & _ & Hdc & _)]).
    + rewrite <- Hown, Hnil in Hd. done.
    + rewrite Hnil in Hdc. done.
  - intros Ho'. unfold resolveTypeOff.
    rewrite (findmodule_owns _ _ _ Howns), (findmodule_owns _ _ _ Howns').
    rewrite Htm, Hml. simpl. rewrite (Hout o Ho'). simpl.
    eapply Forall_lookup_1 in Hfresh; [|exact Hml]. simpl in Hfresh.
    by rewrite Hfresh.
Qed.

Lemma resolve_after_pass_witness :
  ∃ w' c, typelinksinit 5 Three.world3 = Ret w'
          ∧ resolveTypeOff w' 20496 32 = Ret c
          ∧ entry 5 Three.world3 2 (Cyclic.module 20480) 32 c.
Proof.
  assert (Hrun : ∃ w', typelinksinit 5 Three.world3 = Ret w').
  { eexists. vm_compute. reflexivity. }
  destruct Hrun as [w' Hw'].
  assert (Howns : owns (modules Three.world3) 2 20496).
  { split.
    - exists (Cyclic.module 20480). split; [reflexivity|]. simpl. lia.
    - intros l ml Hl Hml. destruct l as [|[|l]]; [| |lia];
        simpl in Hml; injection Hml as <-; simpl; lia. }
  destruct (resolve_after_pass 5 Three.world3 w' 2 (Cyclic.module 20480)
              32 20496 ltac:(repeat constructor) Hw' eq_refl ltac:(lia)
              eq_refl Howns ltac:(lia)) as [Hin _].
  destruct (Hin ltac:(simpl; by left)) as (c & Hc & Hentry).
  by exists w', c.
Defined.

(** ** The candidates the pass collects *)

Lemma collect_prefix (w : world) (prev : moduledata) (tls : list Z)
  (th th' : buckets) :
  collect w prev tls th = Ret th' →
  (∀ h, NoDup (bucket th h)) →
  (∀ h, NoDup (bucket th' h)) ∧ (∀ h, bucket th h `prefix_of` bucket th' h).
Proof.
  revert th. induction tls as [|tl tls IH]; intros th; simpl.
  - by intros [= <-] Hnd.
  - destruct (deref w (linked prev tl)) as [d| | | |]; simpl; try done.
    case_bool_decide as Hin; [by apply IH|].
    intros Hc Hnd.
    destruct (IH _ Hc) as [Hnd' Hpre].
    { intros h. rewrite bucket_insert.
      destruct (decide (hash (header (lay d)) = h)) as [<-|Hne]; [|done].
      apply NoDup_app. split_and!; [done| |apply NoDup_singleton].
      intros x Hx ->%list_elem_of_singleton. done. }
    split; [done|]. intros h. etrans; [|apply Hpre].
    rewrite bucket_insert.
    destruct (decide (hash (header (lay d)) = h)) as [<-|Hne]; [|done].
    by apply prefix_app_r.
Qed.

(** X21. The loop [collect] keeps the buckets free of duplicates and
    only appends to them; what it adds to the bucket of a hash are
    descriptors that typelinks of the previous module stand for and that
    store this hash; and afterwards the descriptor of every typelink of
    the previous module is in the bucket of its hash. *)
Theorem collect_buckets (w : world) (prev : moduledata) (tls : list Z)
  (th th' : buckets) :
  collect w prev tls th = Ret th' →
  (∀ h, NoDup (bucket th h)) →
  (∀ h, NoDup (bucket th' h))
  ∧ (∀ h, bucket th h `prefix_of` bucket th' h)
  ∧ (∀ h c, c ∈ bucket th' h →
       c ∈ bucket th h
       ∨ ∃ tl d, tl ∈ tls ∧ c = linked prev tl ∧ heap w !! c = Some d
                 ∧ hash (header (lay d)) = h)
  ∧ (∀ tl, tl ∈ tls →
       ∃ d, heap w !! linked prev tl = Some d
            ∧ linked prev tl ∈ bucket th' (hash (header (lay d)))).
Proof.
  intros Hc Hnd. destruct (collect_prefix _ _ _ _ _ Hc Hnd) as [Hnd' Hpre].
  destruct (collect_spec _ _ _ _ _ Hc) as (_ & _ & Hall).
  split_and!; [done|done|by apply (collect_hash w prev tls)|done].
Qed.

Lemma collect_buckets_witness :
  ∃ th', collect Cyclic.world2 (Cyclic.module 4096) [32; 32] ∅ = Ret th'
         ∧ NoDup (bucket th' 9) ∧ 4128 ∈ bucket th' 9.
Proof.
  assert (Hrun : ∃ th', collect Cyclic.world2 (Cyclic.module 4096) [32; 32] ∅
                        = Ret th').
  { eexists. vm_compute. reflexivity. }
  destruct Hrun as [th' Hth']. exists th'. split; [exact Hth'|].
  destruct (collect_buckets _ _ _ _ _ Hth') as (Hnd & _ & _ & Hall).
  { intros h. unfold bucket. rewrite lookup_empty. apply NoDup_nil_2. }
  split; [apply Hnd|].
  destruct (Hall 32 ltac:(by left)) as (d & Hd & Hin).
  assert (Hdesc : heap Cyclic.world2 !! linked (Cyclic.module 4096) 32
                  = Some (Cyclic.ptrS 4096)) by (vm_compute; reflexivity).
  rewrite Hdesc in Hd. injection Hd as <-. exact Hin.
Defined.

(** ** The pass ends *)

(** X22. With a depth budget of at least [enough w], one more than the
    number of pairs of descriptors, the pass ends over any registry: it
    returns or aborts, and every such budget gives the same outcome. *)
Theorem pass_ends (w : world) (fuel : nat) :
  (enough w ≤ fuel)%nat →
  ends (typelinksinit fuel w)
  ∧ typelinksinit fuel w = typelinksinit (enough w) w.
Proof.
  intros Hfuel. unfold typelinksinit.
  destruct (modules w) as [|first [|second rest]]; [done|done|].
  destruct (dedupLoop_enough (length (activeModules w) - 1) 1 ∅ w fuel Hfuel)
    as [Hends Hsame].
  split; [exact Hends|exact Hsame].
Qed.

Lemma pass_ends_witness :
  (enough Three.world3 ≤ 30)%nat
  ∧ ends (typelinksinit 30 Three.world3)
  ∧ typelinksinit 30 Three.world3
    = typelinksinit (enough Three.world3) Three.world3.
Proof.
  assert (Hfuel : (enough Three.world3 ≤ 30)%nat) by (vm_compute; lia).
  split; [exact Hfuel|]. exact (pass_ends Three.world3 30 Hfuel).
Defined.

(** ** Kinds without component types *)

(** X23. Two descriptors of one of the kinds boolean to complex128, of
    kind string or of kind unsafe pointer that pass the checks of the
    kind tag, of the textual form and of the uncommon data are reported
    equal at once: nothing else of the descriptors is compared, their
    sizes and hashes included, and the memo gains their pair only. *)
Theorem leaf_kinds_equal (w : world) (fuel : nat) (t v : Z) (seen : memo)
  (dt dv : descriptor) (s : list byte) :
  (t, v) ∉ seen → t ≠ v →
  heap w !! t = Some dt → heap w !! v = Some dv →
  Z.land (kind (header (lay dt))) kindMask
  = Z.land (kind (header (lay dv))) kindMask →
  type_string w t = Ret s → type_string w v = Ret s →
  eqUncommon w t v dt dv = Ret true →
  kindBool ≤ Z.land (kind (header (lay dt))) kindMask ≤ kindComplex128
  ∨ Z.land (kind (header (lay dt))) kindMask = kindString
  ∨ Z.land (kind (header (lay dt))) kindMask = kindUnsafePointer →
  typesEqual (S fuel) w t v seen = Ret (true, {[(t, v)]} ∪ seen).
Proof.
  intros Hnew Hne Ht Hv Hk Hts Hvs Hunc Hleaf.
  simpl. unfold typesEqualBody.
  rewrite bool_decide_eq_false_2 by done.
  apply Z.eqb_neq in Hne. rewrite Hne.
  unfold deref. rewrite Ht, Hv. simpl.
  rewrite <- Hk, Z.eqb_refl. simpl.
  rewrite Hts, Hvs. simpl. rewrite bool_decide_eq_true_2 by done. simpl.
  rewrite Hunc. simpl.
  set (k := Z.land (kind (header (lay dt))) kindMask) in *.
  destruct Hleaf as [[Hlo Hhi]|Hleaf].
  { apply Z.leb_le in Hlo, Hhi. by rewrite Hlo, Hhi. }
  assert (Hbasic : (kindBool <=? k) && (k <=? kindComplex128) = false).
  { apply andb_false_iff. right. apply Z.leb_gt.
    destruct Hleaf as [->| ->]; reflexivity. }
  rewrite Hbasic. unfold eqKind.
  destruct Hleaf as [->| ->]; reflexivity.
Qed.

Lemma leaf_kinds_equal_witness :
  hash (header (lay (Hashes.boolType 1)))
  ≠ hash (header (lay (Hashes.boolType 2)))
  ∧ typesEqual 1 Hashes.world2 4112 12304 ∅
    = Ret (true, {[(4112, 12304)]} ∪ ∅).
Proof.
  split; [vm_compute; discriminate|].
  apply (leaf_kinds_equal Hashes.world2 0 4112 12304 ∅
           (Hashes.boolType 1) (Hashes.boolType 2) (Cyclic.bytes "bool"));
    [set_solver|lia|vm_compute; reflexivity|vm_compute; reflexivity
    |reflexivity|vm_compute; reflexivity|vm_compute; reflexivity
    |vm_compute; reflexivity|left; vm_compute; split; discriminate].
Defined.

(** ** The equality check decides a bisimulation *)

(** X24. Started with the empty memo, [typesEqual] answers yes exactly
    on the pairs of descriptors that are structurally equal: yes, with
    whatever depth budget, only on a pair that some relation holds whose
    pairs are each the same pointer, or two descriptors of which the
    check reads the same kind, textual form, package path, numbers and
    names, and whose component types are pairwise the same pointer or in
    the relation again; and on every such pair it answers yes within the
    depth [enough w]. *)
Theorem typesEqual_bisimilar (w : world) (t v : Z) :
  (∀ fuel seen, typesEqual fuel w t v ∅ = Ret (true, seen) → similar w t v)
  ∧ (similar w t v → ∃ seen, typesEqual (enough w) w t v ∅ = Ret (true, seen)).
Proof.
  split.
  - intros fuel seen H. by apply (equal_similar w fuel t v seen).
  - apply similar_equal.
Qed.

(** X25. The yes of [typesEqual], started with the empty memo, is
    transitive: [a] reported equal to [b] and [b] to [c], each with some
    depth budget, [a] is reported equal to [c] within the depth
    [enough w]. *)
Theorem typesEqual_transitive (w : world) (f1 f2 : nat) (a b c : Z)
  (s1 s2 : memo) :
  typesEqual f1 w a b ∅ = Ret (true, s1) →
  typesEqual f2 w b c ∅ = Ret (true, s2) →
  ∃ s, typesEqual (enough w) w a c ∅ = Ret (true, s).
Proof.
  intros Hab%equal_similar Hbc%equal_similar.
  apply similar_equal. by apply (similar_trans w a b c).
Qed.

Lemma typesEqual_transitive_witness :
  ∃ s, typesEqual (enough Methods.world3) Methods.world3 4144 20528 ∅
       = Ret (true, s).
Proof.
  assert (Hab : ∃ s, typesEqual 5 Methods.world3 4144 12336 ∅ = Ret (true, s)).
  { eexists. vm_compute. reflexivity. }
  assert (Hbc : ∃ s, typesEqual 5 Methods.world3 12336 20528 ∅ = Ret (true, s)).
  { eexists. vm_compute. reflexivity. }
  destruct Hab as [s1 Hab]. destruct Hbc as [s2 Hbc].
  exact (typesEqual_transitive Methods.world3 5 5 4144 12336 20528 s1 s2
           Hab Hbc).
Defined.
